(** * a11y-devkit-deploy: path resolution, configuration store and
      repository provisioning

    A shallow embedding of the JavaScript sources

    - [src/paths.js], which holds four units one after the other: the
      host path resolver in two revisions ([getIdePaths], lines 1-96, and
      [getHostApplicationPaths], lines 96-165), the configuration store
      ([parseSimpleToml], [stringifySimpleToml], [mergeServers],
      [removeServers], and the functions that load and save a
      configuration file: [loadJson], [loadToml], [loadConfig],
      [installMcpConfig], [removeMcpConfig]; lines 165-402) and the git
      installer ([cloneGitRepo], [buildGitRepo], [installGitMcp],
      lines 403-611);
    - [src/installers/repo.js] ([ensureRepo], [buildMcp]);

    followed by the properties stated about them.  Definitions keep the
    names of the functions they embed.

    Conventions of the embedding.

    - A JavaScript string is a Rocq [string]; each character stands for the
      code unit of the same number (U+0000 .. U+00FF).
    - A JavaScript object is the list of its own enumerable properties in
      insertion order; the renumbering of integer-like keys during
      enumeration is not modelled.  An assignment [o[k] = v] follows
      [assign]: the name [__proto__], unless it is an own property, reaches
      the setter of [Object.prototype] and creates nothing.  Reading a name
      that [Object.prototype] defines ([inherited]) from an object that
      does not have it yields a built-in object; the store functions treat
      it as they treat a missing section, and the TOML reader is modelled
      for headers that do not use such names, which the statements about
      it say.
    - A JavaScript number is represented by the text [String(n)] gives for
      it: the sources only test numbers for truthiness and splice them into
      template literals. *)

From Stdlib Require Import String Ascii List Bool Arith Lia DecimalString.
Import ListNotations.
Open Scope string_scope.

(* ================================================================= *)
(** ** JavaScript values *)

Module Js.

#[warnings="-register-all"]
Inductive value : Type :=
| VUndef
| VNull
| VBool (b : bool)
| VNum (repr : string)
| VStr (s : string)
| VArr (items : list value)
| VObj (props : list (string * value)).

(** Own properties, oldest first, whatever the values are. *)
Section Properties.
Context {V : Type}.

(** [o[k]] for an own property. *)
Fixpoint oget (o : list (string * V)) (k : string) : option V :=
  match o with
  | [] => None
  | (k', v) :: rest => if k' =? k then Some v else oget rest k
  end.

(** Defining the property [k] with the value [v], as an object literal or
    a spread does: an existing property keeps its place, a new one goes
    last. *)
Fixpoint oset (o : list (string * V)) (k : string) (v : V) : list (string * V) :=
  match o with
  | [] => [(k, v)]
  | (k', v') :: rest =>
      if k' =? k then (k, v) :: rest else (k', v') :: oset rest k v
  end.

(** [delete o[k]]. *)
Definition odelete (o : list (string * V)) (k : string) : list (string * V) :=
  filter (fun p => negb (fst p =? k)) o.

(** [Object.prototype.hasOwnProperty.call(o, k)]. *)
Definition hasOwn (o : list (string * V)) (k : string) : bool :=
  existsb (fun p => fst p =? k) o.

(** The assignment [o[k] = v] on an ordinary object. *)
Definition assign (o : list (string * V)) (k : string) (v : V)
  : list (string * V) :=
  if (k =? "__proto__") && negb (hasOwn o k) then o else oset o k v.

End Properties.

(** The names of the properties of [Object.prototype]. *)
Definition inherited (n : string) : bool :=
  existsb (String.eqb n)
    ["constructor"; "__defineGetter__"; "__defineSetter__"; "hasOwnProperty";
     "__lookupGetter__"; "__lookupSetter__"; "isPrototypeOf";
     "propertyIsEnumerable"; "toString"; "valueOf"; "__proto__";
     "toLocaleString"].

(** The own properties of an object. *)
Definition obj := list (string * value).

Definition keys (o : obj) : list string := map fst o.

(** [o[k]] as an expression: [undefined] when the property is missing. *)
Definition prop (o : obj) (k : string) : value :=
  match oget o k with Some v => v | None => VUndef end.

(** ToBoolean. *)
Definition truthy (v : value) : bool :=
  match v with
  | VUndef | VNull => false
  | VBool b => b
  | VNum r => negb ((r =? "0") || (r =? "NaN"))
  | VStr s => negb (s =? "")
  | VArr _ | VObj _ => true
  end.

(** [typeof v === "object"]. *)
Definition typeof_object (v : value) : bool :=
  match v with
  | VNull | VArr _ | VObj _ => true
  | _ => false
  end.

Definition index_key (n : nat) : string :=
  NilZero.string_of_uint (Nat.to_uint n).

Fixpoint indexed_from (n : nat) (items : list value) : obj :=
  match items with
  | [] => []
  | v :: rest => (index_key n, v) :: indexed_from (S n) rest
  end.

(** [Object.entries(v)], which is also what [{...v}] copies: the
    elements of an array under their indices, nothing for a primitive. *)
Definition entries (v : value) : obj :=
  match v with
  | VObj o => o
  | VArr items => indexed_from 0 items
  | _ => []
  end.

(** [x[k][n]] and [x[k][n] = v] for an object [x] whose property [k]
    holds an object; the sources only use them on such objects. *)
Definition get_nested (x : obj) (k n : string) : value :=
  match oget x k with
  | Some (VObj inner) => prop inner n
  | _ => VUndef
  end.

Definition set_nested (x : obj) (k n : string) (v : value) : obj :=
  match oget x k with
  | Some (VObj inner) => oset x k (VObj (assign inner n v))
  | _ => x
  end.

(** [x[a][b][c] = v]. *)
Definition set_nested3 (x : obj) (a b c : string) (v : value) : obj :=
  match oget x a with
  | Some (VObj inner) => oset x a (VObj (set_nested inner b c v))
  | _ => x
  end.

(** ToString, as a template literal applies it. *)
Fixpoint to_string (v : value) : string :=
  match v with
  | VUndef => "undefined"
  | VNull => "null"
  | VBool true => "true"
  | VBool false => "false"
  | VNum r => r
  | VStr s => s
  | VArr items =>
      String.concat ","
        (map (fun x => match x with
                       | VUndef | VNull => ""
                       | _ => to_string x
                       end) items)
  | VObj _ => "[object Object]"
  end.

(** Deep equality of two values that ignores the order in which the
    properties of objects were inserted. *)
Fixpoint same_value (a b : value) {struct a} : bool :=
  match a, b with
  | VUndef, VUndef => true
  | VNull, VNull => true
  | VBool x, VBool y => Bool.eqb x y
  | VNum x, VNum y => x =? y
  | VStr x, VStr y => x =? y
  | VArr xs, VArr ys =>
      (fix each (xs ys : list value) {struct xs} : bool :=
         match xs, ys with
         | [], [] => true
         | x :: xs', y :: ys' => same_value x y && each xs' ys'
         | _, _ => false
         end) xs ys
  | VObj xs, VObj ys =>
      (fix each (xs : obj) {struct xs} : bool :=
         match xs with
         | [] => true
         | (k, v) :: xs' =>
             match oget ys k with
             | Some w => same_value v w
             | None => false
             end && each xs'
         end) xs
      && forallb (fun p => hasOwn xs (fst p)) ys
  | _, _ => false
  end.

End Js.

(* ================================================================= *)
(** ** String methods and character classes *)

Module Str.

(** WhiteSpace and LineTerminator code units: what [trim] strips and
    what [\s] matches. *)
Definition is_space (c : ascii) : bool :=
  let n := nat_of_ascii c in
  ((9 <=? n) && (n <=? 13) || (n =? 32) || (n =? 160))%nat.

(** LineTerminator code units: what [.] does not match. *)
Definition is_line_terminator (c : ascii) : bool :=
  let n := nat_of_ascii c in ((n =? 10) || (n =? 13))%nat.

(** [\w]. *)
Definition is_word (c : ascii) : bool :=
  let n := nat_of_ascii c in
  ((48 <=? n) && (n <=? 57) || (65 <=? n) && (n <=? 90) || (n =? 95)
   || (97 <=? n) && (n <=? 122))%nat.

Fixpoint all (f : ascii -> bool) (s : string) : bool :=
  match s with
  | EmptyString => true
  | String c rest => f c && all f rest
  end.

Definition is_not (c : ascii) (d : ascii) : bool := negb (Ascii.eqb d c).

Definition newline : string := String "010" "".
Definition dquote : string := String (ascii_of_nat 34) "".

Fixpoint takeWhile (f : ascii -> bool) (s : string) : string :=
  match s with
  | EmptyString => ""
  | String c rest => if f c then String c (takeWhile f rest) else ""
  end.

Fixpoint dropWhile (f : ascii -> bool) (s : string) : string :=
  match s with
  | EmptyString => ""
  | String c rest => if f c then dropWhile f rest else s
  end.

Definition trimStart (s : string) : string := dropWhile is_space s.

Fixpoint trimEnd (s : string) : string :=
  match s with
  | EmptyString => ""
  | String c rest =>
      match trimEnd rest with
      | EmptyString => if is_space c then "" else String c ""
      | t => String c t
      end
  end.

Definition trim (s : string) : string := trimEnd (trimStart s).

Definition startsWith (s p : string) : bool := String.prefix p s.

Fixpoint endsWith (s suffix : string) : bool :=
  if s =? suffix then true
  else match s with
       | EmptyString => false
       | String _ rest => endsWith rest suffix
       end.

Fixpoint drop_last (s : string) : string :=
  match s with
  | EmptyString => ""
  | String c EmptyString => ""
  | String c rest => String c (drop_last rest)
  end.

Fixpoint last (s : string) : option ascii :=
  match s with
  | EmptyString => None
  | String c EmptyString => Some c
  | String _ rest => last rest
  end.

(** [s.slice(1, -1)]. *)
Definition slice_1_m1 (s : string) : string :=
  match s with
  | EmptyString => ""
  | String _ rest => drop_last rest
  end.

(** [s.split(sep)] for a one-character separator. *)
Fixpoint split (sep : ascii) (s : string) : list string :=
  match s with
  | EmptyString => [""]
  | String c rest =>
      if Ascii.eqb c sep then "" :: split sep rest
      else match split sep rest with
           | h :: t => String c h :: t
           | [] => [String c ""]
           end
  end.

(** [parts.join(sep)]. *)
Definition join (sep : string) (parts : list string) : string :=
  String.concat sep parts.

(** The part of [s] before the last occurrence of [c]. *)
Fixpoint before_last (c : ascii) (s : string) : option string :=
  match s with
  | EmptyString => None
  | String d rest =>
      match before_last c rest with
      | Some p => Some (String d p)
      | None => if Ascii.eqb d c then Some "" else None
      end
  end.

End Str.

(* ================================================================= *)
(** ** The configuration store ([src/paths.js], lines 165-402) *)

Module McpConfig.
Import Js Str.

(** *** The minimal TOML reader and writer *)

(** [trimmed.match(/^\[([^\]]+)\]$/)]: the bracketed name. *)
Definition tableMatch (trimmed : string) : option string :=
  match trimmed with
  | String "[" rest =>
      let body := drop_last rest in
      if endsWith rest "]" && negb (body =? "") && all (is_not "]") body
      then Some body else None
  | _ => None
  end.

(** The tail [\s*(.+)$] of the key-value pattern, tried on what follows
    the [=] sign: as much white space as still leaves [(.+)] a non-empty
    run without line terminator reaching the end. *)
Definition kv_value (after_eq : string) : option string :=
  match dropWhile is_space after_eq with
  | EmptyString =>
      match last after_eq with
      | Some c => if is_line_terminator c then None else Some (String c "")
      | None => None
      end
  | v => if all (fun c => negb (is_line_terminator c)) v then Some v else None
  end.

(** [trimmed.match(/^(\w+)\s*=\s*(.+)$/)]: the key and the value. *)
Definition kvMatch (trimmed : string) : option (string * string) :=
  let key := takeWhile is_word trimmed in
  if key =? "" then None
  else
    match dropWhile is_space (dropWhile is_word trimmed) with
    | String "=" after_eq =>
        match kv_value after_eq with
        | Some v => Some (key, v)
        | None => None
        end
    | _ => None
    end.

(** [value.match] on the pattern "opening bracket, greedy run of
    characters other than line terminators, closing bracket": the text
    between the first opening bracket that has a closing one later on
    its line and the last such closing bracket. *)
Fixpoint arrayMatch (value : string) : option string :=
  match value with
  | EmptyString => None
  | String c rest =>
      if Ascii.eqb c "["
      then match before_last "]"
                   (takeWhile (fun c => negb (is_line_terminator c)) rest) with
           | Some inner => Some inner
           | None => arrayMatch rest
           end
      else arrayMatch rest
  end.

(** The callback of [.map] over the array items. *)
Definition parse_item (item : string) : string :=
  let trimmedItem := trim item in
  if startsWith trimmedItem dquote && endsWith trimmedItem dquote
  then slice_1_m1 trimmedItem
  else trimmedItem.

Record parser : Type := mkParser {
  result : obj;
  currentSection : option string;
  currentTable : option string
}.

(** A variable that is [null] or a string, used as a condition. *)
Definition is_set (x : option string) : bool :=
  match x with
  | Some s => negb (s =? "")
  | None => false
  end.

Definition name_of (x : option string) : string :=
  match x with Some s => s | None => "null" end.

(** What the three branches on [value] store under the key, if anything:
    an array of items, the inside of a quoted string, or the raw text. *)
Definition parse_value (value : string) : option Js.value :=
  if startsWith value "["
  then
    match arrayMatch value with
    | Some inner => Some (VArr (map VStr (map parse_item (split "," inner))))
    | None => None
    end
  else if startsWith value dquote && endsWith value dquote
  then Some (VStr (slice_1_m1 value))
  else Some (VStr value).

(** The two guarded assignments that open a table:
    [if (!result[section]) result[section] = {}] and
    [if (!result[section][table]) result[section][table] = {}]. *)
Definition open_table (result : obj) (section table : string) : obj :=
  let r1 := if negb (truthy (prop result section))
            then assign result section (VObj [])
            else result in
  if negb (truthy (get_nested r1 section table))
  then set_nested r1 section table (VObj [])
  else r1.

(** The body of the [for (const line of lines)] loop. *)
Definition parse_line (st : parser) (line : string) : parser :=
  let trimmed := trim line in
  if (trimmed =? "") || startsWith trimmed "#" then st
  else
    match tableMatch trimmed with
    | Some inner =>
        match split "." inner with
        | [section; table] =>
            mkParser (open_table (result st) section table)
              (Some section) (Some table)
        | _ => st
        end
    | None =>
        match kvMatch trimmed with
        | Some (key, value) =>
            if is_set (currentSection st) && is_set (currentTable st)
            then
              match parse_value value with
              | Some v =>
                  mkParser
                    (set_nested3 (result st) (name_of (currentSection st))
                       (name_of (currentTable st)) key v)
                    (currentSection st) (currentTable st)
              | None => st
              end
            else st
        | None => st
        end
    end.

Definition parseSimpleToml (content : string) : obj :=
  result (fold_left parse_line (split "010" content) (mkParser [] None None)).

(** [typeof v === 'object' && v !== null]. *)
Definition is_mapping (v : value) : bool :=
  match v with
  | VArr _ | VObj _ => true
  | _ => false
  end.

(** The header line of a table, and a field line whose value text
    starts with [c]. *)
Definition header_line (s t : string) : string := "[" ++ s ++ "." ++ t ++ "]".

Definition kv_line (key : string) (c : ascii) (text : string) : string :=
  key ++ String " " (String "=" (String " " (String c text))).

(** An array item as the writer prints it. *)
Definition quoted (s : string) : string := dquote ++ s ++ dquote.

(** The line written for one field of a table. *)
Definition field_line (kv : string * value) : string :=
  let (key, value) := kv in
  match value with
  | VArr items =>
      key ++ " = [" ++
      join ", " (map (fun v => dquote ++ to_string v ++ dquote) items) ++ "]"
  | VStr s => key ++ " = " ++ dquote ++ s ++ dquote
  | _ => key ++ " = " ++ to_string value
  end.

(** The lines written for one table of a section. *)
Definition table_lines (section : string) (t : string * value) : list string :=
  let (tableName, config) := t in
  if is_mapping config
  then (header_line section tableName
          :: map field_line (entries config) ++ [""])%list
  else [].

Definition section_lines (s : string * value) : list string :=
  let (section, tables) := s in
  if is_mapping tables
  then flat_map (table_lines section) (entries tables)
  else [].

Definition stringifySimpleToml (o : obj) : string :=
  join newline (flat_map section_lines (entries (VObj o))).

(** The documents on which reading back what was written is the
    identity: names that survive the header pattern and are not names of
    built-in properties, keys that are words other than [__proto__],
    strings that stay on their line, arrays that have items free of the
    separating comma, and no key written twice. *)
Definition name_ok (n : string) : bool :=
  negb (n =? "") && negb (inherited n)
  && all (fun c => is_not "." c && is_not "]" c && is_not "010" c) n.

Definition key_ok (k : string) : bool :=
  negb (k =? "") && negb (k =? "__proto__") && all is_word k.

Definition text_ok (s : string) : bool :=
  all (fun c => negb (is_line_terminator c)) s.

Definition item_ok (v : value) : bool :=
  match v with
  | VStr s => text_ok s && all (is_not ",") s
  | _ => false
  end.

Definition field_ok (v : value) : bool :=
  match v with
  | VStr s => text_ok s
  | VArr (item :: items) => forallb item_ok (item :: items)
  | _ => false
  end.

Fixpoint distinct (names : list string) : bool :=
  match names with
  | [] => true
  | n :: rest => negb (existsb (String.eqb n) rest) && distinct rest
  end.

Definition config_ok (v : value) : bool :=
  match v with
  | VObj fields =>
      distinct (keys fields)
      && forallb (fun kv => key_ok (fst kv) && field_ok (snd kv)) fields
  | _ => false
  end.

Definition tables_ok (v : value) : bool :=
  match v with
  | VObj (t :: tables) =>
      distinct (keys (t :: tables))
      && forallb (fun t => name_ok (fst t) && config_ok (snd t)) (t :: tables)
  | _ => false
  end.

Definition toml_ok (d : obj) : bool :=
  distinct (keys d)
  && forallb (fun s => name_ok (fst s) && tables_ok (snd s)) d.

(** While the tables of section [s] are read after the sections [d1]:
    the tables [t1] read so far are in place, the section itself
    appearing with its first table. *)
Definition section_open (d1 : obj) (s : string) (t1 : obj) (r : obj) : Prop :=
  (t1 = [] /\ r = d1) \/ r = (d1 ++ [(s, VObj t1)])%list.

(** The state in which the fields of table [t] of section [s] are read,
    [c] being the fields read so far. *)
Definition in_table (d1 : obj) (s : string) (t1 : obj) (t : string) (c : obj)
  : parser :=
  mkParser (d1 ++ [(s, VObj (t1 ++ [(t, VObj c)]))])%list (Some s) (Some t).





(** A line that, if it is a header the reader recognizes, uses no name
    of a built-in property. *)
Definition plain_line (line : string) : Prop :=
  forall inner s t, tableMatch (trim line) = Some inner ->
                    split "." inner = [s; t] ->
                    inherited s = false /\ inherited t = false.

(** A line that is not a header the reader recognizes. *)
Definition opens_nothing (line : string) : Prop :=
  forall inner, tableMatch (trim line) = Some inner ->
                length (split "." inner) <> 2.

Definition item_text_ok (s : string) : Prop :=
  text_ok s = true /\ all (is_not ",") s = true.

(** *** Merging and removing server entries *)

(** An element of the [incoming] array of [mergeServers].  A field the
    descriptor does not carry reads as [VUndef]. *)
Record server : Type := mkServer {
  name : string;
  command : value;
  args : value;
  type : value
}.

(** [a || b]. *)
Definition or_else (a b : value) : value := if truthy a then a else b.

(** The object literal [serverConfig], with [type] added when truthy. *)
Definition serverConfig (s : server) : obj :=
  let base := [("command", command s); ("args", or_else (args s) (VArr []))] in
  if truthy (type s) then oset base "type" (type s) else base.

Definition mergeServers (existing : obj) (incoming : list server)
    (serverKey : string) : obj :=
  let existingServers :=
    if truthy (prop existing serverKey) && typeof_object (prop existing serverKey)
    then prop existing serverKey
    else VObj [] in
  let merged := oset (entries (VObj existing)) serverKey
                  (VObj (entries existingServers)) in
  fold_left
    (fun merged s => set_nested merged serverKey (name s) (VObj (serverConfig s)))
    incoming merged.

(** The section that [mergeServers] starts from. *)
Definition section_of (existing : obj) (k : string) : obj :=
  entries (if truthy (prop existing k) && typeof_object (prop existing k)
           then prop existing k else VObj []).

Definition add_server (sect : obj) (s : server) : obj :=
  assign sect (name s) (VObj (serverConfig s)).

Definition namesOf (incoming : list server) : list string := map name incoming.

Record removal : Type := mkRemoval {
  updated : obj;
  removed : nat
}.

(** The body of the [for (const name of removeNames)] loop. *)
Definition remove_one (st : obj * nat) (n : string) : obj * nat :=
  let (updatedServers, removed) := st in
  if hasOwn updatedServers n
  then (odelete updatedServers n, S removed)
  else (updatedServers, removed).

Definition removeServers (existing : obj) (removeNames : list string)
    (serverKey : string) : removal :=
  if negb (truthy (prop existing serverKey)
           && typeof_object (prop existing serverKey))
  then mkRemoval existing 0
  else
    let existingServers := prop existing serverKey in
    let (updatedServers, removed) :=
      fold_left remove_one removeNames (entries existingServers, 0) in
    if (removed =? 0)%nat then mkRemoval existing 0
    else
      let updated := entries (VObj existing) in
      if (length (keys updatedServers) =? 0)%nat
      then mkRemoval (odelete updated serverKey) removed
      else mkRemoval (assign updated serverKey (VObj updatedServers)) removed.

(** The invariant on a section key: when the document has it, it holds a
    mapping with at least one entry. *)
Definition stub_free (d : obj) (k : string) : Prop :=
  forall v, oget d k = Some v -> exists sect, v = VObj sect /\ sect <> [].

(** The names a list of names does not mention. *)
Definition unnamed (names : list string) (p : string * value) : bool :=
  negb (existsb (String.eqb (fst p)) names).

End McpConfig.


(* ================================================================= *)
(** ** Node's [path.posix.join] *)

Module NodePath.
Import Str.

(** One step of [normalizeString]: a segment is dropped when empty or a
    single dot, a double dot removes the segment before it (or is kept,
    above the root of a relative path), anything else is appended.  The
    segments are kept newest first. *)
Definition push_segment (allowAboveRoot : bool) (acc : list string)
    (seg : string) : list string :=
  if (seg =? "") || (seg =? ".") then acc
  else if seg =? ".."
  then match acc with
       | top :: below =>
           if top =? ".." then (if allowAboveRoot then seg :: acc else acc)
           else below
       | [] => if allowAboveRoot then [seg] else []
       end
  else seg :: acc.

Definition normalizeString (path : string) (allowAboveRoot : bool) : string :=
  join "/" (rev (fold_left (push_segment allowAboveRoot) (split "/" path) [])).

Definition normalize (path : string) : string :=
  if path =? "" then "."
  else
    let isAbsolute := startsWith path "/" in
    let trailingSeparator := endsWith path "/" in
    let p := normalizeString path (negb isAbsolute) in
    if p =? ""
    then (if isAbsolute then "/" else if trailingSeparator then "./" else ".")
    else
      let p := if trailingSeparator then p ++ "/" else p in
      if isAbsolute then "/" ++ p else p.

Definition posix_join (parts : list string) : string :=
  match filter (fun p => negb (p =? "")) parts with
  | [] => "."
  | used => normalize (join "/" used)
  end.

End NodePath.

(* ================================================================= *)
(** ** Host path resolution ([src/paths.js], lines 1-165, both revisions) *)

Module Paths.

(** What the module reads from [os], [process.env] and [path]. *)
Record os_env : Type := mkEnv {
  os_platform : string;
  homedir : string;
  APPDATA : option string;
  XDG_CONFIG_HOME : option string;
  path_join : list string -> string
}.

Record platformInfo : Type := mkPlatform {
  platform : string;
  isWindows : bool;
  isMac : bool;
  isLinux : bool
}.

Definition getPlatform (e : os_env) : platformInfo :=
  let platform := os_platform e in
  mkPlatform platform (platform =? "win32") (platform =? "darwin")
    (platform =? "linux").

(** [a || b] on a string that may be missing. *)
Definition or_default (a : option string) (b : string) : string :=
  match a with
  | Some s => if s =? "" then b else s
  | None => b
  end.

Definition getAppSupportDir (e : os_env) (platformInfo : platformInfo) : string :=
  if isWindows platformInfo
  then or_default (APPDATA e) (path_join e [homedir e; "AppData"; "Roaming"])
  else if isMac platformInfo
  then path_join e [homedir e; "Library"; "Application Support"]
  else or_default (XDG_CONFIG_HOME e) (path_join e [homedir e; ".config"]).

(** A per-platform entry of [globalPaths]. *)
Record overrides : Type := mkOverrides {
  o_skillsFolder : option string;
  o_mcpConfigFile : option string
}.

Record global_paths : Type := mkGlobalPaths {
  Win : option overrides;
  macOS : option overrides
}.

(** An element of [ideConfigs] / [hostConfigs]. *)
Record host : Type := mkHost {
  id : string;
  displayName : option string;
  skillsFolder : option string;
  mcpConfigFile : option string;
  mcpServerKey : option string;
  globalPaths : option global_paths
}.

Record resolved : Type := mkResolved {
  name : option string;
  mcpConfig : string;
  localMcpConfig : string;
  r_mcpServerKey : option string;
  skillsDir : string;
  localSkillsDir : string
}.

(** The object [paths], keyed by host id. *)
Definition table := list (string * resolved).

(** [platformInfo.isWindows ? 'Win' : platformInfo.isMac ? 'macOS' : null],
    followed through [ide.globalPaths[platformKey]]. *)
Definition platform_overrides (platformInfo : platformInfo) (g : global_paths)
  : option overrides :=
  if isWindows platformInfo then Win g
  else if isMac platformInfo then macOS g
  else None.

(** The body of the loop of [getIdePaths]. *)
Definition ide_paths (e : os_env) (projectRoot : string)
    (platformInfo : platformInfo) (ide : host) : resolved :=
  let home := homedir e in
  let appSupport := getAppSupportDir e platformInfo in
  let skillsFolder := or_default (skillsFolder ide) ("." ++ id ide ++ "/skills") in
  let mcpConfigFile := or_default (mcpConfigFile ide) ("." ++ id ide ++ "/mcp.json") in
  let globalOverrides :=
    match globalPaths ide with
    | Some g => platform_overrides platformInfo g
    | None => None
    end in
  let globalSkillsFolder :=
    match globalOverrides with
    | Some o => or_default (o_skillsFolder o) skillsFolder
    | None => skillsFolder
    end in
  let globalMcpConfigFile :=
    match globalOverrides with
    | Some o => or_default (o_mcpConfigFile o) mcpConfigFile
    | None => mcpConfigFile
    end in
  let useAppSupport :=
    match globalPaths ide with
    | Some _ => isWindows platformInfo || isMac platformInfo
    | None => false
    end in
  let globalBase := if useAppSupport then appSupport else home in
  mkResolved (displayName ide)
    (path_join e [globalBase; globalMcpConfigFile])
    (path_join e [projectRoot; mcpConfigFile])
    (mcpServerKey ide)
    (path_join e [globalBase; globalSkillsFolder])
    (path_join e [projectRoot; skillsFolder]).

Definition getIdePaths (e : os_env) (projectRoot : string)
    (platformInfo : platformInfo) (ideConfigs : list host) : table :=
  fold_left (fun paths ide => Js.oset paths (id ide)
                                (ide_paths e projectRoot platformInfo ide))
    ideConfigs [].

(** The body of the loop of [getHostApplicationPaths]. *)
Definition host_paths (e : os_env) (projectRoot : string) (h : host) : resolved :=
  let home := homedir e in
  let skillsFolder := or_default (skillsFolder h) ("." ++ id h ++ "/skills") in
  let mcpConfigFile := or_default (mcpConfigFile h) ("." ++ id h ++ "/mcp.json") in
  mkResolved (displayName h)
    (path_join e [home; mcpConfigFile])
    (path_join e [projectRoot; mcpConfigFile])
    (mcpServerKey h)
    (path_join e [home; skillsFolder])
    (path_join e [projectRoot; skillsFolder]).

Definition getHostApplicationPaths (e : os_env) (projectRoot : string)
    (platformInfo : platformInfo) (hostConfigs : list host) : table :=
  fold_left (fun paths h => Js.oset paths (id h) (host_paths e projectRoot h))
    hostConfigs [].

Definition getMcpRepoDir (e : os_env) (scope projectRoot : string)
    (platformInfo : platformInfo) (mcpName : string) : string :=
  if scope =? "local"
  then path_join e [projectRoot; ".a11y-devkit"; "mcp-repos"; mcpName]
  else path_join e [getAppSupportDir e platformInfo; "a11y-devkit";
                    "mcp-repos"; mcpName].

End Paths.

(* ================================================================= *)
(** ** Effects: file system, child processes, prompts and the console *)

Module Effects.

(** A JavaScript [Error], by its message. *)
Record error : Type := Error { message : string }.

(** The options object handed to [spawn], after the spreads. *)
Record spawn_options : Type := mkOptions {
  stdio : string;
  shell : bool;
  cwd : option string
}.

(** The [options] argument of [run]: the fields a caller may set. *)
Record run_options : Type := mkRunOptions {
  set_shell : option bool;
  set_cwd : option string
}.

Definition no_options : run_options := mkRunOptions None None.

(** [{ stdio, shell, ...options }]. *)
Definition spread_options (stdio : string) (shell : bool) (o : run_options)
  : spawn_options :=
  mkOptions stdio
    (match set_shell o with Some b => b | None => shell end)
    (set_cwd o).

(** How a spawned child ends: a [close] event with the exit code ([None]
    for [null]) and what it wrote, or an [error] event. *)
Inductive child : Type :=
| Closed (code : option nat) (stdout stderr : string)
| Errored (err : error).

(** The outcome of the confirm prompt. *)
Inductive answer : Type :=
| Answered (overwrite : bool)
| Cancelled.

Inductive action : Type -> Type :=
| Access (target : string) : action bool
| Spawn (command : string) (args : list string) (options : spawn_options)
    : action child
| Rm (target : string) : action (option error)
| Confirm (message : string) : action answer
| Warn (msg : string) : action unit
| ConsoleError (msg : string) : action unit.

(** An asynchronous computation: it returns, throws, or performs an action
    and goes on with its answer. *)
Inductive prog (A : Type) : Type :=
| Ret (a : A)
| Throw (e : error)
| Act {X : Type} (a : action X) (k : X -> prog A).

Arguments Ret {A} a.
Arguments Throw {A} e.
Arguments Act {A X} a k.

Fixpoint bind {A B : Type} (p : prog A) (f : A -> prog B) : prog B :=
  match p with
  | Ret a => f a
  | Throw e => Throw e
  | Act a k => Act a (fun x => bind (k x) f)
  end.

(** [try { p } catch (err) { h err }]. *)
Fixpoint catch {A : Type} (p : prog A) (h : error -> prog A) : prog A :=
  match p with
  | Ret a => Ret a
  | Throw e => h e
  | Act a k => Act a (fun x => catch (k x) h)
  end.

Definition perform {X : Type} (a : action X) : prog X := Act a Ret.

Declare Scope prog_scope.
Delimit Scope prog_scope with prog.
Notation "x <- p ;; q" := (bind p (fun x => q))
  (at level 61, p at next level, right associativity) : prog_scope.
Notation "p ;; q" := (bind p (fun _ => q))
  (at level 61, right associativity) : prog_scope.

(** What the outside world answers.  [access] only looks; spawning a
    child, removing a tree and prompting may change the world. *)
Record world : Type := mkWorld {
  state : Type;
  access : state -> string -> bool;
  spawn : state -> string -> list string -> spawn_options -> child * state;
  rm : state -> string -> option error * state;
  confirm : state -> string -> answer * state
}.

(** One entry of the log of an execution: the action and its answer. *)
Inductive event : Type :=
| EAccess (target : string) (found : bool)
| ESpawn (command : string) (args : list string) (options : spawn_options)
    (ended : child)
| ERm (target : string) (failure : option error)
| EConfirm (message : string) (reply : answer)
| EWarn (msg : string)
| EConsoleError (msg : string).

Inductive result (A : Type) : Type :=
| Returned (a : A)
| Threw (e : error).

Arguments Returned {A} a.
Arguments Threw {A} e.

Definition answer_to (wd : world) {X : Type} (a : action X) (w : state wd)
  : X * state wd * event :=
  match a in action X return X * state wd * event with
  | Access target => (access wd w target, w, EAccess target (access wd w target))
  | Spawn command args options =>
      let (c, w') := spawn wd w command args options in
      (c, w', ESpawn command args options c)
  | Rm target =>
      let (r, w') := rm wd w target in (r, w', ERm target r)
  | Confirm msg =>
      let (r, w') := confirm wd w msg in (r, w', EConfirm msg r)
  | Warn msg => (tt, w, EWarn msg)
  | ConsoleError msg => (tt, w, EConsoleError msg)
  end.

(** Running a computation in a world: the final state, the log and the
    outcome. *)
Fixpoint exec (wd : world) {A : Type} (p : prog A) (w : state wd)
  : state wd * list event * result A :=
  match p with
  | Ret a => (w, [], Returned a)
  | Throw e => (w, [], Threw e)
  | Act a k =>
      let '(x, w1, ev) := answer_to wd a w in
      let '(w2, log, r) := exec wd (k x) w1 in
      (w2, ev :: log, r)
  end.

(** [`${code}`] for an exit code. *)
Definition code_text (code : option nat) : string :=
  match code with
  | Some n => NilZero.string_of_uint (Nat.to_uint n)
  | None => "null"
  end.

(** [s.toLowerCase()] on the code units below U+0100. *)
Definition lower (c : ascii) : ascii :=
  let n := nat_of_ascii c in
  if ((65 <=? n) && (n <=? 90)
      || (192 <=? n) && (n <=? 222) && negb (n =? 215))%nat
  then ascii_of_nat (n + 32) else c.

Fixpoint toLowerCase (s : string) : string :=
  match s with
  | EmptyString => ""
  | String c rest => String (lower c) (toLowerCase rest)
  end.

(** [s.includes(t)]. *)
Fixpoint includes (s t : string) : bool :=
  if String.prefix t s then true
  else match s with
       | EmptyString => false
       | String _ rest => includes rest t
       end.

End Effects.

(* ================================================================= *)
(** ** Clone or update of a repository ([src/installers/repo.js]) *)

Module Repo.
Import Effects.
Local Open Scope prog_scope.

Section WithPath.
Variable path_join : list string -> string.

Definition pathExists (target : string) : prog bool :=
  perform (Access target).

Definition run (command : string) (args : list string) (options : run_options)
  : prog unit :=
  c <- perform (Spawn command args (spread_options "inherit" false options)) ;;
  match c with
  | Errored err => Throw err
  | Closed code _ _ =>
      if match code with Some 0 => true | _ => false end
      then Ret tt
      else Throw (Error (command ++ " " ++ Str.join " " args
                         ++ " failed with code " ++ code_text code))
  end.

Record ensured : Type := mkEnsured {
  action_taken : string;
  dir_of : string
}.

Definition ensureRepo (url dir : string) : prog ensured :=
  hasDir <- pathExists dir ;;
  let gitDir := path_join [dir; ".git"] in
  if (hasDir : bool)
  then
    isGitRepo <- pathExists gitDir ;;
    if negb isGitRepo
    then Throw (Error ("Target exists but is not a git repo: " ++ dir))
    else
      run "git" ["-C"; dir; "pull"; "--ff-only"] no_options ;;
      Ret (mkEnsured "updated" dir)
  else
    run "git" ["clone"; "--depth"; "1"; url; dir] no_options ;;
    Ret (mkEnsured "cloned" dir).

(** [buildMcp]: the commands one after the other, the first failure
    ending the sequence. *)
Fixpoint run_each (dir : string) (buildCommands : list string) : prog unit :=
  match buildCommands with
  | [] => Ret tt
  | command :: rest =>
      let parts := Str.split " " command in
      run (hd "" parts) (tl parts) (mkRunOptions (Some true) (Some dir)) ;;
      run_each dir rest
  end.

Definition buildMcp (dir : string) (buildCommands : option (list string))
  : prog unit :=
  match buildCommands with
  | None | Some [] => Ret tt
  | Some commands => run_each dir commands
  end.

End WithPath.
End Repo.

(* ================================================================= *)
(** ** Clone and build of an MCP repository ([src/paths.js], lines 403-611) *)

Module GitMcp.
Import Effects.
Local Open Scope prog_scope.

Definition pathExists (target : string) : prog bool :=
  perform (Access target).

Record output : Type := mkOutput {
  out_stdout : string;
  out_stderr : string
}.

Definition run (command : string) (args : list string) (options : run_options)
  : prog output :=
  c <- perform (Spawn command args (spread_options "pipe" true options)) ;;
  match c with
  | Errored err => Throw err
  | Closed code stdout stderr =>
      if match code with Some 0 => true | _ => false end
      then Ret (mkOutput stdout stderr)
      else Throw (Error (command ++ " " ++ Str.join " " args
                         ++ " failed with code " ++ code_text code
                         ++ ": " ++ stderr))
  end.

Record outcome : Type := mkOutcome {
  success : bool;
  stdout : string;
  stderr : string
}.

(** The [catch] block of [cloneGitRepo]. *)
Definition clone_failure (repoUrl : string) (err : error) : error :=
  let errorMessage := toLowerCase (message err) in
  if includes errorMessage "authentication"
     || includes errorMessage "fatal: could not read"
  then Error ("Authentication required for " ++ repoUrl
              ++ ". Please ensure the repository is public or configure Git credentials.")
  else if includes errorMessage "repository not found"
          || includes errorMessage "not found"
  then Error ("Repository not found: " ++ repoUrl
              ++ ". Please verify the URL is correct.")
  else if includes errorMessage "git: command not found"
          || includes errorMessage "'git' is not recognized"
  then Error "Git is not installed. Please install Git and try again."
  else Error ("Failed to clone repository: " ++ message err).

Definition cloneGitRepo (repoUrl targetDir : string) : prog outcome :=
  catch
    (result <- run "git" ["clone"; repoUrl; targetDir] no_options ;;
     Ret (mkOutcome true (out_stdout result) (out_stderr result)))
    (fun err => Throw (clone_failure repoUrl err)).

(** The errors [run] rejects with carry no [stdout] or [stderr] of their
    own, so the [catch] block reports an empty [stdout] and the message. *)
Definition buildGitRepo (repoDir buildCommand : string) : prog outcome :=
  catch
    (result <- run buildCommand [] (mkRunOptions None (Some repoDir)) ;;
     Ret (mkOutcome true (out_stdout result) (out_stderr result)))
    (fun err => Ret (mkOutcome false "" (message err))).

Definition cleanupGitRepo (repoPath : string) : prog unit :=
  found <- pathExists repoPath ;;
  if (found : bool)
  then
    failure <- perform (Rm repoPath) ;;
    match failure with
    | Some err => Throw err
    | None => Ret tt
    end
  else Ret tt.

(** The [mcpConfig] argument of [installGitMcp]. *)
Record mcp_config : Type := mkMcpConfig {
  name : string;
  repoUrl : string;
  type : Js.value;
  command : Js.value;
  args : Js.value;
  buildCommand : string
}.

(** The server object [installGitMcp] returns. *)
Record descriptor : Type := mkDescriptor {
  d_name : string;
  d_type : Js.value;
  d_command : Js.value;
  d_args : Js.value;
  d_repoPath : string
}.

(** The child did not close with exit code 0. *)
Definition child_failed (c : child) : bool :=
  match c with
  | Closed (Some 0) _ _ => false
  | _ => true
  end.

Definition build_warning : string :=
  "Build command failed but continuing with installation".

(** The block "Check for existing MCP with same name". *)
Definition check_existing (name repoPath : string) : prog unit :=
  exists_already <- pathExists repoPath ;;
  if (exists_already : bool)
  then
    perform (Warn ("MCP server '" ++ name ++ "' already exists at " ++ repoPath)) ;;
    overwriteResponse <- perform (Confirm "Overwrite existing installation?") ;;
    match overwriteResponse with
    | Cancelled => Throw (Error "Installation cancelled by user")
    | Answered false =>
        Throw (Error "Installation cancelled - existing MCP not overwritten")
    | Answered true => cleanupGitRepo repoPath
    end
  else Ret tt.

(** The block that follows "Run build command (continue with warning if
    fails)". *)
Definition report_build (buildResult : outcome) : prog unit :=
  if negb (success buildResult)
  then
    perform (Warn build_warning) ;;
    if negb (stderr buildResult =? "")
    then
      perform (ConsoleError "Build error output:") ;;
      perform (ConsoleError (stderr buildResult))
    else Ret tt
  else Ret tt.

Definition installGitMcp (mcpConfig : mcp_config)
    (repoScope projectRoot : string) (platformInfo : Paths.platformInfo)
    (getMcpRepoDir : string -> string -> Paths.platformInfo -> string -> string)
  : prog descriptor :=
  let repoPath :=
    getMcpRepoDir repoScope projectRoot platformInfo (name mcpConfig) in
  check_existing (name mcpConfig) repoPath ;;
  cloneGitRepo (repoUrl mcpConfig) repoPath ;;
  buildResult <- buildGitRepo repoPath (buildCommand mcpConfig) ;;
  report_build buildResult ;;
  Ret (mkDescriptor (name mcpConfig) (type mcpConfig) (command mcpConfig)
         (args mcpConfig) repoPath).

(** Whether a log entry records a spawned child. *)
Definition is_spawn (ev : event) : bool :=
  match ev with
  | ESpawn _ _ _ _ => true
  | _ => false
  end.

End GitMcp.

(* ================================================================= *)
(** ** [mergeServers] and [removeServers] on a store of mutable objects

    The functions above read a document as the tree of its values.  To
    speak about which objects a call writes to, the same two functions
    are read here over a store: an object is a cell of the store, a
    property holds a primitive or a reference to a cell, and every object
    literal, spread and [[]] allocates a new cell. *)

Module Heap.
Import Js.

Definition loc := nat.

Inductive hval : Type :=
| HUndef
| HNull
| HBool (b : bool)
| HNum (repr : string)
| HStr (s : string)
| HRef (l : loc).

(** A cell: an array or a plain object, with its own properties (the
    elements of an array under their indices). *)
Record cell : Type := mkCell {
  is_array : bool;
  props : list (string * hval)
}.

Definition heap := list cell.

Definition truthy (v : hval) : bool :=
  match v with
  | HUndef | HNull => false
  | HBool b => b
  | HNum r => negb ((r =? "0") || (r =? "NaN"))
  | HStr s => negb (s =? "")
  | HRef _ => true
  end.

Definition typeof_object (v : hval) : bool :=
  match v with
  | HNull | HRef _ => true
  | _ => false
  end.

(** The own properties of what [v] refers to. *)
Definition own (h : heap) (v : hval) : list (string * hval) :=
  match v with
  | HRef l => match nth_error h l with Some c => props c | None => [] end
  | _ => []
  end.

Fixpoint update (h : heap) (l : loc) (f : cell -> cell) : heap :=
  match h, l with
  | [], _ => []
  | c :: rest, 0 => f c :: rest
  | c :: rest, S l' => c :: update rest l' f
  end.

(** A step that may read and write the store. *)
Definition M (A : Type) : Type := heap -> A * heap.

Definition ret {A : Type} (a : A) : M A := fun h => (a, h).

Definition bind {A B : Type} (m : M A) (f : A -> M B) : M B :=
  fun h => let (a, h') := m h in f a h'.

Declare Scope heap_scope.
Delimit Scope heap_scope with heap.
Notation "x <- p ;; q" := (bind p (fun x => q))
  (at level 61, p at next level, right associativity) : heap_scope.
Notation "p ;; q" := (bind p (fun _ => q))
  (at level 61, right associativity) : heap_scope.
Local Open Scope heap_scope.

(** [v[k]]. *)
Definition get_prop (v : hval) (k : string) : M hval :=
  fun h => (match oget (own h v) k with Some x => x | None => HUndef end, h).

(** An object literal [{ ... }] with the given properties. *)
Definition new_object (ps : list (string * hval)) : M hval :=
  fun h => (HRef (length h), (h ++ [mkCell false ps])%list).

(** An array literal [[]]. *)
Definition new_array : M hval :=
  fun h => (HRef (length h), (h ++ [mkCell true []])%list).

(** [{ ...v }]. *)
Definition copy_of (v : hval) : M hval :=
  fun h => new_object (own h v) h.

Definition write (v : hval) (f : list (string * hval) -> list (string * hval))
  : M unit :=
  fun h => (tt, match v with
                | HRef l => update h l (fun c => mkCell (is_array c) (f (props c)))
                | _ => h
                end).

(** The property [k: x] of an object literal, or [v[k] = x] for a name
    [k] that is known not to be [__proto__]. *)
Definition set_prop (v : hval) (k : string) (x : hval) : M unit :=
  write v (fun ps => oset ps k x).

(** [v[k] = x] as an assignment. *)
Definition assign_prop (v : hval) (k : string) (x : hval) : M unit :=
  write v (fun ps => assign ps k x).

(** [delete v[k]]. *)
Definition delete_prop (v : hval) (k : string) : M unit :=
  write v (fun ps => odelete ps k).

(** [Object.prototype.hasOwnProperty.call(v, k)]. *)
Definition has_own (v : hval) (k : string) : M bool :=
  fun h => (hasOwn (own h v) k, h).

(** [Object.keys(v).length]. *)
Definition count_keys (v : hval) : M nat :=
  fun h => (length (own h v), h).

Fixpoint for_each {A : Type} (items : list A) (body : A -> M unit) : M unit :=
  match items with
  | [] => ret tt
  | x :: rest => body x ;; for_each rest body
  end.

(** An element of [incoming], by what its four properties hold. *)
Record server : Type := mkServer {
  name : string;
  command : hval;
  args : hval;
  type : hval
}.

(** The body of the [for (const server of incoming)] loop. *)
Definition merge_one (merged : hval) (serverKey : string) (server : server)
  : M unit :=
  serverConfig <- new_object [("command", command server)] ;;
  given <- (if truthy (args server) then ret (args server) else new_array) ;;
  set_prop serverConfig "args" given ;;
  (if truthy (type server)
   then set_prop serverConfig "type" (type server)
   else ret tt) ;;
  target <- get_prop merged serverKey ;;
  assign_prop target (name server) serverConfig.

(** [existing] is the cell of the document. *)
Definition mergeServers (existing : loc) (incoming : list server)
    (serverKey : string) : M hval :=
  section <- get_prop (HRef existing) serverKey ;;
  existingServers <- (if truthy section && typeof_object section
                      then ret section else new_object []) ;;
  merged <- copy_of (HRef existing) ;;
  copied <- copy_of existingServers ;;
  set_prop merged serverKey copied ;;
  for_each incoming (merge_one merged serverKey) ;;
  ret merged.

Fixpoint remove_each (updatedServers : hval) (removeNames : list string)
    (removed : nat) : M nat :=
  match removeNames with
  | [] => ret removed
  | n :: rest =>
      found <- has_own updatedServers n ;;
      if (found : bool)
      then delete_prop updatedServers n ;;
           remove_each updatedServers rest (S removed)
      else remove_each updatedServers rest removed
  end.

Definition removeServers (existing : loc) (removeNames : list string)
    (serverKey : string) : M (hval * nat) :=
  section <- get_prop (HRef existing) serverKey ;;
  if negb (truthy section && typeof_object section)
  then ret (HRef existing, 0)
  else
    updatedServers <- copy_of section ;;
    removed <- remove_each updatedServers removeNames 0 ;;
    if (removed =? 0)%nat then ret (HRef existing, 0)
    else
      updated <- copy_of (HRef existing) ;;
      remaining <- count_keys updatedServers ;;
      (if (remaining =? 0)%nat
       then delete_prop updated serverKey
       else assign_prop updated serverKey updatedServers) ;;
      ret (updated, removed).

(** The value a store holds at [v], read to the given depth: what
    [JSON.stringify] would show of it. *)
Fixpoint read (depth : nat) (h : heap) (v : hval) : value :=
  match v with
  | HUndef => VUndef
  | HNull => VNull
  | HBool b => VBool b
  | HNum r => VNum r
  | HStr s => VStr s
  | HRef l =>
      match depth with
      | 0 => VUndef
      | S depth' =>
          match nth_error h l with
          | Some c =>
              if is_array c
              then VArr (map (fun p => read depth' h (snd p)) (props c))
              else VObj (map (fun p => (fst p, read depth' h (snd p))) (props c))
          | None => VUndef
          end
      end
  end.

(** No cell of [h] refers outside [h]; [v] does not either. *)
Definition closed (h : heap) : Prop :=
  forall l c k x, nth_error h l = Some c -> In (k, HRef x) (props c) ->
                  x < length h.

Definition within (h : heap) (v : hval) : Prop :=
  forall l, v = HRef l -> l < length h.

(** Every cell of [h] is found again in [h'] with the same content. *)
Definition untouched (h h' : heap) : Prop :=
  forall l, l < length h -> nth_error h' l = nth_error h l.

(** [h'] has everything [h] had, unchanged. *)
Definition extends (h h' : heap) : Prop :=
  length h <= length h' /\ untouched h h'.

(** What holds around the loop of [mergeServers]: the store as it was at
    the call is still there unchanged, and the new document (cell [lm])
    holds the properties [doc] of the old one, except that the section
    key refers to the new section (cell [lc]); both cells were allocated
    after the call. *)
Definition merging (h0 : heap) (lm lc : loc) (k : string)
    (doc : list (string * hval)) (h : heap) : Prop :=
  extends h0 h /\ length h0 <= lm /\ length h0 <= lc /\ lm <> lc
  /\ lm < length h /\ own h (HRef lm) = oset doc k (HRef lc).

(** A value that is no reference, or refers to a cell made after [h0]
    other than [lm]. *)
Definition writable (h0 : heap) (lm : loc) (v : hval) : Prop :=
  forall l, v = HRef l -> length h0 <= l /\ l <> lm.

(** [shows keep h t v]: the store [h] holds the tree [t] at [v], in cells
    that [keep] admits.  An object shows its properties in their order,
    an array its elements under their indices. *)
Fixpoint shows (keep : loc -> bool) (h : heap) (t : value) (v : hval)
    {struct t} : Prop :=
  match t with
  | VUndef => v = HUndef
  | VNull => v = HNull
  | VBool b => v = HBool b
  | VNum r => v = HNum r
  | VStr s => v = HStr s
  | VArr items =>
      exists l ps,
        v = HRef l /\ keep l = true /\ nth_error h l = Some (mkCell true ps)
        /\ (fix each (n : nat) (ts : list value) (xs : list (string * hval))
               {struct ts} : Prop :=
              match ts, xs with
              | [], [] => True
              | t :: ts', (k, x) :: xs' =>
                  k = index_key n /\ shows keep h t x /\ each (S n) ts' xs'
              | _, _ => False
              end) 0 items ps
  | VObj o =>
      exists l ps,
        v = HRef l /\ keep l = true /\ nth_error h l = Some (mkCell false ps)
        /\ (fix each (o : obj) (xs : list (string * hval)) {struct o} : Prop :=
              match o, xs with
              | [], [] => True
              | (k, t) :: o', (k', x) :: xs' =>
                  k' = k /\ shows keep h t x /\ each o' xs'
              | _, _ => False
              end) o ps
  end.

(** Two property lists with the same names, the values related by [R]. *)
Definition alike (R : value -> hval -> Prop) (o : obj)
    (ps : list (string * hval)) : Prop :=
  Forall2 (fun kt kx => fst kx = fst kt /\ R (snd kt) (snd kx)) o ps.

Definition anywhere (l : loc) : bool := true.

(** The cells other than the new document [lm] and its new section [lc]. *)
Definition beside (lm lc : loc) (l : loc) : bool :=
  negb (l =? lm)%nat && negb (l =? lc)%nat.

(** The cells of [h]. *)
Definition inside (h : heap) (l : loc) : bool := (l <? length h)%nat.

(** What [merge_one] puts into the configuration of a server, [given]
    being the array it takes for [args]. *)
Definition config_props (s : server) (given : hval) : list (string * hval) :=
  let base := [("command", command s); ("args", given)] in
  if truthy (type s) then oset base "type" (type s) else base.

(** A server of the store shows a server of the tree reading. *)
Definition shows_server (keep : loc -> bool) (h : heap)
    (t : McpConfig.server) (s : server) : Prop :=
  name s = McpConfig.name t
  /\ shows keep h (McpConfig.command t) (command s)
  /\ shows keep h (McpConfig.args t) (args s)
  /\ shows keep h (McpConfig.type t) (type s).

(** The cells [keep] admits hold in [h'] what they hold in [h]. *)
Definition preserved (keep : loc -> bool) (h h' : heap) : Prop :=
  forall l c, keep l = true -> nth_error h l = Some c -> nth_error h' l = Some c.

(** What holds around the loop of [mergeServers] when the store is read
    as a tree: the store [h0] of the call is still there, the new document
    (cell [lm]) holds [doc], whose section key refers to the new section
    (cell [lc]), and that cell shows the section [sect] in cells other
    than these two. *)
Definition merged_so_far (h0 : heap) (lm lc : loc)
    (doc : list (string * hval)) (k : string) (sect : obj) (h : heap) : Prop :=
  extends h0 h /\ length h0 <= lm /\ length h0 <= lc /\ lm <> lc
  /\ nth_error h lm = Some (mkCell false doc) /\ oget doc k = Some (HRef lc)
  /\ exists pc, nth_error h lc = Some (mkCell false pc)
                /\ alike (shows (beside lm lc) h) sect pc.

(** A step keeps [I] true of the store and returns a value with [Q]. *)
Definition preserves (I : heap -> Prop) {A : Type} (m : M A) (Q : A -> Prop)
  : Prop :=
  forall h, I h -> I (snd (m h)) /\ Q (fst (m h)).

(** [v] refers to a cell allocated after [h]. *)
Definition fresh (h : heap) (v : hval) : Prop :=
  exists l, v = HRef l /\ length h <= l.

End Heap.

(* ================================================================= *)
(** ** A small world to run the installers in *)

Module Sample.
Import Effects.

(** The state is the list of paths that exist.  [git clone] creates its
    target and succeeds, every other command exits with code 1; removal
    succeeds; the prompt is answered with yes. *)
Definition exists_in (w : list string) (p : string) : bool :=
  existsb (String.eqb p) w.

Definition spawn (w : list string) (command : string) (args : list string)
    (o : spawn_options) : child * list string :=
  match command, args with
  | "git", ["clone"; _; dir] => (Closed (Some 0) "" "", dir :: w)
  | _, _ => (Closed (Some 1) "" "build failed", w)
  end.

Definition rm (w : list string) (p : string) : option error * list string :=
  (None, filter (fun q => negb (q =? p)) w).

Definition world : Effects.world :=
  mkWorld (list string) exists_in spawn rm (fun w _ => (Answered true, w)).

Definition mac : Paths.os_env :=
  Paths.mkEnv "darwin" "/Users/dev" None None NodePath.posix_join.

(** A store with one document: a [theme] and a [servers] section with
    one entry. *)
Definition store : Heap.heap :=
  [Heap.mkCell false [("theme", Heap.HStr "dark"); ("servers", Heap.HRef 1)];
   Heap.mkCell false [("wcag", Heap.HRef 2)];
   Heap.mkCell false [("command", Heap.HStr "node")]].

Definition vscode : Paths.host :=
  Paths.mkHost "vscode" (Some "VS Code") None None (Some "servers")
    (Some (Paths.mkGlobalPaths
             (Some (Paths.mkOverrides None (Some "Code/User/mcp.json")))
             (Some (Paths.mkOverrides (Some "Code/User/skills")
                      (Some "Code/User/mcp.json"))))).

Definition wcag : GitMcp.mcp_config :=
  GitMcp.mkMcpConfig "wcag" "https://github.com/joe-watkins/wcag-mcp.git"
    (Js.VStr "stdio") (Js.VStr "node") (Js.VArr [Js.VStr "build/index.js"])
    "npm install && npm run build".

(** One run of [installGitMcp] in a world where nothing exists yet. *)
Definition wcag_run
  : list string * list event * result GitMcp.descriptor :=
  exec world
    (GitMcp.installGitMcp wcag "global" "/work" (Paths.getPlatform mac)
       (Paths.getMcpRepoDir mac))
    [].

End Sample.

(* ================================================================= *)
(** ** Vocabulary of the further properties *)

Module More.
Import Js.

(** An entry that one of [names] names. *)
Definition named (names : list string) (p : string * value) : bool :=
  existsb (String.eqb (fst p)) names.

(** [x[k]] for an object [x], as an object: its entries when it holds an
    object or an array, none otherwise. *)
Definition section (x : obj) (k : string) : obj := entries (prop x k).

(** *** Lines of a TOML file, as the reader sorts them *)


(** A line that is a header the reader recognizes: a bracketed name of
    two dot-separated components. *)
Definition recognized (line : string) : bool :=
  match McpConfig.tableMatch (Str.trim line) with
  | Some inner => (length (Str.split "." inner) =? 2)%nat
  | None => false
  end.

(** [McpConfig.plain_line], decided. *)
Definition plain (line : string) : bool :=
  match McpConfig.tableMatch (Str.trim line) with
  | Some inner =>
      match Str.split "." inner with
      | [s; t] => negb (inherited s) && negb (inherited t)
      | _ => true
      end
  | None => true
  end.







(** *** What the writer prints and the reader makes of it *)





(** What the reader stores for the line of a field: a string as it is,
    the items of an array as strings, an empty array as an array of one
    empty string, an object as the array of the one string its text
    holds between the brackets, and anything else as its text. *)
Definition as_read (v : value) : value :=
  match v with
  | VStr s => VStr s
  | VArr [] => VArr [VStr ""]
  | VArr items => VArr (map (fun x => VStr (to_string x)) items)
  | VObj _ => VArr [VStr "object Object"]
  | _ => VStr (to_string v)
  end.

Definition read_fields (fields : obj) : obj :=
  map (fun kv => (fst kv, as_read (snd kv))) fields.

Definition read_table (cfg : value) : value :=
  match cfg with
  | VObj fields => VObj (read_fields fields)
  | _ => cfg
  end.

Definition read_tables (tables : obj) : obj :=
  map (fun t => (fst t, read_table (snd t))) tables.






(** *** Host configurations *)





(** A path segment that names a directory entry: not empty, no slash, and
    neither [.] nor [..]. *)
Definition segment (n : string) : bool :=
  negb (n =? "") && negb (n =? ".") && negb (n =? "..")
  && Str.all (Str.is_not "/") n.

(** *** Entries of the log of an execution *)

Definition is_rm (ev : Effects.event) : bool :=
  match ev with
  | Effects.ERm _ _ => true
  | _ => false
  end.

(** An entry that records a look at a path or a run of [git]. *)
Definition looks_or_runs_git (ev : Effects.event) : bool :=
  match ev with
  | Effects.EAccess _ _ => true
  | Effects.ESpawn command _ _ _ => command =? "git"
  | _ => false
  end.

Definition exited_ok (c : Effects.child) : bool := negb (GitMcp.child_failed c).

(** The entry [buildMcp] leaves for a command whose child ended as [c]. *)
Definition launch (dir : string) (started : string * Effects.child)
  : Effects.event :=
  let parts := Str.split " " (fst started) in
  Effects.ESpawn (hd "" parts) (tl parts)
    (Effects.mkOptions "inherit" true (Some dir)) (snd started).

Definition commands_of (buildCommands : option (list string)) : list string :=
  match buildCommands with
  | Some commands => commands
  | None => []
  end.

(** How the promise of [GitMcp.run] settles for a child that ended as
    [c]. *)
Definition settled (command : string) (args : list string) (c : Effects.child)
  : Effects.result GitMcp.output :=
  match c with
  | Effects.Errored err => Effects.Threw err
  | Effects.Closed code stdout stderr =>
      if match code with Some 0 => true | _ => false end
      then Effects.Returned (GitMcp.mkOutput stdout stderr)
      else Effects.Threw
             (Effects.Error (command ++ " " ++ Str.join " " args
                             ++ " failed with code " ++ Effects.code_text code
                             ++ ": " ++ stderr))
  end.

Definition is_confirm (ev : Effects.event) : bool :=
  match ev with
  | Effects.EConfirm _ _ => true
  | _ => false
  end.

Definition overwrite_question : string := "Overwrite existing installation?".

End More.

(* ================================================================= *)
(** ** The configuration files ([src/paths.js], lines 165-194, 291-308
       and 367-397)

    [loadJson], [loadToml], [loadConfig], [installMcpConfig] and
    [removeMcpConfig] work on the file system through [fs/promises].  What
    the file system answers is the world's; [path.dirname], [JSON.parse]
    and [JSON.stringify(_, null, 2)] are taken as given. *)

Module ConfigFiles.
Import Js Str McpConfig.
Import Effects (error, Error, message, result, Returned, Threw).

Inductive action : Type -> Type :=
| Access (target : string) : action bool
| ReadFile (path : string) : action (result string)
| CopyFile (src dest : string) : action (option error)
| WriteFile (path data : string) : action (option error)
| Mkdir (path : string) : action (option error).

(** An asynchronous computation over these actions. *)
Inductive prog (A : Type) : Type :=
| Ret (a : A)
| Throw (e : error)
| Act {X : Type} (a : action X) (k : X -> prog A).

Arguments Ret {A} a.
Arguments Throw {A} e.
Arguments Act {A X} a k.

Fixpoint bind {A B : Type} (p : prog A) (f : A -> prog B) : prog B :=
  match p with
  | Ret a => f a
  | Throw e => Throw e
  | Act a k => Act a (fun x => bind (k x) f)
  end.

(** [try { p } catch (error) { h error }]. *)
Fixpoint catch {A : Type} (p : prog A) (h : error -> prog A) : prog A :=
  match p with
  | Ret a => Ret a
  | Throw e => h e
  | Act a k => Act a (fun x => catch (k x) h)
  end.

Definition perform {X : Type} (a : action X) : prog X := Act a Ret.

(** [await] on a promise of nothing that may reject. *)
Definition settle (failure : option error) : prog unit :=
  match failure with
  | Some e => Throw e
  | None => Ret tt
  end.

(** [await] on a promise of a value that may reject, or a call that may
    throw. *)
Definition unwrap {A : Type} (r : result A) : prog A :=
  match r with
  | Returned a => Ret a
  | Threw e => Throw e
  end.

Declare Scope files_scope.
Delimit Scope files_scope with files.
Notation "x <- p ;; q" := (bind p (fun x => q))
  (at level 61, p at next level, right associativity) : files_scope.
Notation "p ;; q" := (bind p (fun _ => q))
  (at level 61, right associativity) : files_scope.
Local Open Scope files_scope.

(** What the file system answers.  Looking at a path and reading a file
    leave it as it is. *)
Record world : Type := mkWorld {
  state : Type;
  access : state -> string -> bool;
  readFile : state -> string -> result string;
  copyFile : state -> string -> string -> option error * state;
  writeFile : state -> string -> string -> option error * state;
  mkdir : state -> string -> option error * state
}.

Inductive event : Type :=
| EAccess (target : string) (found : bool)
| ERead (path : string) (content : result string)
| ECopy (src dest : string) (failure : option error)
| EWrite (path data : string) (failure : option error)
| EMkdir (path : string) (failure : option error).

Definition answer_to (wd : world) {X : Type} (a : action X) (w : state wd)
  : X * state wd * event :=
  match a in action X return X * state wd * event with
  | Access target => (access wd w target, w, EAccess target (access wd w target))
  | ReadFile path => (readFile wd w path, w, ERead path (readFile wd w path))
  | CopyFile src dest =>
      let (r, w') := copyFile wd w src dest in (r, w', ECopy src dest r)
  | WriteFile path data =>
      let (r, w') := writeFile wd w path data in (r, w', EWrite path data r)
  | Mkdir path =>
      let (r, w') := mkdir wd w path in (r, w', EMkdir path r)
  end.

Fixpoint exec (wd : world) {A : Type} (p : prog A) (w : state wd)
  : state wd * list event * result A :=
  match p with
  | Ret a => (w, [], Returned a)
  | Throw e => (w, [], Threw e)
  | Act a k =>
      let '(x, w1, ev) := answer_to wd a w in
      let '(w2, log, r) := exec wd (k x) w1 in
      (w2, ev :: log, r)
  end.

(** [{...v}] for what [JSON.parse] may return: the characters of a string
    under their indices, the entries of an array or an object, nothing for
    a number, a boolean or [null]. *)
Definition spread (v : value) : obj :=
  match v with
  | VStr s =>
      indexed_from 0 (map (fun c => VStr (String c "")) (list_ascii_of_string s))
  | _ => entries v
  end.

(** The [TypeError] of a property read on [null] or [undefined]. *)
Definition cannot_read (v : value) (k : string) : error :=
  Error ("Cannot read properties of " ++ to_string v
         ++ " (reading '" ++ k ++ "')").

Record report : Type := mkReport {
  removed_count : nat;
  changed : bool
}.

Section WithPlatform.
Variable dirname : string -> string.
Variable JSON_parse : string -> result value.
Variable JSON_stringify : value -> string.

Definition pathExists (target : string) : prog bool :=
  perform (Access target).

Definition isTomlFile (filePath : string) : bool := endsWith filePath ".toml".

(** The [catch] block of [loadJson] and of [loadToml]. *)
Definition back_up (filePath : string) : prog value :=
  let backupPath := filePath ++ ".bak" in
  failure <- perform (CopyFile filePath backupPath) ;;
  settle failure ;;
  Ret (VObj []).

Definition loadJson (filePath : string) : prog value :=
  found <- pathExists filePath ;;
  if negb found then Ret (VObj [])
  else
    catch
      (content <- perform (ReadFile filePath) ;;
       raw <- unwrap content ;;
       if negb (trim raw =? "") then unwrap (JSON_parse raw) else Ret (VObj []))
      (fun _ => back_up filePath).

Definition loadToml (filePath : string) : prog value :=
  found <- pathExists filePath ;;
  if negb found then Ret (VObj [])
  else
    catch
      (content <- perform (ReadFile filePath) ;;
       raw <- unwrap content ;;
       if negb (trim raw =? "") then Ret (VObj (parseSimpleToml raw))
       else Ret (VObj []))
      (fun _ => back_up filePath).

Definition loadConfig (filePath : string) : prog value :=
  if isTomlFile filePath then loadToml filePath else loadJson filePath.

(** [mergeServers] and [removeServers] on what [loadConfig] returned:
    the first thing either does is to read [existing[serverKey]]. *)
Definition merge_loaded (existing : value) (servers : list server)
    (serverKey : string) : prog obj :=
  match existing with
  | VUndef | VNull => Throw (cannot_read existing serverKey)
  | _ => Ret (mergeServers (spread existing) servers serverKey)
  end.

Definition remove_loaded (existing : value) (serverNames : list string)
    (serverKey : string) : prog removal :=
  match existing with
  | VUndef | VNull => Throw (cannot_read existing serverKey)
  | _ => Ret (removeServers (spread existing) serverNames serverKey)
  end.

(** The text written for a configuration. *)
Definition render (configPath : string) (updated : obj) : string :=
  if isTomlFile configPath
  then stringifySimpleToml updated
  else JSON_stringify (VObj updated) ++ newline.

Definition save (configPath : string) (updated : obj) : prog unit :=
  failure <- perform (WriteFile configPath (render configPath updated)) ;;
  settle failure.

Definition installMcpConfig (configPath : string) (servers : list server)
    (serverKey : string) : prog unit :=
  made <- perform (Mkdir (dirname configPath)) ;;
  settle made ;;
  existing <- loadConfig configPath ;;
  updated <- merge_loaded existing servers serverKey ;;
  save configPath updated.

Definition removeMcpConfig (configPath : string) (serverNames : list string)
    (serverKey : string) : prog report :=
  found <- pathExists configPath ;;
  if negb found then Ret (mkReport 0 false)
  else
    existing <- loadConfig configPath ;;
    r <- remove_loaded existing serverNames serverKey ;;
    if (removed r =? 0)%nat then Ret (mkReport 0 false)
    else
      save configPath (updated r) ;;
      Ret (mkReport (removed r) true).

(** What a file holds as a configuration: what [JSON.parse] or the TOML
    reader makes of its text. *)
Definition parse_config (filePath raw : string) : result value :=
  if isTomlFile filePath then Returned (VObj (parseSimpleToml raw))
  else JSON_parse raw.

(** What a file that was found holds as a configuration, from the
    outcome of reading it: the empty configuration for a blank file, what
    its text parses to, or nothing when it cannot be read or parsed. *)
Definition held (filePath : string) (content : result string) : option value :=
  match content with
  | Threw _ => None
  | Returned raw =>
      if trim raw =? "" then Some (VObj [])
      else match parse_config filePath raw with
           | Returned v => Some v
           | Threw _ => None
           end
  end.

End WithPlatform.

(** The configuration a load finds at [filePath] in the state [w]: the
    empty one when the file is missing or holds none. *)
Definition found_config (JSON_parse : string -> result value)
    (wd : world) (w : state wd) (filePath : string) : value :=
  if access wd w filePath
  then match held JSON_parse filePath (readFile wd w filePath) with
       | Some v => v
       | None => VObj []
       end
  else VObj [].


Definition is_write (ev : event) : bool :=
  match ev with
  | EWrite _ _ _ => true
  | _ => false
  end.

Definition is_copy (ev : event) : bool :=
  match ev with
  | ECopy _ _ _ => true
  | _ => false
  end.

(** The run of the [catch] block of a loader after the events [seen]:
    the copy to [.bak], whose failure is the failure of the load. *)
Definition backed_up (wd : world) (w : state wd) (filePath : string)
    (seen : list event) : state wd * list event * result value :=
  let (failure, w1) := copyFile wd w filePath (filePath ++ ".bak") in
  (w1, (seen ++ [ECopy filePath (filePath ++ ".bak") failure])%list,
   match failure with
   | Some e => Threw e
   | None => Returned (VObj [])
   end).


(** A file system in memory: the files by their paths.  Directories are
    not kept, every write succeeds, and reading or copying a file that is
    not there fails. *)
Module Disk.

Definition files := list (string * string).

Definition no_entry (path : string) : error :=
  Error ("ENOENT: no such file or directory, open '" ++ path ++ "'").

Definition read (fs : files) (path : string) : result string :=
  match oget fs path with
  | Some content => Returned content
  | None => Threw (no_entry path)
  end.

Definition copy (fs : files) (src dest : string) : option error * files :=
  match oget fs src with
  | Some content => (None, oset fs dest content)
  | None => (Some (no_entry src), fs)
  end.

Definition world : ConfigFiles.world :=
  mkWorld files (fun fs path => hasOwn fs path) read copy
    (fun fs path data => (None, oset fs path data))
    (fun fs _ => (None, fs)).

(** A JSON text with one server. *)
Definition one_server : string :=
  "{" ++ quoted "servers" ++ ":{" ++ quoted "wcag" ++ ":{"
  ++ quoted "command" ++ ":" ++ quoted "node" ++ "}}}".

(** A stand-in for [JSON.parse] that knows three texts. *)
Definition parse (raw : string) : result value :=
  if raw =? "null" then Returned VNull
  else if raw =? "{}" then Returned (VObj [])
  else if raw =? one_server
  then Returned (VObj [("servers",
                        VObj [("wcag", VObj [("command", VStr "node")])])])
  else Threw (Error "Unexpected token").

(** A stand-in for [path.dirname]: the part before the last slash. *)
Definition dir_of (path : string) : string :=
  match before_last "/" path with
  | Some dir => dir
  | None => "."
  end.

(** A stand-in for [JSON.stringify]: the text is not looked at. *)
Definition show (v : value) : string :=
  if same_value v (VObj []) then "{}" else "{...}".

End Disk.

End ConfigFiles.

(* ================================================================= *)
(** ** Further sample inputs *)

Module Cases.
Import Js.

(** A TOML file with settings outside any table, a one-component header
    and no table of two components. *)
Definition settings_only : string :=
  Str.join Str.newline
    ["model = " ++ McpConfig.quoted "o3"; "[profile]"; "name = fast"].


Definition linux : Paths.os_env :=
  Paths.mkEnv "linux" "/home/dev" None None NodePath.posix_join.



Definition wcag_server : McpConfig.server :=
  McpConfig.mkServer "wcag" (VStr "node") (VArr [VStr "index.js"]) VUndef.

Definition wcag_npx : McpConfig.server :=
  McpConfig.mkServer "wcag" (VStr "npx") (VArr [VStr "wcag-mcp"]) (VStr "stdio").

Definition aria_server : McpConfig.server :=
  McpConfig.mkServer "aria" (VStr "node") VUndef VUndef.


Definition two_servers : obj :=
  [("theme", VStr "dark");
   ("servers", VObj [("wcag", VObj [("command", VStr "node")]);
                     ("aria", VObj [("command", VStr "npx")])])].

(** The document [Sample.store] holds at its first cell, and a server to
    merge into it, as a tree and as the store holds it. *)
Definition stored_document : obj :=
  [("theme", VStr "dark");
   ("servers", VObj [("wcag", VObj [("command", VStr "node")])])].

Definition aria_in_store : Heap.server :=
  Heap.mkServer "aria" (Heap.HStr "node") Heap.HUndef Heap.HUndef.

End Cases.
(* ================================================================= *)
(** * Properties *)

(** ** Own-property lemmas *)

Section ObjectFacts.
Import Js.
Context {V : Type}.
Implicit Types (o a b : list (string * V)) (v w : V).

Lemma oget_oset_same o k v : oget (oset o k v) k = Some v.
Proof.
  induction o as [|[k' v'] rest IH]; simpl.
  - now rewrite String.eqb_refl.
  - destruct (k' =? k) eqn:E; simpl.
    + now rewrite String.eqb_refl.
    + now rewrite E.
Qed.

Lemma oget_oset_other o k k' v :
  k' <> k -> oget (oset o k v) k' = oget o k'.
Proof.
  intros Hne. induction o as [|[k0 v0] rest IH]; simpl.
  - destruct (k =? k') eqn:E; [apply String.eqb_eq in E; congruence | reflexivity].
  - destruct (k0 =? k) eqn:E; simpl.
    + apply String.eqb_eq in E; subst k0.
      destruct (k =? k') eqn:E'; [apply String.eqb_eq in E'; congruence | reflexivity].
    + destruct (k0 =? k'); [reflexivity | exact IH].
Qed.

Lemma oset_oset o k v w : oset (oset o k v) k w = oset o k w.
Proof.
  induction o as [|[k' v'] rest IH]; simpl.
  - now rewrite String.eqb_refl.
  - destruct (k' =? k) eqn:E; simpl.
    + now rewrite String.eqb_refl.
    + now rewrite E, IH.
Qed.

Lemma oset_oget_id o k v : oget o k = Some v -> oset o k v = o.
Proof.
  induction o as [|[k' v'] rest IH]; simpl; [discriminate|].
  destruct (k' =? k) eqn:E.
  - apply String.eqb_eq in E. intros [= ->]. now subst.
  - intros H. now rewrite IH.
Qed.

Lemma oset_absent o k v : oget o k = None -> oset o k v = (o ++ [(k, v)])%list.
Proof.
  induction o as [|[k' v'] rest IH]; simpl; [reflexivity|].
  destruct (k' =? k); [discriminate|]. intros H. now rewrite IH.
Qed.

Lemma hasOwn_oget o k : hasOwn o k = false <-> oget o k = None.
Proof.
  induction o as [|[k' v'] rest IH]; simpl; [tauto|].
  destruct (k' =? k); simpl; [split; discriminate | exact IH].
Qed.

Lemma hasOwn_oset o k v : hasOwn (oset o k v) k = true.
Proof.
  destruct (hasOwn (oset o k v) k) eqn:E; [reflexivity|].
  apply hasOwn_oget in E. now rewrite oget_oset_same in E.
Qed.

Lemma odelete_absent o k : oget o k = None -> odelete o k = o.
Proof.
  induction o as [|[k' v'] rest IH]; simpl; [reflexivity|].
  destruct (k' =? k); simpl; [discriminate|]. intros H. now rewrite IH.
Qed.

Lemma odelete_app a b k : odelete (a ++ b)%list k = (odelete a k ++ odelete b k)%list.
Proof. apply filter_app. Qed.

Lemma oget_odelete_same o k : oget (odelete o k) k = None.
Proof.
  induction o as [|[k' v'] rest IH]; simpl; [reflexivity|].
  destruct (k' =? k) eqn:E; simpl; [exact IH | now rewrite E].
Qed.

Lemma oget_odelete_other o k k' :
  k' <> k -> oget (odelete o k) k' = oget o k'.
Proof.
  intros Hne. induction o as [|[k0 v0] rest IH]; simpl; [reflexivity|].
  destruct (k0 =? k) eqn:E; simpl.
  - apply String.eqb_eq in E; subst k0.
    destruct (k =? k') eqn:E'; [apply String.eqb_eq in E'; congruence | exact IH].
  - destruct (k0 =? k'); [reflexivity | exact IH].
Qed.

Lemma odelete_comm o (x y : string) : odelete (odelete o x) y = odelete (odelete o y) x.
Proof.
  unfold odelete. induction o as [|[k v] rest IH]; simpl; [reflexivity|].
  destruct (k =? x) eqn:Ea, (k =? y) eqn:Eb; simpl;
    rewrite ?Ea, ?Eb; simpl; now rewrite IH.
Qed.

Lemma hasOwn_true o k : hasOwn o k = true <-> oget o k <> None.
Proof.
  destruct (hasOwn o k) eqn:E.
  - split; [|reflexivity]. intros _ H. apply hasOwn_oget in H. congruence.
  - split; [discriminate|]. intros H. contradiction H. now apply hasOwn_oget.
Qed.

Lemma assign_own o k v : hasOwn o k = true -> assign o k v = oset o k v.
Proof. unfold assign. intros ->. now rewrite andb_false_r. Qed.

Lemma assign_plain o k v : k <> "__proto__" -> assign o k v = oset o k v.
Proof.
  unfold assign. intros H. apply String.eqb_neq in H. now rewrite H.
Qed.

Lemma assign_cases o k v : assign o k v = o \/ assign o k v = oset o k v.
Proof. unfold assign. destruct (_ && _); auto. Qed.

Lemma oget_assign_other o k k' v :
  k' <> k -> oget (assign o k v) k' = oget o k'.
Proof.
  intros H. destruct (assign_cases o k v) as [-> | ->]; [reflexivity|].
  now apply oget_oset_other.
Qed.

Lemma oget_snoc o k v : oget o k = None -> oget (o ++ [(k, v)]) k = Some v.
Proof.
  induction o as [|[k' v'] rest IH]; simpl.
  - now rewrite String.eqb_refl.
  - destruct (k' =? k); [discriminate | exact IH].
Qed.

Lemma oset_snoc o k v w :
  oget o k = None -> oset (o ++ [(k, v)]) k w = (o ++ [(k, w)])%list.
Proof.
  induction o as [|[k' v'] rest IH]; simpl.
  - now rewrite String.eqb_refl.
  - destruct (k' =? k); [discriminate|]. intros H. now rewrite IH.
Qed.

Lemma oget_absent o k : existsb (String.eqb k) (map fst o) = false -> oget o k = None.
Proof.
  induction o as [|[k' v'] rest IH]; simpl; [reflexivity|].
  rewrite String.eqb_sym. destruct (k' =? k); simpl; [discriminate | exact IH].
Qed.

End ObjectFacts.

Lemma distinct_middle (a : list string) k b :
  McpConfig.distinct (a ++ k :: b) = true -> existsb (String.eqb k) a = false.
Proof.
  induction a as [|x a IH]; simpl; [reflexivity|].
  intros H. apply andb_true_iff in H as [Hx Ha].
  rewrite (IH Ha), orb_false_r.
  apply negb_true_iff in Hx. rewrite existsb_app in Hx.
  apply orb_false_iff in Hx as [_ Hx]. simpl in Hx.
  apply orb_false_iff in Hx as [Hx _]. now rewrite String.eqb_sym.
Qed.

Lemma distinct_absent {V : Type} (a : list (string * V)) k v b :
  McpConfig.distinct (map fst (a ++ (k, v) :: b)) = true -> Js.oget a k = None.
Proof.
  rewrite map_app. simpl. intros H. now apply oget_absent, (distinct_middle _ _ _ H).
Qed.

(** ** Strings *)

Section StringFacts.
Import Str.


Lemma append_assoc (a b c : string) : (a ++ b) ++ c = a ++ (b ++ c).
Proof. induction a as [|x a IH]; simpl; [reflexivity | now rewrite IH]. Qed.

Lemma eqb_cons_nil c (s : string) : (String c s =? "") = false.
Proof. reflexivity. Qed.

Lemma eqb_app_cons_nil (a : string) c (s : string) : (a ++ String c s =? "") = false.
Proof. destruct a; reflexivity. Qed.

Lemma all_app f (a b : string) : all f (a ++ b) = all f a && all f b.
Proof.
  induction a as [|c a IH]; simpl; [reflexivity|].
  now rewrite IH, andb_assoc.
Qed.

Lemma all_impl (f g : ascii -> bool) (s : string) :
  (forall c, f c = true -> g c = true) -> all f s = true -> all g s = true.
Proof.
  intros Hfg. induction s as [|c s IH]; simpl; [reflexivity|].
  intros H. apply andb_true_iff in H as [Hc Hs].
  now rewrite (Hfg c Hc), IH.
Qed.

Lemma last_app_one (a : string) c : last (a ++ String c "") = Some c.
Proof.
  induction a as [|x a IH]; simpl; [reflexivity|].
  rewrite IH. now destruct a.
Qed.

Lemma drop_last_app_one (a : string) c : drop_last (a ++ String c "") = a.
Proof.
  induction a as [|x a IH]; simpl; [reflexivity|].
  rewrite IH. now destruct a.
Qed.

Lemma endsWith_app (a b : string) : endsWith (a ++ b) b = true.
Proof.
  induction a as [|x a IH].
  - destruct b; cbn [append endsWith]; now rewrite String.eqb_refl.
  - cbn [append endsWith]. rewrite IH. now destruct (String x (a ++ b) =? b).
Qed.

Lemma trimEnd_app_one (a : string) c :
  is_space c = false -> trimEnd (a ++ String c "") = a ++ String c "".
Proof.
  intros Hc. induction a as [|x a IH]; simpl.
  - now rewrite Hc.
  - rewrite IH. now destruct a.
Qed.

(** A line that begins and ends with something other than white space
    is its own [trim]. *)
Lemma trim_tight c (a : string) d :
  is_space c = false -> is_space d = false ->
  trim (String c (a ++ String d "")) = String c (a ++ String d "").
Proof.
  intros Hc Hd. unfold trim, trimStart. simpl dropWhile. rewrite Hc.
  change (String c (a ++ String d "")) with (String c a ++ String d "").
  now apply trimEnd_app_one.
Qed.

Lemma takeWhile_stop f (a : string) c (rest : string) :
  all f a = true -> f c = false -> takeWhile f (a ++ String c rest) = a.
Proof.
  intros Ha Hc. induction a as [|x a IH]; simpl in *.
  - now rewrite Hc.
  - apply andb_true_iff in Ha as [Hx Ha]. now rewrite Hx, IH.
Qed.

Lemma dropWhile_stop f (a : string) c (rest : string) :
  all f a = true -> f c = false ->
  dropWhile f (a ++ String c rest) = String c rest.
Proof.
  intros Ha Hc. induction a as [|x a IH]; simpl in *.
  - now rewrite Hc.
  - apply andb_true_iff in Ha as [Hx Ha]. now rewrite Hx, IH.
Qed.

Lemma takeWhile_all f (s : string) : all f s = true -> takeWhile f s = s.
Proof.
  induction s as [|c s IH]; simpl; [reflexivity|].
  intros H. apply andb_true_iff in H as [Hc Hs]. now rewrite Hc, IH.
Qed.

Lemma split_nonempty sep (s : string) : split sep s <> [].
Proof.
  induction s as [|c s IH]; simpl; [discriminate|].
  destruct (Ascii.eqb c sep); [discriminate|].
  destruct (split sep s); discriminate.
Qed.

Lemma split_whole sep (s : string) : all (is_not sep) s = true -> split sep s = [s].
Proof.
  induction s as [|c s IH]; simpl; [reflexivity|].
  unfold is_not at 1. intros H. apply andb_true_iff in H as [Hc Hs].
  apply negb_true_iff in Hc. rewrite Hc, IH by exact Hs. reflexivity.
Qed.

Lemma split_app sep (a b : string) :
  all (is_not sep) a = true ->
  split sep (a ++ String sep b) = a :: split sep b.
Proof.
  induction a as [|c a IH]; simpl.
  - now rewrite Ascii.eqb_refl.
  - unfold is_not at 1. intros H. apply andb_true_iff in H as [Hc Ha].
    apply negb_true_iff in Hc. rewrite Hc, IH by exact Ha. reflexivity.
Qed.

Lemma before_last_app_one c (a : string) : before_last c (a ++ String c "") = Some a.
Proof.
  induction a as [|x a IH]; simpl.
  - now rewrite Ascii.eqb_refl.
  - now rewrite IH.
Qed.

(** Splitting at line feeds what was joined with line feeds gives the
    lines back. *)
Lemma split_join_lines (first : string) (rest : list string) :
  Forall (fun l => all (is_not "010") l = true) (first :: rest) ->
  split "010" (join newline (first :: rest)) = first :: rest.
Proof.
  revert first. induction rest as [|next rest IH]; intros first H.
  - simpl. apply split_whole. now inversion H.
  - inversion H as [|? ? Hfirst Hrest]; subst.
    change (join newline (first :: next :: rest))
      with (first ++ String "010" (join newline (next :: rest))).
    rewrite split_app by exact Hfirst. now rewrite IH.
Qed.

End StringFacts.

(** ** The TOML reader on the lines the writer produces *)

Section TomlLines.
Import Js Str McpConfig.

Lemma word_not_space c : is_word c = true -> is_space c = false.
Proof.
  destruct c as [[] [] [] [] [] [] [] []]; vm_compute; congruence.
Qed.

Lemma word_not_hash c : is_word c = true -> Ascii.eqb c "#" = false.
Proof.
  destruct c as [[] [] [] [] [] [] [] []]; vm_compute; congruence.
Qed.


Lemma startsWith_cons c (s : string) d :
  startsWith (String c s) (String d "") = Ascii.eqb d c.
Proof.
  unfold startsWith. simpl. destruct (ascii_dec d c) as [->|Hne].
  - rewrite Ascii.eqb_refl. now destruct s.
  - apply Ascii.eqb_neq in Hne. now rewrite Hne.
Qed.

Lemma header_line_shape s t :
  header_line s t = String "[" ((s ++ String "." t) ++ String "]" "").
Proof. unfold header_line. simpl. now rewrite append_assoc. Qed.

Lemma name_ok_parts n :
  name_ok n = true ->
  n <> "" /\ all (is_not ".") n = true /\ all (is_not "]") n = true
  /\ all (is_not "010") n = true.
Proof.
  unfold name_ok. intros H. apply andb_true_iff in H as [Hne Hall].
  apply andb_true_iff in Hne as [Hne _].
  split; [intros ->; discriminate|].
  repeat split; revert Hall; apply all_impl; intros c Hc;
    apply andb_true_iff in Hc as [Hc H3]; apply andb_true_iff in Hc as [H1 H2];
    assumption.
Qed.

Lemma name_ok_plain n : name_ok n = true -> inherited n = false /\ n <> "__proto__".
Proof.
  unfold name_ok. intros H. apply andb_true_iff in H as [H _].
  apply andb_true_iff in H as [_ H]. apply negb_true_iff in H.
  split; [exact H|]. intros ->. discriminate.
Qed.

Lemma trim_header s t : trim (header_line s t) = header_line s t.
Proof. rewrite header_line_shape. now apply trim_tight. Qed.

Lemma tableMatch_header s t :
  name_ok s = true -> name_ok t = true ->
  tableMatch (header_line s t) = Some (s ++ String "." t).
Proof.
  intros Hs Ht.
  destruct (name_ok_parts s Hs) as (_ & _ & Hs1 & _).
  destruct (name_ok_parts t Ht) as (_ & _ & Ht1 & _).
  rewrite header_line_shape. unfold tableMatch.
  rewrite drop_last_app_one, endsWith_app, eqb_app_cons_nil.
  rewrite all_app. simpl all. now rewrite Hs1, Ht1.
Qed.

Lemma split_header s t :
  name_ok s = true -> name_ok t = true -> split "." (s ++ String "." t) = [s; t].
Proof.
  intros Hs Ht.
  destruct (name_ok_parts s Hs) as (_ & Hs1 & _).
  destruct (name_ok_parts t Ht) as (_ & Ht1 & _).
  now rewrite split_app, split_whole.
Qed.

Lemma key_ok_parts key :
  key_ok key = true ->
  exists c rest, key = String c rest /\ is_word c = true /\ all is_word key = true.
Proof.
  unfold key_ok. intros H. apply andb_true_iff in H as [Hne Hall].
  destruct key as [|c rest]; [discriminate|].
  exists c, rest. repeat split; [|exact Hall].
  simpl in Hall. now apply andb_true_iff in Hall as [Hc _].
Qed.

Lemma key_ok_plain key : key_ok key = true -> key <> "__proto__".
Proof.
  unfold key_ok. intros H. apply andb_true_iff in H as [H _].
  apply andb_true_iff in H as [_ H]. apply negb_true_iff in H.
  now apply String.eqb_neq.
Qed.

Lemma kv_line_shape key c body d :
  key_ok key = true ->
  exists k0 rest,
    is_word k0 = true
    /\ kv_line key c (body ++ String d "") = String k0 (rest ++ String d "").
Proof.
  intros Hkey. destruct (key_ok_parts key Hkey) as (k0 & krest & -> & Hk0 & _).
  exists k0, (krest ++ String " " (String "=" (String " " (String c body)))).
  split; [exact Hk0|]. unfold kv_line. simpl. now rewrite append_assoc.
Qed.

Lemma trim_kv_line key c body d :
  key_ok key = true -> is_space d = false ->
  trim (kv_line key c (body ++ String d "")) = kv_line key c (body ++ String d "").
Proof.
  intros Hkey Hd. destruct (kv_line_shape key c body d Hkey) as (k0 & rest & Hk0 & ->).
  apply trim_tight; [now apply word_not_space | exact Hd].
Qed.

Lemma kv_line_not_comment key c body d :
  key_ok key = true ->
  (kv_line key c (body ++ String d "") =? "") = false
  /\ startsWith (kv_line key c (body ++ String d "")) "#" = false
  /\ tableMatch (kv_line key c (body ++ String d "")) = None.
Proof.
  intros Hkey. destruct (kv_line_shape key c body d Hkey) as (k0 & rest & Hk0 & ->).
  split; [reflexivity|]. split.
  - rewrite startsWith_cons, Ascii.eqb_sym. now apply word_not_hash.
  - unfold tableMatch.
    destruct k0 as [[] [] [] [] [] [] [] []]; try reflexivity; discriminate.
Qed.

Lemma kvMatch_kv_line key c text :
  key_ok key = true -> is_space c = false -> text_ok (String c text) = true ->
  kvMatch (kv_line key c text) = Some (key, String c text).
Proof.
  intros Hkey Hc Htext.
  destruct (key_ok_parts key Hkey) as (k0 & krest & Ek & _ & Hall).
  unfold kvMatch, kv_line.
  rewrite takeWhile_stop, dropWhile_stop by (exact Hall || reflexivity).
  assert (Hne : (key =? "") = false) by (rewrite Ek; reflexivity).
  rewrite Hne. cbn [dropWhile]. change (is_space " ") with true.
  change (is_space "=") with false. cbv iota.
  unfold kv_value. cbn [dropWhile]. change (is_space " ") with true. cbv iota.
  rewrite Hc. unfold text_ok in Htext. now rewrite Htext.
Qed.

(** What the writer prints for a small document, and what the reader
    makes of a text with comments, blank lines and bare values. *)
Example stringify_sample :
  stringifySimpleToml
    [("mcp_servers",
      VObj [("wcag", VObj [("command", VStr "node");
                           ("args", VArr [VStr "index.js"; VStr "--stdio"])])])]
  = "[mcp_servers.wcag]" ++ newline
    ++ "command = " ++ quoted "node" ++ newline
    ++ "args = [" ++ quoted "index.js" ++ ", " ++ quoted "--stdio" ++ "]" ++ newline.
Proof. reflexivity. Qed.

Example parse_sample :
  parseSimpleToml
    ("# servers" ++ newline ++ newline
     ++ "  [mcp_servers.wcag]  " ++ newline
     ++ "command   =   node" ++ newline
     ++ "[a.b.c]" ++ newline
     ++ "args = [ " ++ quoted "x" ++ " , y ]")
  = [("mcp_servers",
      VObj [("wcag", VObj [("command", VStr "node");
                           ("args", VArr [VStr "x"; VStr "y"])])])].
Proof. reflexivity. Qed.

(** The empty array is written as a pair of brackets and read back
    as an array with one empty item. *)
Example empty_array_read_back :
  parseSimpleToml
    (stringifySimpleToml [("s", VObj [("t", VObj [("args", VArr [])])])])
  = [("s", VObj [("t", VObj [("args", VArr [VStr ""])])])].
Proof. reflexivity. Qed.

Lemma parse_value_string s :
  parse_value (quoted s) = Some (VStr s).
Proof.
  unfold parse_value, quoted, dquote.
  change (String (ascii_of_nat 34) "" ++ s ++ String (ascii_of_nat 34) "")
    with (String (ascii_of_nat 34) s ++ String (ascii_of_nat 34) "").
  rewrite endsWith_app.
  cbn [append]. rewrite !startsWith_cons. cbn [Ascii.eqb ascii_of_nat].
  simpl. now rewrite drop_last_app_one.
Qed.

Lemma trim_quoted s : trim (quoted s) = quoted s.
Proof. unfold quoted, dquote. cbn [append]. now apply trim_tight. Qed.

Lemma parse_item_quoted s : parse_item (quoted s) = s.
Proof.
  unfold parse_item. rewrite trim_quoted. unfold quoted, dquote.
  change (String (ascii_of_nat 34) "" ++ s ++ String (ascii_of_nat 34) "")
    with (String (ascii_of_nat 34) s ++ String (ascii_of_nat 34) "").
  rewrite endsWith_app.
  cbn [append]. rewrite startsWith_cons, Ascii.eqb_refl.
  simpl. now rewrite drop_last_app_one.
Qed.

Lemma parse_item_spaced s : parse_item (String " " (quoted s)) = s.
Proof.
  rewrite <- (parse_item_quoted s) at 2. unfold parse_item.
  replace (trim (String " " (quoted s))) with (trim (quoted s)); [reflexivity|].
  unfold trim, trimStart. cbn [dropWhile]. now change (is_space " ") with true.
Qed.

Lemma items_are_strings (items : list value) :
  forallb item_ok items = true ->
  exists strs, items = map VStr strs /\ Forall item_text_ok strs.
Proof.
  induction items as [|v items IH]; simpl; intros H.
  - now exists [].
  - apply andb_true_iff in H as [Hv Hrest].
    destruct (IH Hrest) as (strs & -> & Hstrs).
    destruct v; try discriminate. apply andb_true_iff in Hv as [H1 H2].
    exists (s :: strs). split; [reflexivity|]. constructor; [now split | exact Hstrs].
Qed.

Lemma quoted_items (strs : list string) :
  map (fun v => dquote ++ to_string v ++ dquote) (map VStr strs) = map quoted strs.
Proof. rewrite map_map. reflexivity. Qed.

Lemma text_ok_app (a b : string) : text_ok (a ++ b) = text_ok a && text_ok b.
Proof. apply all_app. Qed.

Lemma text_ok_quoted s : text_ok s = true -> text_ok (quoted s) = true.
Proof.
  intros H. unfold quoted. rewrite !text_ok_app, H. reflexivity.
Qed.

Lemma no_comma_quoted s :
  all (is_not ",") s = true -> all (is_not ",") (quoted s) = true.
Proof.
  intros H. unfold quoted. rewrite !all_app, H. reflexivity.
Qed.

Lemma join_cons2 sep (a b : string) (rest : list string) :
  join sep (a :: b :: rest) = a ++ sep ++ join sep (b :: rest).
Proof. reflexivity. Qed.

Lemma text_ok_join_quoted (strs : list string) :
  Forall item_text_ok strs -> text_ok (join ", " (map quoted strs)) = true.
Proof.
  induction strs as [|s strs IH]; intros H; [reflexivity|].
  inversion H as [|? ? [Hs _] Hrest]; subst.
  destruct strs as [|s' strs].
  - now apply text_ok_quoted.
  - cbn [map] in *. rewrite join_cons2, !text_ok_app.
    rewrite text_ok_quoted by exact Hs. now rewrite IH.
Qed.

(** Reading back the items of a written array. *)
Lemma parse_items (strs : list string) : forall first sp,
  sp = "" \/ sp = " " ->
  Forall item_text_ok (first :: strs) ->
  map parse_item (split "," (sp ++ join ", " (map quoted (first :: strs))))
  = first :: strs.
Proof.
  induction strs as [|next strs IH]; intros first sp Hsp H;
    inversion H as [|? ? [_ Hfirst] Hrest]; subst.
  - cbn [map join String.concat]. rewrite split_whole.
    + destruct Hsp as [->| ->]; cbn [map append];
        [now rewrite parse_item_quoted | now rewrite parse_item_spaced].
    + rewrite all_app, no_comma_quoted by exact Hfirst.
      destruct Hsp as [->| ->]; reflexivity.
  - cbn [map]. rewrite join_cons2.
    change (", " ++ join ", " (quoted next :: map quoted strs))
      with (String "," (" " ++ join ", " (map quoted (next :: strs)))).
    rewrite <- append_assoc, split_app.
    + rewrite (map_cons parse_item), IH by (auto; now right). f_equal.
      destruct Hsp as [->| ->]; cbn [append];
        [apply parse_item_quoted | apply parse_item_spaced].
    + rewrite all_app, no_comma_quoted by exact Hfirst.
      destruct Hsp as [->| ->]; reflexivity.
Qed.

Lemma arrayMatch_bracketed inner :
  text_ok inner = true -> arrayMatch (String "[" (inner ++ "]")) = Some inner.
Proof.
  intros H. cbn [arrayMatch]. rewrite Ascii.eqb_refl.
  rewrite takeWhile_all.
  - now rewrite before_last_app_one.
  - fold (text_ok (inner ++ "]")). rewrite text_ok_app, H. reflexivity.
Qed.

Lemma parse_value_array first strs :
  Forall item_text_ok (first :: strs) ->
  parse_value (String "[" (join ", " (map quoted (first :: strs)) ++ "]"))
  = Some (VArr (map VStr (first :: strs))).
Proof.
  intros H. unfold parse_value. rewrite startsWith_cons, Ascii.eqb_refl.
  rewrite arrayMatch_bracketed by now apply text_ok_join_quoted.
  pose proof (parse_items strs first "" (or_introl eq_refl) H) as Hp.
  cbn [append] in Hp. now rewrite Hp.
Qed.

(** A field the reader accepts is written on one line of the shape the
    key-value pattern matches, and its value text reads back as the
    value. *)
Lemma field_line_shape key v :
  field_ok v = true ->
  exists c body d,
    field_line (key, v) = kv_line key c (body ++ String d "")
    /\ is_space c = false /\ is_space d = false
    /\ text_ok (String c (body ++ String d "")) = true
    /\ parse_value (String c (body ++ String d "")) = Some v.
Proof.
  intros Hv. destruct v as [| | | |s|items|]; try discriminate.
  - exists (ascii_of_nat 34), s, (ascii_of_nat 34).
    split; [reflexivity|]. split; [reflexivity|]. split; [reflexivity|].
    split; [exact (text_ok_quoted s Hv) | exact (parse_value_string s)].
  - destruct items as [|item items]; [discriminate|].
    destruct (items_are_strings (item :: items) Hv) as (strs & E & Hstrs).
    destruct strs as [|first strs]; [discriminate|].
    exists "["%char, (join ", " (map quoted (first :: strs))), "]"%char.
    split.
    { unfold field_line. rewrite E, quoted_items. reflexivity. }
    split; [reflexivity|]. split; [reflexivity|]. split.
    + change (text_ok ("[" ++ join ", " (map quoted (first :: strs)) ++ "]") = true).
      rewrite !text_ok_app, text_ok_join_quoted by exact Hstrs. reflexivity.
    + rewrite E. now apply parse_value_array.
Qed.

Lemma parse_line_blank st : parse_line st "" = st.
Proof. reflexivity. Qed.

Lemma parse_line_header st s t :
  name_ok s = true -> name_ok t = true ->
  parse_line st (header_line s t)
  = mkParser (open_table (result st) s t) (Some s) (Some t).
Proof.
  intros Hs Ht. unfold parse_line.
  rewrite trim_header, (tableMatch_header s t Hs Ht), (split_header s t Hs Ht).
  rewrite header_line_shape at 1 2.
  rewrite eqb_cons_nil, startsWith_cons. reflexivity.
Qed.

Lemma open_table_first (d1 : obj) s t :
  s <> "__proto__" -> t <> "__proto__" ->
  oget d1 s = None ->
  open_table d1 s t = (d1 ++ [(s, VObj [(t, VObj [])])])%list.
Proof.
  intros Hsp Htp H. unfold open_table, prop. rewrite H. cbn [truthy negb].
  rewrite (assign_plain _ _ _ Hsp), (oset_absent _ _ _ H).
  unfold get_nested, set_nested. rewrite (oget_snoc _ _ _ H).
  cbn [prop oget truthy negb]. rewrite (assign_plain _ _ _ Htp).
  cbn [oset]. now apply oset_snoc.
Qed.

Lemma open_table_next (d1 : obj) s (t1 : obj) t :
  t <> "__proto__" ->
  oget d1 s = None -> oget t1 t = None ->
  open_table (d1 ++ [(s, VObj t1)])%list s t
  = (d1 ++ [(s, VObj (t1 ++ [(t, VObj [])]))])%list.
Proof.
  intros Htp Hs Ht. unfold open_table, prop. rewrite (oget_snoc _ _ _ Hs).
  cbn [truthy negb]. unfold get_nested, set_nested, prop.
  rewrite (oget_snoc _ _ _ Hs), Ht. cbn [truthy negb].
  rewrite (assign_plain _ _ _ Htp), (oset_absent _ _ _ Ht). now apply oset_snoc.
Qed.

Lemma open_table_in_section (d1 : obj) s (t1 : obj) t r :
  s <> "__proto__" -> t <> "__proto__" ->
  section_open d1 s t1 r -> oget d1 s = None -> oget t1 t = None ->
  open_table r s t = (d1 ++ [(s, VObj (t1 ++ [(t, VObj [])]))])%list.
Proof.
  intros Hsp Htp [[-> ->]| ->] Hs Ht.
  - now apply open_table_first.
  - now apply open_table_next.
Qed.

Lemma set_nested3_in_table (d1 : obj) s (t1 : obj) t (c1 : obj) key v :
  key <> "__proto__" ->
  oget d1 s = None -> oget t1 t = None -> oget c1 key = None ->
  set_nested3 (d1 ++ [(s, VObj (t1 ++ [(t, VObj c1)]))])%list s t key v
  = (d1 ++ [(s, VObj (t1 ++ [(t, VObj (c1 ++ [(key, v)]))]))])%list.
Proof.
  intros Hkp Hs Ht Hk. unfold set_nested3, set_nested.
  rewrite (oget_snoc _ _ _ Hs), (oget_snoc _ _ _ Ht).
  rewrite (assign_plain _ _ _ Hkp).
  rewrite (oset_absent _ _ _ Hk), (oset_snoc _ _ _ _ Ht).
  now apply oset_snoc.
Qed.

Lemma is_set_name n : name_ok n = true -> is_set (Some n) = true.
Proof.
  unfold name_ok, is_set. intros H. apply andb_true_iff in H as [H _].
  now apply andb_true_iff in H as [H _].
Qed.

(** Reading a field line inside an open table stores the field. *)
Lemma parse_line_field st s t key v :
  currentSection st = Some s -> currentTable st = Some t ->
  is_set (Some s) = true -> is_set (Some t) = true ->
  key_ok key = true -> field_ok v = true ->
  parse_line st (field_line (key, v))
  = mkParser (set_nested3 (result st) s t key v) (Some s) (Some t).
Proof.
  intros Hcs Hct Hs Ht Hkey Hv.
  destruct (field_line_shape key v Hv) as (c & body & d & -> & Hc & Hd & Htext & Hval).
  unfold parse_line. rewrite (trim_kv_line key c body d Hkey Hd).
  destruct (kv_line_not_comment key c body d Hkey) as (-> & -> & ->).
  cbn [orb]. rewrite (kvMatch_kv_line key c _ Hkey Hc Htext).
  rewrite Hcs, Hct, Hs, Ht. cbn [andb name_of]. now rewrite Hval.
Qed.

Section OneTable.
Variables (d1 t1 : obj) (s t : string).
Hypothesis Hs : oget d1 s = None.
Hypothesis Ht : oget t1 t = None.
Hypothesis Hs_ok : name_ok s = true.
Hypothesis Ht_ok : name_ok t = true.

Lemma fields_block (c2 : obj) : forall c1 : obj,
  distinct (keys (c1 ++ c2)%list) = true ->
  forallb (fun kv => key_ok (fst kv) && field_ok (snd kv)) c2 = true ->
  fold_left parse_line (map field_line c2) (in_table d1 s t1 t c1)
  = in_table d1 s t1 t (c1 ++ c2)%list.
Proof.
  induction c2 as [|[key v] c2 IH]; intros c1 Hd Hok.
  - now rewrite app_nil_r.
  - cbn [map fold_left]. cbn [forallb fst snd] in Hok.
    apply andb_true_iff in Hok as [Hkv Hok].
    apply andb_true_iff in Hkv as [Hkey Hv].
    rewrite (parse_line_field (in_table d1 s t1 t c1) s t key v eq_refl eq_refl
               (is_set_name s Hs_ok) (is_set_name t Ht_ok) Hkey Hv).
    cbn [McpConfig.in_table result].
    rewrite (set_nested3_in_table d1 s t1 t c1 key v (key_ok_plain key Hkey)
               Hs Ht (distinct_absent c1 key v c2 Hd)).
    fold (McpConfig.in_table d1 s t1 t (c1 ++ [(key, v)])%list).
    rewrite IH.
    + now rewrite <- app_assoc.
    + now rewrite <- app_assoc.
    + exact Hok.
Qed.

Lemma table_block st cfg :
  section_open d1 s t1 (result st) -> config_ok cfg = true ->
  fold_left parse_line (table_lines s (t, cfg)) st
  = mkParser (d1 ++ [(s, VObj (t1 ++ [(t, cfg)]))])%list (Some s) (Some t).
Proof.
  intros Hopen Hcfg. destruct cfg as [| | | | | |fields]; try discriminate.
  cbn [config_ok] in Hcfg. apply andb_true_iff in Hcfg as [Hd Hok].
  cbn [table_lines is_mapping entries fold_left].
  rewrite (parse_line_header st s t Hs_ok Ht_ok).
  rewrite (open_table_in_section d1 s t1 t _
             (proj2 (name_ok_plain s Hs_ok)) (proj2 (name_ok_plain t Ht_ok))
             Hopen Hs Ht).
  fold (McpConfig.in_table d1 s t1 t []). rewrite fold_left_app.
  rewrite (fields_block fields [] Hd Hok). reflexivity.
Qed.

End OneTable.

Lemma tables_block (d1 : obj) s (t2 : obj) : forall (t1 : obj) st,
  oget d1 s = None -> name_ok s = true ->
  section_open d1 s t1 (result st) ->
  distinct (keys (t1 ++ t2)%list) = true ->
  forallb (fun t => name_ok (fst t) && config_ok (snd t)) t2 = true ->
  section_open d1 s (t1 ++ t2)%list
    (result (fold_left parse_line (flat_map (table_lines s) t2) st)).
Proof.
  induction t2 as [|[t cfg] t2 IH]; intros t1 st Hs Hs_ok Hopen Hd Hok.
  - now rewrite app_nil_r.
  - cbn [flat_map]. rewrite fold_left_app.
    cbn [forallb fst snd] in Hok. apply andb_true_iff in Hok as [Htc Hok].
    apply andb_true_iff in Htc as [Ht_ok Hcfg].
    rewrite (table_block d1 t1 s t Hs (distinct_absent t1 t cfg t2 Hd)
               Hs_ok Ht_ok st cfg Hopen Hcfg).
    replace (t1 ++ (t, cfg) :: t2)%list with ((t1 ++ [(t, cfg)]) ++ t2)%list
      by now rewrite <- app_assoc.
    apply IH; auto.
    + now right.
    + now rewrite <- app_assoc.
Qed.

Lemma sections_block (d2 : obj) : forall (d1 : obj) st,
  result st = d1 ->
  distinct (keys (d1 ++ d2)%list) = true ->
  forallb (fun s => name_ok (fst s) && tables_ok (snd s)) d2 = true ->
  result (fold_left parse_line (flat_map section_lines d2) st)
  = (d1 ++ d2)%list.
Proof.
  induction d2 as [|[s tables] d2 IH]; intros d1 st Hres Hd Hok.
  - now rewrite app_nil_r.
  - cbn [flat_map]. rewrite fold_left_app.
    cbn [forallb fst snd] in Hok. apply andb_true_iff in Hok as [Hst Hok].
    apply andb_true_iff in Hst as [Hs_ok Htables].
    destruct tables as [| | | | | |[|tb tbs]]; try discriminate.
    cbn [tables_ok] in Htables. apply andb_true_iff in Htables as [Hdt Hokt].
    cbn [section_lines is_mapping entries].
    pose proof (tables_block d1 s (tb :: tbs) [] st
                  (distinct_absent d1 s _ d2 Hd) Hs_ok
                  (or_introl (conj eq_refl Hres)) Hdt Hokt) as Hopen.
    cbn [app] in Hopen. destruct Hopen as [[Hnil _]|Hopen]; [discriminate|].
    replace (d1 ++ (s, VObj (tb :: tbs)) :: d2)%list
      with ((d1 ++ [(s, VObj (tb :: tbs))]) ++ d2)%list
      by now rewrite <- app_assoc.
    apply IH; [exact Hopen | now rewrite <- app_assoc | exact Hok].
Qed.

Lemma word_not_newline c : is_word c = true -> is_not "010" c = true.
Proof.
  destruct c as [[] [] [] [] [] [] [] []]; vm_compute; congruence.
Qed.

Lemma text_not_newline c :
  negb (is_line_terminator c) = true -> is_not "010" c = true.
Proof.
  destruct c as [[] [] [] [] [] [] [] []]; vm_compute; congruence.
Qed.

Lemma header_line_one_line s t :
  name_ok s = true -> name_ok t = true ->
  all (is_not "010") (header_line s t) = true.
Proof.
  intros Hs Ht.
  destruct (name_ok_parts s Hs) as (_ & _ & _ & Hs1).
  destruct (name_ok_parts t Ht) as (_ & _ & _ & Ht1).
  unfold header_line. rewrite !all_app, Hs1, Ht1. reflexivity.
Qed.

Lemma field_line_one_line key v :
  key_ok key = true -> field_ok v = true ->
  all (is_not "010") (field_line (key, v)) = true.
Proof.
  intros Hkey Hv.
  destruct (field_line_shape key v Hv) as (c & body & d & -> & _ & _ & Htext & _).
  destruct (key_ok_parts key Hkey) as (_ & _ & _ & _ & Hall).
  unfold kv_line. rewrite all_app.
  rewrite (all_impl _ _ key word_not_newline Hall).
  cbn [all]. change (is_not "010" " ") with true. change (is_not "010" "=") with true.
  cbn [andb]. exact (all_impl _ _ _ text_not_newline Htext).
Qed.

Lemma table_lines_one_line s t cfg :
  name_ok s = true -> name_ok t = true -> config_ok cfg = true ->
  Forall (fun l => all (is_not "010") l = true) (table_lines s (t, cfg)).
Proof.
  intros Hs Ht Hcfg. destruct cfg as [| | | | | |fields]; try discriminate.
  cbn [config_ok] in Hcfg. apply andb_true_iff in Hcfg as [_ Hok].
  cbn [table_lines is_mapping entries]. constructor.
  - now apply header_line_one_line.
  - apply Forall_app. split; [|now constructor].
    apply Forall_forall. intros l Hl. apply in_map_iff in Hl as ([key v] & <- & Hin).
    rewrite forallb_forall in Hok. specialize (Hok _ Hin). cbn [fst snd] in Hok.
    apply andb_true_iff in Hok as [Hkey Hv]. now apply field_line_one_line.
Qed.

Lemma section_lines_one_line s tables :
  name_ok s = true -> tables_ok tables = true ->
  Forall (fun l => all (is_not "010") l = true) (section_lines (s, tables)).
Proof.
  intros Hs Htables. destruct tables as [| | | | | |[|tb tbs]]; try discriminate.
  cbn [tables_ok] in Htables. apply andb_true_iff in Htables as [_ Hok].
  cbn [section_lines is_mapping entries].
  apply Forall_flat_map, Forall_forall. intros [t cfg] Hin.
  rewrite forallb_forall in Hok. specialize (Hok _ Hin). cbn [fst snd] in Hok.
  apply andb_true_iff in Hok as [Ht Hcfg]. now apply table_lines_one_line.
Qed.

Lemma document_lines_one_line (d : obj) :
  toml_ok d = true ->
  Forall (fun l => all (is_not "010") l = true) (flat_map section_lines d).
Proof.
  unfold toml_ok. intros H. apply andb_true_iff in H as [_ Hok].
  apply Forall_flat_map, Forall_forall. intros [s tables] Hin.
  rewrite forallb_forall in Hok. specialize (Hok _ Hin). cbn [fst snd] in Hok.
  apply andb_true_iff in Hok as [Hs Htables]. now apply section_lines_one_line.
Qed.

(** C2, as stated, fails: an array item that contains a comma is a string
    value of the supported subset, is written between quotes, and is read
    back as two items. *)
Lemma comma_in_item_splits_it :
  parseSimpleToml
    (stringifySimpleToml
       [("mcp_servers", VObj [("wcag", VObj [("args", VArr [VStr "--only=a,b"])])])])
  = [("mcp_servers",
      VObj [("wcag",
             VObj [("args", VArr [VStr (dquote ++ "--only=a"); VStr ("b" ++ dquote)])])])]
  /\ parseSimpleToml
       (stringifySimpleToml
          [("mcp_servers", VObj [("wcag", VObj [("args", VArr [VStr "--only=a,b"])])])])
     <> [("mcp_servers", VObj [("wcag", VObj [("args", VArr [VStr "--only=a,b"])])])].
Proof. split; [vm_compute; reflexivity | vm_compute; discriminate]. Qed.

(** C2, amended.  Reading back what was written gives the document
    itself when every section is a non-empty mapping of tables, section
    and table names are non-empty, name no built-in property and are free
    of dots, closing brackets and line feeds, keys are non-empty words
    other than [__proto__], no name or key occurs twice in its mapping,
    and every value is a string without line terminator or a non-empty
    array of strings without line terminator or comma. *)
Theorem toml_round_trip (d : obj) :
  toml_ok d = true -> parseSimpleToml (stringifySimpleToml d) = d.
Proof.
  intros Hok. unfold parseSimpleToml, stringifySimpleToml. cbn [entries].
  pose proof (document_lines_one_line d Hok) as Hlines.
  assert (Hparse : result (fold_left parse_line (flat_map section_lines d)
                             (mkParser [] None None)) = d).
  { unfold toml_ok in Hok. apply andb_true_iff in Hok as [Hd Hs].
    exact (sections_block d [] (mkParser [] None None) eq_refl Hd Hs). }
  destruct (flat_map section_lines d) as [|first rest] eqn:E.
  - exact Hparse.
  - now rewrite split_join_lines.
Qed.

Lemma toml_round_trip_witness :
  parseSimpleToml
    (stringifySimpleToml
       [("mcp_servers",
         VObj [("wcag", VObj [("command", VStr "node");
                              ("args", VArr [VStr "build/index.js"; VStr "--stdio"])]);
               ("aria", VObj [("command", VStr "npx")])])])
  = [("mcp_servers",
      VObj [("wcag", VObj [("command", VStr "node");
                           ("args", VArr [VStr "build/index.js"; VStr "--stdio"])]);
            ("aria", VObj [("command", VStr "npx")])])].
Proof. apply toml_round_trip. reflexivity. Defined.

(** *** Headers the reader does not recognize *)


























End TomlLines.

(** ** [mergeServers] and [removeServers] *)

Section ConfigStore.
Import Js McpConfig.

Lemma merge_loop (existing : obj) k incoming sect :
  fold_left (fun merged s => set_nested merged k (name s) (VObj (serverConfig s)))
    incoming (oset existing k (VObj sect))
  = oset existing k (VObj (fold_left add_server incoming sect)).
Proof.
  revert sect. induction incoming as [|s rest IH]; intros sect; simpl.
  - reflexivity.
  - unfold set_nested at 2. rewrite oget_oset_same, oset_oset. apply IH.
Qed.

(** The loop of [mergeServers] only ever writes into the copied section. *)
Lemma mergeServers_eq (existing : obj) incoming k :
  mergeServers existing incoming k
  = oset existing k (VObj (fold_left add_server incoming (section_of existing k))).
Proof. unfold mergeServers. simpl entries at 1. apply merge_loop. Qed.


(** The example of the specification: merging one server into the empty
    document, then removing it again. *)
Example merge_wcag :
  mergeServers [] [mkServer "wcag" (VStr "node") (VArr [VStr "index.js"]) VUndef]
    "servers"
  = [("servers",
      VObj [("wcag", VObj [("command", VStr "node");
                           ("args", VArr [VStr "index.js"])])])].
Proof. reflexivity. Qed.

Example remove_wcag :
  removeServers
    [("servers",
      VObj [("wcag", VObj [("command", VStr "node");
                           ("args", VArr [VStr "index.js"])])])]
    ["wcag"] "servers"
  = mkRemoval [] 1.
Proof. reflexivity. Qed.

(** A server without [args] gets the empty array, and [type] appears
    when given. *)
Example merge_defaults :
  mergeServers [("servers", VObj [("wcag", VObj [("command", VStr "old")])])]
    [mkServer "wcag" (VStr "node") VUndef (VStr "stdio")] "servers"
  = [("servers",
      VObj [("wcag", VObj [("command", VStr "node"); ("args", VArr []);
                           ("type", VStr "stdio")])])].
Proof. reflexivity. Qed.

Lemma unnamed_cons n names p :
  unnamed (n :: names) p = negb (fst p =? n) && unnamed names p.
Proof. unfold unnamed. simpl. now rewrite negb_orb. Qed.

Lemma filter_unnamed_cons n names (o : obj) :
  filter (unnamed (n :: names)) o = filter (unnamed names) (odelete o n).
Proof.
  unfold odelete. induction o as [|p rest IH]; simpl; [reflexivity|].
  rewrite unnamed_cons. destruct (fst p =? n); simpl; rewrite IH; reflexivity.
Qed.

Lemma filter_unnamed_nil (o : obj) : filter (unnamed []) o = o.
Proof. induction o as [|p o IH]; simpl; [reflexivity | now rewrite IH]. Qed.

(** What the removal loop computes: the entries no name mentions, and a
    counter that moves exactly when an entry went away. *)
Lemma remove_loop names : forall (o : obj) r,
  exists r', fold_left remove_one names (o, r) = (filter (unnamed names) o, r')
             /\ r <= r' /\ (r' = r -> filter (unnamed names) o = o).
Proof.
  induction names as [|n rest IH]; intros o r; simpl.
  - exists r. rewrite filter_unnamed_nil. repeat split; auto.
  - rewrite filter_unnamed_cons. destruct (hasOwn o n) eqn:E.
    + destruct (IH (odelete o n) (S r)) as (r' & Hf & Hle & _).
      exists r'. repeat split; [exact Hf | lia | lia].
    + apply hasOwn_oget in E. rewrite (odelete_absent _ _ E).
      destruct (IH o r) as (r' & Hf & Hle & Hid). exists r'. auto.
Qed.

Lemma filter_unnamed_absent names (o : obj) :
  (forall n, In n names -> oget o n = None) -> filter (unnamed names) o = o.
Proof.
  induction names as [|n rest IH]; intros H.
  - apply filter_unnamed_nil.
  - rewrite filter_unnamed_cons, odelete_absent by (apply H; now left).
    apply IH. intros m Hm. apply H. now right.
Qed.

Lemma remove_loop_absent names (o : obj) r :
  (forall n, In n names -> oget o n = None) ->
  fold_left remove_one names (o, r) = (o, r).
Proof.
  revert o r. induction names as [|n rest IH]; intros o r H; simpl; [reflexivity|].
  assert (E : hasOwn o n = false) by (apply hasOwn_oget, H; now left).
  rewrite E. apply IH. intros m Hm. apply H. now right.
Qed.

Lemma in_existsb_eqb n names : In n names -> existsb (String.eqb n) names = true.
Proof.
  intros H. apply existsb_exists. exists n. split; [exact H | apply String.eqb_refl].
Qed.

Lemma filter_unnamed_oset names (o : obj) n v :
  In n names -> filter (unnamed names) (oset o n v) = filter (unnamed names) o.
Proof.
  intros Hn.
  assert (Hu : forall w, unnamed names (n, w) = false).
  { intros w. unfold unnamed. simpl. now rewrite in_existsb_eqb. }
  induction o as [|[k' v'] rest IH]; simpl.
  - now rewrite Hu.
  - destruct (k' =? n) eqn:E; simpl.
    + apply String.eqb_eq in E; subst k'. now rewrite !Hu.
    + now rewrite IH.
Qed.

Lemma filter_unnamed_assign names (o : obj) n v :
  In n names -> filter (unnamed names) (assign o n v) = filter (unnamed names) o.
Proof.
  intros Hn. destruct (assign_cases o n v) as [-> | ->]; [reflexivity|].
  now apply filter_unnamed_oset.
Qed.

Lemma filter_unnamed_merge names incoming : forall sect,
  (forall s, In s incoming -> In (name s) names) ->
  filter (unnamed names) (fold_left add_server incoming sect)
  = filter (unnamed names) sect.
Proof.
  induction incoming as [|s rest IH]; intros sect H; simpl; [reflexivity|].
  rewrite IH by (intros; apply H; now right).
  apply filter_unnamed_assign, H. now left.
Qed.

Lemma oget_add_servers incoming : forall sect n,
  oget sect n <> None -> oget (fold_left add_server incoming sect) n <> None.
Proof.
  induction incoming as [|s rest IH]; intros sect n H; simpl; [exact H|].
  apply IH. unfold add_server.
  destruct (assign_cases sect (name s) (VObj (serverConfig s))) as [-> | ->];
    [exact H|].
  destruct (String.eqb_spec (name s) n) as [E|Hne].
  - rewrite E, oget_oset_same. discriminate.
  - rewrite oget_oset_other by congruence. exact H.
Qed.

Lemma merged_has_names incoming sect s :
  In s incoming -> name s <> "__proto__" ->
  oget (fold_left add_server incoming sect) (name s) <> None.
Proof.
  revert sect. induction incoming as [|s' rest IH]; intros sect H Hplain;
    [destruct H|].
  destruct H as [->|H]; cbn [fold_left].
  - apply oget_add_servers. unfold add_server.
    rewrite assign_plain by exact Hplain. rewrite oget_oset_same. discriminate.
  - now apply IH.
Qed.

Lemma merged_nonempty incoming sect :
  (exists s, In s incoming /\ name s <> "__proto__") \/ sect <> [] ->
  fold_left add_server incoming sect <> [].
Proof.
  intros [(s & Hin & Hplain)|H].
  - intros E. apply (merged_has_names incoming sect s Hin Hplain).
    now rewrite E.
  - revert sect H. induction incoming as [|s rest IH]; intros sect H;
      cbn [fold_left]; [exact H|].
    apply IH. unfold add_server.
    destruct (assign_cases sect (name s) (VObj (serverConfig s))) as [-> | ->];
      [exact H|].
    destruct sect as [|[k v] r]; [congruence|].
    simpl. destruct (k =? name s); discriminate.
Qed.

Lemma prop_oset_same (o : obj) k v : prop (oset o k v) k = v.
Proof. unfold prop. now rewrite oget_oset_same. Qed.

Lemma removeServers_merged (D : obj) k (sect : obj) names :
  removeServers (oset D k (VObj sect)) names k
  = let (us, r) := fold_left remove_one names (sect, 0) in
    if (r =? 0)%nat then mkRemoval (oset D k (VObj sect)) 0
    else if (length (keys us) =? 0)%nat
         then mkRemoval (odelete (oset D k (VObj sect)) k) r
         else mkRemoval (oset D k (VObj us)) r.
Proof.
  unfold removeServers. rewrite prop_oset_same.
  cbn [truthy typeof_object andb negb entries].
  destruct (fold_left remove_one names (sect, 0)) as [us r].
  now rewrite assign_own, oset_oset by apply hasOwn_oset.
Qed.

(** C4.  [mergeServers] leaves every top-level key other than the section
    key with the value it had in [existing]. *)
Theorem mergeServers_preserves_other_keys (existing : obj) incoming k k' :
  k' <> k -> oget (mergeServers existing incoming k) k' = oget existing k'.
Proof.
  intros Hne. rewrite mergeServers_eq. now apply oget_oset_other.
Qed.

Lemma mergeServers_preserves_other_keys_witness :
  "theme" <> "servers" /\
  oget (mergeServers [("theme", VStr "dark")]
          [mkServer "wcag" (VStr "node") (VArr [VStr "index.js"]) VUndef]
          "servers") "theme"
  = oget [("theme", VStr "dark")] "theme".
Proof.
  split; [discriminate|].
  apply mergeServers_preserves_other_keys. discriminate.
Defined.

Lemma removeServers_absent (existing : obj) names k :
  oget existing k = None -> removeServers existing names k = mkRemoval existing 0.
Proof.
  intros H. unfold removeServers, prop. now rewrite H.
Qed.

(** C7.  When the section is absent, or no given name is an entry of it,
    [removeServers] hands back the document it was given and counts no
    removal. *)
Theorem removeServers_nothing_to_remove (existing : obj) names k :
  oget existing k = None
  \/ (forall n, In n names -> oget (entries (prop existing k)) n = None) ->
  removeServers existing names k = mkRemoval existing 0.
Proof.
  intros H. unfold removeServers.
  destruct (truthy (prop existing k) && typeof_object (prop existing k)) eqn:E;
    simpl; [|reflexivity].
  destruct H as [H|H].
  - unfold prop in E. rewrite H in E. discriminate.
  - now rewrite remove_loop_absent.
Qed.

Lemma removeServers_nothing_to_remove_witness :
  removeServers [("servers", VObj [("wcag", VObj [("command", VStr "node")])])]
    ["aria"] "servers"
  = mkRemoval [("servers", VObj [("wcag", VObj [("command", VStr "node")])])] 0.
Proof.
  apply removeServers_nothing_to_remove. right.
  intros n [<-|[]]. reflexivity.
Defined.

(** C1, as stated, fails: merging the empty list into a document without
    the section leaves an empty section behind, which removal keeps; a
    section that was an empty mapping is gone after the round trip; and a
    server named [__proto__] is never entered into the section, so that
    merging it alone behaves as merging nothing. *)
Lemma remove_after_merge_keeps_stub :
  ((forall n, In n (namesOf []) -> oget (entries (prop [] "servers")) n = None)
   /\ updated (removeServers (mergeServers [] [] "servers") (namesOf []) "servers")
      = [("servers", VObj [])]
   /\ same_value
        (VObj (updated (removeServers (mergeServers [] [] "servers")
                          (namesOf []) "servers")))
        (VObj []) = false)
  /\ (let D := [("servers", VObj [])] in
      let S := [mkServer "wcag" (VStr "node") VUndef VUndef] in
      (forall n, In n (namesOf S) -> oget (entries (prop D "servers")) n = None)
      /\ updated (removeServers (mergeServers D S "servers") (namesOf S) "servers")
         = []
      /\ same_value
           (VObj (updated (removeServers (mergeServers D S "servers")
                             (namesOf S) "servers")))
           (VObj D) = false)
  /\ (let S := [mkServer "__proto__" (VStr "node") VUndef VUndef] in
      (forall n, In n (namesOf S) -> oget (entries (prop [] "servers")) n = None)
      /\ updated (removeServers (mergeServers [] S "servers") (namesOf S) "servers")
         = [("servers", VObj [])]).
Proof.
  split; [|split].
  - split; [intros n [] | split; reflexivity].
  - split; [intros n _; reflexivity | split; reflexivity].
  - split; [intros n _; reflexivity | reflexivity].
Qed.

(** C1, amended.  When the section is absent and at least one server
    with a name other than [__proto__] is merged, or the section is a
    non-empty mapping none of whose entries bears an incoming name,
    removing the merged names gives back the document itself. *)
Theorem remove_after_merge_restores (D : obj) (S : list server) k :
  (oget D k = None /\ exists s, In s S /\ name s <> "__proto__")
  \/ (exists sect, oget D k = Some (VObj sect) /\ sect <> [] /\
                   forall n, In n (namesOf S) -> oget sect n = None) ->
  updated (removeServers (mergeServers D S k) (namesOf S) k) = D.
Proof.
  intros H. rewrite mergeServers_eq, removeServers_merged.
  set (start := section_of D k).
  destruct (remove_loop (namesOf S) (fold_left add_server S start) 0)
    as (r & Hloop & _ & Hid).
  rewrite Hloop.
  rewrite filter_unnamed_merge in * by (intros s Hs; now apply in_map).
  assert (Hstart : filter (unnamed (namesOf S)) start = start).
  { apply filter_unnamed_absent. subst start. unfold section_of, prop.
    destruct H as [[H _]|(sect & H & _ & Hd)]; rewrite H; simpl; auto. }
  rewrite Hstart in *.
  destruct H as [[Hk HS]|(sect & Hk & Hne & Hd)].
  - assert (Es : start = []) by (subst start; unfold section_of, prop; now rewrite Hk).
    destruct (Nat.eqb_spec r 0) as [->|_].
    + exfalso. apply (merged_nonempty S start); [now left|].
      rewrite <- (Hid eq_refl). exact Es.
    + rewrite Es. simpl.
      rewrite (oset_absent _ _ _ Hk), odelete_app, (odelete_absent _ _ Hk).
      simpl. rewrite String.eqb_refl. simpl. apply app_nil_r.
  - assert (Es : start = sect) by (subst start; unfold section_of, prop; now rewrite Hk).
    destruct (Nat.eqb_spec r 0) as [->|_].
    + simpl. rewrite <- (Hid eq_refl), Es. now apply oset_oget_id.
    + rewrite Es. destruct sect as [|p sect]; [congruence|]. simpl.
      now apply oset_oget_id.
Qed.

Lemma remove_after_merge_restores_witness :
  updated (removeServers
             (mergeServers [("theme", VStr "dark")]
                [mkServer "wcag" (VStr "node") (VArr [VStr "index.js"]) VUndef]
                "servers")
             (namesOf [mkServer "wcag" (VStr "node") (VArr [VStr "index.js"]) VUndef])
             "servers")
  = [("theme", VStr "dark")].
Proof.
  apply remove_after_merge_restores. left. split; [reflexivity|].
  eexists. split; [now left | discriminate].
Defined.

(** C3, as stated, fails: merging the empty list into a document that
    lacks the section creates the section key with an empty mapping. *)
Lemma merge_nothing_creates_stub :
  stub_free [] "servers" /\ ~ stub_free (mergeServers [] [] "servers") "servers".
Proof.
  split.
  - intros v H. discriminate.
  - intros H. destruct (H (VObj []) eq_refl) as (sect & E & Hne).
    injection E as <-. now apply Hne.
Qed.

(** C3, amended.  On a document that satisfies the invariant,
    [mergeServers] keeps it whenever a server with a name other than
    [__proto__] is merged or the section already exists, [removeServers]
    always keeps it, and a removal that names every entry of the section
    deletes the section key. *)
Theorem stub_free_preserved (D : obj) k :
  stub_free D k ->
  (forall S, (exists s, In s S /\ name s <> "__proto__") \/ oget D k <> None ->
             stub_free (mergeServers D S k) k)
  /\ (forall names, stub_free (updated (removeServers D names k)) k)
  /\ (forall names sect,
        oget D k = Some (VObj sect) ->
        (forall n, In n (keys sect) -> In n names) ->
        oget (updated (removeServers D names k)) k = None).
Proof.
  intros Hinv. split; [|split].
  - intros S HS v. rewrite mergeServers_eq, oget_oset_same. intros [= <-].
    eexists; split; [reflexivity|]. apply merged_nonempty.
    destruct HS as [HS|HS]; [now left | right].
    destruct (oget D k) as [v|] eqn:E; [|congruence].
    destruct (Hinv v E) as (sect & -> & Hne).
    unfold section_of, prop. now rewrite E.
  - intros names. destruct (oget D k) as [v|] eqn:E.
    + destruct (Hinv v E) as (sect & -> & Hne).
      rewrite <- (oset_oget_id D k _ E), removeServers_merged.
      destruct (remove_loop names sect 0) as (r & Hloop & _ & _). rewrite Hloop.
      destruct (r =? 0)%nat; simpl.
      * rewrite (oset_oget_id D k _ E). exact Hinv.
      * destruct (filter (unnamed names) sect) as [|p us] eqn:Eus; simpl.
        -- intros v. rewrite oget_odelete_same. discriminate.
        -- intros v. rewrite oget_oset_same. intros [= <-].
           eexists; split; [reflexivity | discriminate].
    + rewrite removeServers_absent by exact E. exact Hinv.
  - intros names sect E Hall.
    destruct (Hinv _ E) as (sect' & [= <-] & Hne).
    rewrite <- (oset_oget_id D k _ E), removeServers_merged.
    destruct (remove_loop names sect 0) as (r & Hloop & _ & Hid). rewrite Hloop.
    assert (Hnil : filter (unnamed names) sect = []).
    { clear - Hall. induction sect as [|[n v] rest IH]; simpl; [reflexivity|].
      unfold unnamed at 1. simpl.
      rewrite in_existsb_eqb by (apply Hall; now left). simpl.
      apply IH. intros m Hm. apply Hall. now right. }
    rewrite Hnil in *.
    destruct (Nat.eqb_spec r 0) as [->|_].
    + exfalso. apply Hne. symmetry. now apply Hid.
    + simpl. apply oget_odelete_same.
Qed.

Lemma stub_free_preserved_witness :
  stub_free [("servers", VObj [("wcag", VObj [("command", VStr "node")])])] "servers"
  /\ oget (updated (removeServers
                      [("servers", VObj [("wcag", VObj [("command", VStr "node")])])]
                      ["wcag"] "servers")) "servers" = None.
Proof.
  assert (H : stub_free
                [("servers", VObj [("wcag", VObj [("command", VStr "node")])])]
                "servers").
  { intros v [= <-]. eexists; split; [reflexivity | discriminate]. }
  split; [exact H|].
  destruct (stub_free_preserved _ _ H) as (_ & _ & Hdel).
  apply (Hdel ["wcag"] _ eq_refl). intros n [<-|[]]. now left.
Defined.

End ConfigStore.

(** ** Host path resolution *)

Section HostPaths.
Import Paths.

(** C6.  The two resolvers disagree: on macOS, for a host that declares
    overrides, they give different global config and skills paths.
    [getHostApplicationPaths] always joins the home directory with the
    default names; [getIdePaths], on a Mac or on Windows and for a host
    with [globalPaths] for that platform, joins the application-support
    directory with the overriding names. *)
Theorem global_path_resolvers_differ :
  (exists r1 r2,
     globalPaths Sample.vscode <> None
     /\ Js.oget (getIdePaths Sample.mac "/work" (getPlatform Sample.mac)
                   [Sample.vscode]) "vscode" = Some r1
     /\ Js.oget (getHostApplicationPaths Sample.mac "/work"
                   (getPlatform Sample.mac) [Sample.vscode]) "vscode" = Some r2
     /\ mcpConfig r1 = "/Users/dev/Library/Application Support/Code/User/mcp.json"
     /\ mcpConfig r2 = "/Users/dev/.vscode/mcp.json"
     /\ skillsDir r1 = "/Users/dev/Library/Application Support/Code/User/skills"
     /\ skillsDir r2 = "/Users/dev/.vscode/skills"
     /\ mcpConfig r1 <> mcpConfig r2
     /\ skillsDir r1 <> skillsDir r2)
  /\ (forall e root h,
        mcpConfig (host_paths e root h)
        = path_join e [homedir e;
                       or_default (mcpConfigFile h) ("." ++ id h ++ "/mcp.json")]
        /\ skillsDir (host_paths e root h)
           = path_join e [homedir e;
                          or_default (skillsFolder h) ("." ++ id h ++ "/skills")])
  /\ (forall e root tag i dn sf mf key win o,
        let h := mkHost i dn sf mf key (Some (mkGlobalPaths win (Some o))) in
        let p := mkPlatform tag false true false in
        mcpConfig (ide_paths e root p h)
        = path_join e [getAppSupportDir e p;
                       or_default (o_mcpConfigFile o)
                         (or_default mf ("." ++ i ++ "/mcp.json"))]
        /\ skillsDir (ide_paths e root p h)
           = path_join e [getAppSupportDir e p;
                          or_default (o_skillsFolder o)
                            (or_default sf ("." ++ i ++ "/skills"))])
  /\ (forall e root tag mac linux i dn sf mf key o macos,
        let h := mkHost i dn sf mf key (Some (mkGlobalPaths (Some o) macos)) in
        let p := mkPlatform tag true mac linux in
        mcpConfig (ide_paths e root p h)
        = path_join e [getAppSupportDir e p;
                       or_default (o_mcpConfigFile o)
                         (or_default mf ("." ++ i ++ "/mcp.json"))]
        /\ skillsDir (ide_paths e root p h)
           = path_join e [getAppSupportDir e p;
                          or_default (o_skillsFolder o)
                            (or_default sf ("." ++ i ++ "/skills"))]).
Proof.
  split; [|split; [|split]].
  - eexists; eexists. split; [discriminate|].
    split; [vm_compute; reflexivity|]. split; [vm_compute; reflexivity|].
    cbn [mcpConfig skillsDir]. repeat split; discriminate.
  - intros; split; reflexivity.
  - intros; split; reflexivity.
  - intros; split; reflexivity.
Qed.

End HostPaths.

(** ** Running the installers *)

Section Installers.
Import Effects.
Variable wd : world.

Lemma exec_bind {A B : Type} (p : prog A) (f : A -> prog B) (w : state wd) :
  exec wd (bind p f) w
  = let '(w1, log1, r) := exec wd p w in
    match r with
    | Returned a =>
        let '(w2, log2, r2) := exec wd (f a) w1 in (w2, (log1 ++ log2)%list, r2)
    | Threw e => (w1, log1, Threw e)
    end.
Proof.
  revert w. induction p as [a|e|X a k IH]; intros w; simpl.
  - now destruct (exec wd (f a) w) as [[w2 log2] r2].
  - reflexivity.
  - destruct (answer_to wd a w) as [[x w1] ev].
    rewrite IH. destruct (exec wd (k x) w1) as [[w2 log1] [b|e]].
    + now destruct (exec wd (f b) w2) as [[w3 log2] r2].
    + reflexivity.
Qed.

(** C5.  When [dir] exists and holds no [.git], [ensureRepo] throws the
    not-a-git-repo error after looking at the two paths and nothing else:
    the world is left in the state it was in. *)
Theorem ensureRepo_refuses_unmanaged_dir
    (path_join : list string -> string) (w : state wd) (url dir : string) :
  access wd w dir = true ->
  access wd w (path_join [dir; ".git"]) = false ->
  exec wd (Repo.ensureRepo path_join url dir) w
  = (w,
     [EAccess dir true; EAccess (path_join [dir; ".git"]) false],
     Threw (Error ("Target exists but is not a git repo: " ++ dir))).
Proof.
  intros Hdir Hgit. unfold Repo.ensureRepo, Repo.pathExists, perform.
  simpl. rewrite Hdir. simpl. rewrite Hgit. reflexivity.
Qed.

Lemma exec_catch {A : Type} (p : prog A) (h : error -> prog A) (w : state wd) :
  exec wd (catch p h) w
  = let '(w1, log1, r) := exec wd p w in
    match r with
    | Returned a => (w1, log1, Returned a)
    | Threw e =>
        let '(w2, log2, r2) := exec wd (h e) w1 in (w2, (log1 ++ log2)%list, r2)
    end.
Proof.
  revert w. induction p as [a|e|X a k IH]; intros w; simpl.
  - reflexivity.
  - now destruct (exec wd (h e) w) as [[w2 log2] r2].
  - destruct (answer_to wd a w) as [[x w1] ev].
    rewrite IH. destruct (exec wd (k x) w1) as [[w2 log1] [b|e]].
    + reflexivity.
    + now destruct (exec wd (h e) w2) as [[w3 log2] r2].
Qed.

(** [run] spawns one child and rejects exactly when it failed. *)
Lemma exec_run command args options (w : state wd) :
  exists r,
    exec wd (GitMcp.run command args options) w
    = (snd (spawn wd w command args (spread_options "pipe" true options)),
       [ESpawn command args (spread_options "pipe" true options)
          (fst (spawn wd w command args (spread_options "pipe" true options)))],
       r)
    /\ (GitMcp.child_failed
          (fst (spawn wd w command args (spread_options "pipe" true options)))
        = true -> exists e, r = Threw e)
    /\ (GitMcp.child_failed
          (fst (spawn wd w command args (spread_options "pipe" true options)))
        = false -> exists o, r = Returned o).
Proof.
  unfold GitMcp.run, perform. cbn [bind exec answer_to].
  destruct (spawn wd w command args (spread_options "pipe" true options))
    as [[[[|n]|] out err|e] w1]; cbn [fst snd GitMcp.child_failed exec];
    eexists; (split; [reflexivity|]); split; intros H;
    try discriminate; eexists; reflexivity.
Qed.

(** [cloneGitRepo] spawns the clone and throws exactly when it failed. *)
Lemma exec_cloneGitRepo repoUrl targetDir (w : state wd) :
  let options := mkOptions "pipe" true None in
  let ended := fst (spawn wd w "git" ["clone"; repoUrl; targetDir] options) in
  exists r,
    exec wd (GitMcp.cloneGitRepo repoUrl targetDir) w
    = (snd (spawn wd w "git" ["clone"; repoUrl; targetDir] options),
       [ESpawn "git" ["clone"; repoUrl; targetDir] options ended], r)
    /\ (GitMcp.child_failed ended = true -> exists e, r = Threw e)
    /\ (GitMcp.child_failed ended = false -> exists o, r = Returned o).
Proof.
  intros options ended. unfold GitMcp.cloneGitRepo.
  rewrite exec_catch, exec_bind.
  destruct (exec_run "git" ["clone"; repoUrl; targetDir] no_options w)
    as (r & -> & Hbad & Hgood).
  change (spread_options "pipe" true no_options) with options in *.
  fold ended in Hbad, Hgood |- *.
  destruct (GitMcp.child_failed ended).
  - destruct (Hbad eq_refl) as [e ->]. cbn.
    eexists; split; [reflexivity|]. split; intros H; [eauto | discriminate].
  - destruct (Hgood eq_refl) as [o ->]. cbn.
    eexists; split; [reflexivity|]. split; intros H; [discriminate | eauto].
Qed.

(** [buildGitRepo] spawns the build and always returns; [success] tells
    whether the child closed with exit code 0. *)
Lemma exec_buildGitRepo repoDir buildCommand (w : state wd) :
  let options := mkOptions "pipe" true (Some repoDir) in
  let ended := fst (spawn wd w buildCommand [] options) in
  exists o,
    exec wd (GitMcp.buildGitRepo repoDir buildCommand) w
    = (snd (spawn wd w buildCommand [] options),
       [ESpawn buildCommand [] options ended], Returned o)
    /\ GitMcp.success o = negb (GitMcp.child_failed ended).
Proof.
  intros options ended. unfold GitMcp.buildGitRepo.
  rewrite exec_catch, exec_bind.
  destruct (exec_run buildCommand [] (mkRunOptions None (Some repoDir)) w)
    as (r & -> & Hbad & Hgood).
  change (spread_options "pipe" true (mkRunOptions None (Some repoDir)))
    with options in *.
  fold ended in Hbad, Hgood |- *.
  destruct (GitMcp.child_failed ended).
  - destruct (Hbad eq_refl) as [e ->]. cbn. eexists; split; reflexivity.
  - destruct (Hgood eq_refl) as [o ->]. cbn. eexists; split; reflexivity.
Qed.

(** Nothing is spawned while the existing installation is checked. *)
Lemma check_existing_spawns_nothing name repoPath (w : state wd) :
  forallb (fun ev => negb (GitMcp.is_spawn ev))
    (snd (fst (exec wd (GitMcp.check_existing name repoPath) w))) = true.
Proof.
  unfold GitMcp.check_existing, GitMcp.cleanupGitRepo, GitMcp.pathExists, perform.
  cbn [bind exec answer_to]. destruct (access wd w repoPath); [|reflexivity].
  cbn [bind exec answer_to].
  destruct (confirm wd w "Overwrite existing installation?") as [[[|]|] w1];
    [|reflexivity|reflexivity].
  cbn [bind exec answer_to]. destruct (access wd w1 repoPath); [|reflexivity].
  cbn [bind exec answer_to]. now destruct (rm wd w1 repoPath) as [[e|] w2].
Qed.

Lemma report_build_warns (o : GitMcp.outcome) (w : state wd) :
  GitMcp.success o = false ->
  exists log,
    exec wd (GitMcp.report_build o) w
    = (w, EWarn GitMcp.build_warning :: log, Returned tt).
Proof.
  intros H. unfold GitMcp.report_build, perform. rewrite H.
  cbn [negb bind exec answer_to].
  destruct (negb (GitMcp.stderr o =? "")); eexists; reflexivity.
Qed.

Lemma not_spawned (log : list event) (ev : event) :
  forallb (fun ev => negb (GitMcp.is_spawn ev)) log = true ->
  GitMcp.is_spawn ev = true -> ~ In ev log.
Proof.
  intros Hall Hev Hin. rewrite forallb_forall in Hall.
  specialize (Hall ev Hin). now rewrite Hev in Hall.
Qed.

(** C8.  In a run of [installGitMcp] whose clone succeeded and whose build
    command failed, the warning is logged and the call returns the server
    object built from the configuration and the repository path. *)
Theorem installGitMcp_survives_build_failure
    (w w' : state wd) (log : list event) (outcome : result GitMcp.descriptor)
    (cfg : GitMcp.mcp_config) (scope root : string)
    (pinfo : Paths.platformInfo)
    (getMcpRepoDir : string -> string -> Paths.platformInfo -> string -> string) :
  let repoPath := getMcpRepoDir scope root pinfo (GitMcp.name cfg) in
  exec wd (GitMcp.installGitMcp cfg scope root pinfo getMcpRepoDir) w
  = (w', log, outcome) ->
  (exists out err,
     In (ESpawn "git" ["clone"; GitMcp.repoUrl cfg; repoPath]
           (mkOptions "pipe" true None) (Closed (Some 0) out err)) log) ->
  (exists c,
     GitMcp.child_failed c = true
     /\ In (ESpawn (GitMcp.buildCommand cfg) []
              (mkOptions "pipe" true (Some repoPath)) c) log) ->
  outcome = Returned (GitMcp.mkDescriptor (GitMcp.name cfg) (GitMcp.type cfg)
                        (GitMcp.command cfg) (GitMcp.args cfg) repoPath)
  /\ In (EWarn GitMcp.build_warning) log.
Proof.
  intros repoPath Hexec (out & err & Hclone) (c & Hfail & Hbuild).
  unfold GitMcp.installGitMcp in Hexec. fold repoPath in Hexec.
  rewrite exec_bind in Hexec.
  pose proof (check_existing_spawns_nothing (GitMcp.name cfg) repoPath w) as Hquiet.
  destruct (exec wd (GitMcp.check_existing (GitMcp.name cfg) repoPath) w)
    as [[w1 log1] [[]|e]]; cbn [fst snd] in Hquiet.
  2:{ injection Hexec as <- <- <-. now apply not_spawned in Hclone. }
  rewrite exec_bind in Hexec.
  destruct (exec_cloneGitRepo (GitMcp.repoUrl cfg) repoPath w1)
    as (r & Hc & Hbad & Hgood). cbv zeta in Hc, Hbad, Hgood.
  rewrite Hc in Hexec. clear Hc.
  set (cloned := fst (spawn wd w1 "git" ["clone"; GitMcp.repoUrl cfg; repoPath]
                        (mkOptions "pipe" true None))) in *.
  set (w2 := snd (spawn wd w1 "git" ["clone"; GitMcp.repoUrl cfg; repoPath]
                    (mkOptions "pipe" true None))) in *.
  destruct (GitMcp.child_failed cloned) eqn:Ecl.
  { destruct (Hbad eq_refl) as [e ->]. injection Hexec as <- <- <-.
    apply in_app_or in Hclone as [Hclone|[Hclone|[]]].
    - now apply not_spawned in Hclone.
    - injection Hclone as Hcl. rewrite Hcl in Ecl. discriminate. }
  destruct (Hgood eq_refl) as [o ->]. clear Hbad Hgood.
  rewrite exec_bind in Hexec.
  destruct (exec_buildGitRepo repoPath (GitMcp.buildCommand cfg) w2)
    as (b & Hb & Hsuccess). cbv zeta in Hb, Hsuccess.
  rewrite Hb in Hexec. clear Hb.
  set (built := fst (spawn wd w2 (GitMcp.buildCommand cfg) []
                       (mkOptions "pipe" true (Some repoPath)))) in *.
  rewrite exec_bind in Hexec.
  assert (Hbuilt : GitMcp.child_failed built = true).
  { destruct (exec wd (GitMcp.report_build b) _) as [[w4 log4] r4] eqn:Erep.
    assert (Hrep : forallb (fun ev => negb (GitMcp.is_spawn ev)) log4 = true).
    { unfold GitMcp.report_build, perform in Erep.
      destruct (negb (GitMcp.success b)); cbn in Erep;
        [destruct (negb (GitMcp.stderr b =? "")); cbn in Erep|];
        injection Erep as <- <- <-; reflexivity. }
    assert (Hlog : exists tail, log = (log1 ++ [ESpawn "git"
                     ["clone"; GitMcp.repoUrl cfg; repoPath]
                     (mkOptions "pipe" true None) cloned]
                   ++ [ESpawn (GitMcp.buildCommand cfg) []
                         (mkOptions "pipe" true (Some repoPath)) built]
                   ++ tail)%list
                 /\ forallb (fun ev => negb (GitMcp.is_spawn ev)) tail = true).
    { destruct r4 as [[]|e]; cbn in Hexec; injection Hexec as <- <- <-;
        eexists; (split; [reflexivity|]); rewrite ?app_nil_r; exact Hrep. }
    destruct Hlog as (tail & -> & Htail).
    apply in_app_or in Hbuild as [Hbuild|[Hbuild|[Hbuild|Hbuild]]].
    - now apply not_spawned in Hbuild.
    - discriminate Hbuild.
    - injection Hbuild as Hb. rewrite Hb. exact Hfail.
    - now apply not_spawned in Hbuild. }
  rewrite Hbuilt in Hsuccess. cbn in Hsuccess.
  destruct (report_build_warns b (snd (spawn wd w2 (GitMcp.buildCommand cfg) []
              (mkOptions "pipe" true (Some repoPath)))) Hsuccess) as (tail & Hrep).
  rewrite Hrep in Hexec. cbn in Hexec. injection Hexec as <- <- <-.
  split; [reflexivity|].
  apply in_or_app. right. right. right. now left.
Qed.

End Installers.

Lemma ensureRepo_refuses_unmanaged_dir_witness :
  Effects.exec Sample.world
    (Repo.ensureRepo NodePath.posix_join "https://example.org/skills.git" "/work/notes")
    ["/work/notes"; "/work/notes/todo.txt"]
  = (["/work/notes"; "/work/notes/todo.txt"],
     [Effects.EAccess "/work/notes" true;
      Effects.EAccess (NodePath.posix_join ["/work/notes"; ".git"]) false],
     Effects.Threw (Effects.Error
       ("Target exists but is not a git repo: " ++ "/work/notes"))).
Proof.
  apply (ensureRepo_refuses_unmanaged_dir Sample.world NodePath.posix_join
           ["/work/notes"; "/work/notes/todo.txt"]); reflexivity.
Defined.

Lemma installGitMcp_survives_build_failure_witness :
  snd Sample.wcag_run
  = Effects.Returned
      (GitMcp.mkDescriptor "wcag" (Js.VStr "stdio") (Js.VStr "node")
         (Js.VArr [Js.VStr "build/index.js"])
         "/Users/dev/Library/Application Support/a11y-devkit/mcp-repos/wcag")
  /\ In (Effects.EWarn GitMcp.build_warning) (snd (fst Sample.wcag_run)).
Proof.
  apply (installGitMcp_survives_build_failure Sample.world []
           (fst (fst Sample.wcag_run)) (snd (fst Sample.wcag_run))
           (snd Sample.wcag_run) Sample.wcag "global" "/work"
           (Paths.getPlatform Sample.mac) (Paths.getMcpRepoDir Sample.mac)).
  - reflexivity.
  - exists "", "". vm_compute. tauto.
  - exists (Effects.Closed (Some 1) "" "build failed").
    split; [reflexivity | vm_compute; tauto].
Defined.

(** ** The store: what [mergeServers] and [removeServers] write to *)

Section Store.
Import Js Heap.

Lemma length_update (h : heap) l f : length (update h l f) = length h.
Proof.
  revert l. induction h as [|c h IH]; intros [|l]; simpl; auto.
Qed.

Lemma nth_error_update_other (h : heap) l l' f :
  l' <> l -> nth_error (update h l f) l' = nth_error h l'.
Proof.
  revert l l'. induction h as [|c h IH]; intros [|l] [|l'] Hne; simpl; auto;
    congruence.
Qed.

Lemma extends_refl (h : heap) : extends h h.
Proof. split; [lia | intros l _; reflexivity]. Qed.

Lemma extends_alloc (h0 h : heap) c : extends h0 h -> extends h0 (h ++ [c])%list.
Proof.
  intros [Hlen Hsame]. split.
  - rewrite length_app. simpl. lia.
  - intros l Hl. rewrite nth_error_app1 by lia. now apply Hsame.
Qed.

Lemma extends_update (h0 h : heap) l f :
  extends h0 h -> length h0 <= l -> extends h0 (update h l f).
Proof.
  intros [Hlen Hsame] Hl. split.
  - now rewrite length_update.
  - intros l' Hl'. rewrite nth_error_update_other by lia. now apply Hsame.
Qed.

Lemma extends_write (h0 h : heap) v f :
  extends h0 h -> fresh h0 v -> extends h0 (snd (write v f h)).
Proof.
  intros Hext (l & -> & Hl). simpl. now apply extends_update.
Qed.

Lemma own_alloc (h : heap) l c :
  l < length h -> own (h ++ [c])%list (HRef l) = own h (HRef l).
Proof. intros Hl. simpl. now rewrite nth_error_app1. Qed.

Lemma own_update_other (h : heap) l l' f :
  l <> l' -> own (update h l' f) (HRef l) = own h (HRef l).
Proof. intros Hne. simpl. now rewrite nth_error_update_other. Qed.

Lemma own_new (h : heap) c : own (h ++ [c])%list (HRef (length h)) = props c.
Proof.
  simpl. rewrite nth_error_app2 by lia. now rewrite Nat.sub_diag.
Qed.

Lemma own_update_same (h : heap) l f :
  l < length h ->
  own (update h l (fun c => mkCell (is_array c) (f (props c)))) (HRef l)
  = f (own h (HRef l)).
Proof.
  revert l. induction h as [|c h IH]; intros [|l] Hl; simpl in *; try lia.
  - reflexivity.
  - apply IH. lia.
Qed.

Lemma merging_alloc h0 lm lc k doc h c :
  merging h0 lm lc k doc h -> merging h0 lm lc k doc (h ++ [c])%list.
Proof.
  intros (Hext & H1 & H2 & H3 & H4 & H5).
  split; [now apply extends_alloc|].
  split; [exact H1|]. split; [exact H2|]. split; [exact H3|].
  split; [rewrite length_app; lia | now rewrite own_alloc].
Qed.

Lemma merging_update h0 lm lc k doc h l f :
  merging h0 lm lc k doc h -> length h0 <= l -> l <> lm ->
  merging h0 lm lc k doc (update h l f).
Proof.
  intros (Hext & H1 & H2 & H3 & H4 & H5) Hl Hne.
  split; [now apply extends_update|].
  split; [exact H1|]. split; [exact H2|]. split; [exact H3|].
  split; [now rewrite length_update|].
  rewrite own_update_other by congruence. exact H5.
Qed.

Lemma preserves_bind (I : heap -> Prop) {A B : Type} (m : M A) (f : A -> M B)
    (Q : A -> Prop) (R : B -> Prop) :
  preserves I m Q -> (forall a, Q a -> preserves I (f a) R) ->
  preserves I (bind m f) R.
Proof.
  intros Hm Hf h Hh. unfold bind. destruct (Hm h Hh) as [H1 H2].
  destruct (m h) as [a h1]. now apply Hf.
Qed.

Lemma preserves_ret (I : heap -> Prop) {A : Type} (a : A) (Q : A -> Prop) :
  Q a -> preserves I (ret a) Q.
Proof. intros Ha h Hh. now split. Qed.

Lemma preserves_weaken (I : heap -> Prop) {A : Type} (m : M A) (Q R : A -> Prop) :
  preserves I m Q -> (forall a, Q a -> R a) -> preserves I m R.
Proof. intros Hm HQR h Hh. destruct (Hm h Hh). split; auto. Qed.

Lemma merging_new_object h0 lm lc k doc ps :
  preserves (merging h0 lm lc k doc) (new_object ps) (writable h0 lm).
Proof.
  intros h Hm. split; [now apply merging_alloc|].
  intros l [= <-]. destruct Hm as ((Hlen & _) & _ & _ & _ & Hlm & _).
  split; lia.
Qed.

Lemma merging_new_array h0 lm lc k doc :
  preserves (merging h0 lm lc k doc) new_array (fun _ => True).
Proof. intros h Hm. split; [now apply merging_alloc | exact I]. Qed.

Lemma merging_write h0 lm lc k doc v f :
  writable h0 lm v ->
  preserves (merging h0 lm lc k doc) (write v f) (fun _ => True).
Proof.
  intros Hv h Hm. split; [|exact I]. destruct v; try exact Hm.
  destruct (Hv l eq_refl). now apply merging_update.
Qed.

Lemma merging_set_prop h0 lm lc k doc v n x :
  writable h0 lm v ->
  preserves (merging h0 lm lc k doc) (set_prop v n x) (fun _ => True).
Proof. apply merging_write. Qed.

Lemma merging_assign_prop h0 lm lc k doc v n x :
  writable h0 lm v ->
  preserves (merging h0 lm lc k doc) (assign_prop v n x) (fun _ => True).
Proof. apply merging_write. Qed.

Lemma merging_get_section h0 lm lc k doc :
  preserves (merging h0 lm lc k doc) (get_prop (HRef lm) k) (writable h0 lm).
Proof.
  intros h Hm. split; [exact Hm|]. cbn [get_prop fst].
  destruct Hm as (_ & _ & Hlc & Hne & _ & ->). rewrite oget_oset_same.
  intros l [= <-]. split; [exact Hlc | congruence].
Qed.

(** The loop of [mergeServers] writes into cells allocated after the
    call and nowhere else. *)
Lemma merge_each_frame h0 lm lc k doc (incoming : list Heap.server) :
  preserves (merging h0 lm lc k doc)
    (for_each incoming (merge_one (HRef lm) k)) (fun _ => True).
Proof.
  induction incoming as [|s rest IH]; [now apply preserves_ret|].
  cbn [for_each].
  eapply preserves_bind; [|intros _ _; exact IH]. unfold merge_one.
  eapply preserves_bind; [apply merging_new_object|]. intros cfg Hcfg.
  eapply preserves_bind with (Q := fun _ => True).
  { destruct (truthy (args s)); [now apply preserves_ret | apply merging_new_array]. }
  intros given _.
  eapply preserves_bind; [now apply merging_set_prop|]. intros _ _.
  eapply preserves_bind with (Q := fun _ => True).
  { destruct (truthy (type s)); [now apply merging_set_prop | now apply preserves_ret]. }
  intros _ _.
  eapply preserves_bind; [apply merging_get_section|]. intros target Ht.
  now apply merging_assign_prop.
Qed.

Lemma own_extends (h0 h : heap) l :
  extends h0 h -> l < length h0 -> own h (HRef l) = own h0 (HRef l).
Proof. intros [_ Hsame] Hl. simpl. now rewrite Hsame. Qed.

(** What [existing] holds is read the same before and after an empty
    object was allocated. *)
Lemma own_after_empty (h : heap) v b :
  own (h ++ [mkCell b []])%list v = own h v.
Proof.
  destruct v as [| | | | |l]; try reflexivity. simpl.
  destruct (Nat.lt_ge_cases l (length h)) as [Hl|Hl].
  - now rewrite nth_error_app1.
  - rewrite nth_error_app2 by lia.
    rewrite (proj2 (nth_error_None h l)) by lia.
    destruct (l - length h) as [|[|n]]; reflexivity.
Qed.

Lemma mergeServers_frame (h : heap) (existing : loc) incoming k :
  exists lm lc h',
    Heap.mergeServers existing incoming k h = (HRef lm, h')
    /\ merging h lm lc k (own h (HRef existing)) h'.
Proof.
  unfold Heap.mergeServers. unfold bind at 1. cbn [get_prop].
  set (section := match oget (own h (HRef existing)) k with
                  | Some x => x | None => HUndef end).
  unfold bind at 1.
  assert (Hstart : exists es h1,
            (if truthy section && typeof_object section
             then ret section else new_object []) h = (es, h1)
            /\ extends h h1 /\ own h1 (HRef existing) = own h (HRef existing)).
  { destruct (truthy section && typeof_object section); eexists; eexists;
      (split; [reflexivity|]); split.
    - apply extends_refl.
    - reflexivity.
    - apply extends_alloc, extends_refl.
    - apply own_after_empty. }
  destruct Hstart as (es & h1 & -> & Hext1 & Hown1).
  unfold bind at 1. cbn [copy_of new_object].
  unfold bind at 1. cbn [copy_of new_object].
  unfold bind at 1. cbn [set_prop write].
  set (lm := length h1).
  set (h2 := (h1 ++ [mkCell false (own h1 (HRef existing))])%list).
  set (lc := length h2).
  set (h3 := (h2 ++ [mkCell false (own h2 es)])%list).
  set (doc := fun c => mkCell (is_array c) (oset (props c) k (HRef lc))).
  assert (Hlen2 : length h2 = S lm) by (subst h2; rewrite length_app; simpl; lia).
  assert (Hlen3 : length h3 = S (S lm)) by (subst h3; rewrite length_app; simpl; lia).
  assert (Hm : merging h lm lc k (own h (HRef existing)) (update h3 lm doc)).
  { destruct Hext1 as [Hlen1 Hsame1]. fold lm in Hlen1.
    split; [|split; [exact Hlen1|split; [lia|split; [lia|split]]]].
    - apply extends_update; [|exact Hlen1].
      apply extends_alloc, extends_alloc. now split.
    - rewrite length_update. lia.
    - subst doc.
      pose proof (own_update_same h3 lm (fun ps => oset ps k (HRef lc))) as Hu.
      cbv beta in Hu. rewrite Hu by lia. clear Hu.
      subst h3. rewrite own_alloc by lia. subst h2. unfold lm.
      rewrite own_new. cbn [props]. now rewrite Hown1. }
  unfold bind at 1.
  destruct (merge_each_frame h lm lc k (own h (HRef existing)) incoming _ Hm)
    as [Hfinal _].
  match goal with
  | |- context [let (_, h') := ?loop ?hh in _] =>
      change (loop hh) with (loop hh) in Hfinal; destruct (loop hh) as [[] h5]
  end.
  exists lm, lc, h5. split; [reflexivity | exact Hfinal].
Qed.

Lemma extends_remove_each (h0 : heap) lu names : forall r,
  length h0 <= lu ->
  preserves (extends h0) (remove_each (HRef lu) names r) (fun _ => True).
Proof.
  induction names as [|n rest IH]; intros r Hlu; [now apply preserves_ret|].
  cbn [remove_each]. intros h Hh. unfold bind at 1. cbn [has_own].
  destruct (hasOwn (own h (HRef lu)) n).
  - unfold bind at 1. cbn [delete_prop write]. apply IH; [exact Hlu|].
    now apply extends_update.
  - now apply IH.
Qed.

Lemma own_some_within (h : heap) v k x :
  oget (own h v) k = Some x -> exists l, v = HRef l /\ l < length h.
Proof.
  destruct v as [| | | | |l]; try discriminate. simpl.
  destruct (nth_error h l) as [c|] eqn:E; [|discriminate].
  intros _. exists l. split; [reflexivity|].
  apply nth_error_Some. now rewrite E.
Qed.

Lemma removeServers_frame (h : heap) (existing : loc) names k :
  exists updated removed h',
    Heap.removeServers existing names k h = (updated, removed, h')
    /\ extends h h'
    /\ (updated = HRef existing
        \/ (fresh h updated
            /\ (own h' updated = odelete (own h (HRef existing)) k
                \/ exists remaining,
                     fresh h remaining
                     /\ own h' updated
                        = oset (own h (HRef existing)) k remaining))).
Proof.
  unfold Heap.removeServers. unfold bind at 1. cbn [get_prop].
  destruct (oget (own h (HRef existing)) k) as [section|] eqn:Esec.
  2:{ cbn [truthy typeof_object andb negb].
      do 3 eexists. split; [reflexivity|]. split; [apply extends_refl | now left]. }
  destruct (own_some_within h (HRef existing) k section Esec) as (le & [= <-] & Hle).
  destruct (negb (truthy section && typeof_object section)).
  { do 3 eexists. split; [reflexivity|]. split; [apply extends_refl | now left]. }
  unfold bind at 1. cbn [copy_of new_object].
  set (h1 := (h ++ [mkCell false (own h section)])%list).
  assert (H1 : extends h h1) by apply extends_alloc, extends_refl.
  unfold bind at 1.
  destruct (extends_remove_each h (length h) names 0 (le_n _) h1 H1) as [H2 _].
  destruct (remove_each (HRef (length h)) names 0 h1) as [removed h2].
  cbn [snd] in H2.
  destruct (removed =? 0)%nat.
  { do 3 eexists. split; [reflexivity|]. split; [exact H2 | now left]. }
  unfold bind at 1. cbn [copy_of new_object].
  unfold bind at 1. cbn [count_keys].
  set (h3 := (h2 ++ [mkCell false (own h2 (HRef existing))])%list).
  assert (H3 : extends h h3) by now apply extends_alloc.
  assert (Hlu : length h <= length h2) by apply H2.
  assert (Hlen3 : length h2 < length h3)
    by (subst h3; rewrite length_app; simpl; lia).
  assert (Hnew : own h3 (HRef (length h2)) = own h (HRef existing)).
  { subst h3. rewrite own_new. cbn [props]. now apply own_extends. }
  unfold bind at 1.
  assert (Hhas : hasOwn (own h (HRef existing)) k = true).
  { apply hasOwn_true. rewrite Esec. discriminate. }
  destruct (length (own h3 (HRef (length h))) =? 0)%nat;
    cbn [delete_prop assign_prop write ret fst snd]; do 3 eexists;
    (split; [reflexivity|]);
    (split; [now apply extends_update|]); right;
    (split; [exists (length h2); split; [reflexivity | exact Hlu]|]).
  - left.
    pose proof (own_update_same h3 (length h2) (fun ps => odelete ps k) Hlen3) as Hu.
    cbv beta in Hu. now rewrite Hu, Hnew.
  - right. exists (HRef (length h)). split; [now exists (length h)|].
    pose proof (own_update_same h3 (length h2)
                  (fun ps => assign ps k (HRef (length h))) Hlen3) as Hu.
    cbv beta in Hu. rewrite Hu, Hnew. now apply assign_own.
Qed.

(** In a store that is closed, what was there reads the same as long as
    its cells are untouched. *)
Lemma read_untouched (h h' : heap) :
  closed h -> untouched h h' ->
  forall depth v, within h v -> read depth h' v = read depth h v.
Proof.
  intros Hclosed Hsame. induction depth as [|depth IH]; intros v Hv;
    destruct v as [| | | | |l]; try reflexivity.
  cbn [read]. rewrite (Hsame l (Hv l eq_refl)).
  destruct (nth_error h l) as [c|] eqn:Ec; [|reflexivity].
  assert (Hin : forall p, In p (props c) -> read depth h' (snd p) = read depth h (snd p)).
  { intros [key x] Hp. apply IH. intros l' E. cbn [snd] in E. subst x.
    exact (Hclosed l c key l' Ec Hp). }
  destruct (is_array c); f_equal; apply map_ext_in; intros p Hp;
    now rewrite (Hin p Hp).
Qed.

(** C10.  Neither function writes to a cell that existed when it was
    called: all of them, the document and its section mapping among them,
    hold afterwards what they held before, and in a closed store the
    document reads the same to any depth.  [mergeServers] returns a new
    cell holding the properties of [existing] with the section key
    redirected to another new cell; [removeServers] returns [existing]
    itself, or a new cell holding the properties of [existing] with the
    section key deleted or redirected to a new cell. *)
Theorem merge_and_remove_leave_input_untouched
    (h : heap) (existing : loc) (incoming : list Heap.server)
    (names : list string) (k : string) :
  (let h' := snd (Heap.mergeServers existing incoming k h) in
   let merged := fst (Heap.mergeServers existing incoming k h) in
   untouched h h'
   /\ (closed h -> existing < length h ->
       forall depth,
         read depth h' (HRef existing) = read depth h (HRef existing))
   /\ fresh h merged
   /\ exists copied,
        fresh h copied
        /\ own h' merged = oset (own h (HRef existing)) k copied)
  /\ (let h' := snd (Heap.removeServers existing names k h) in
      let updated := fst (fst (Heap.removeServers existing names k h)) in
      untouched h h'
      /\ (closed h -> existing < length h ->
          forall depth,
            read depth h' (HRef existing) = read depth h (HRef existing))
      /\ (updated = HRef existing
          \/ (fresh h updated
              /\ (own h' updated = odelete (own h (HRef existing)) k
                  \/ exists remaining,
                       fresh h remaining
                       /\ own h' updated
                          = oset (own h (HRef existing)) k remaining)))).
Proof.
  split.
  - destruct (mergeServers_frame h existing incoming k)
      as (lm & lc & h' & -> & (Hext & Hlm & Hlc & _ & _ & Hown)).
    cbn [fst snd]. split; [apply Hext|]. split.
    { intros Hc Hw depth.
      apply read_untouched; [exact Hc | apply Hext | now intros l [= <-]]. }
    split; [now exists lm|].
    exists (HRef lc). split; [now exists lc | exact Hown].
  - destruct (removeServers_frame h existing names k)
      as (updated & removed & h' & -> & Hext & Hres).
    cbn [fst snd]. split; [apply Hext|]. split; [|exact Hres].
    intros Hc Hw depth.
    apply read_untouched; [exact Hc | apply Hext | now intros l [= <-]].
Qed.

(** On the sample store the two readings of [mergeServers] agree: the
    document returned in the store reads as the document computed on
    the tree. *)
Example store_and_tree_agree :
  let incoming := [Heap.mkServer "aria" (HStr "npx") HUndef (HStr "stdio")] in
  let run := Heap.mergeServers 0 incoming "servers" Sample.store in
  read 4 (snd run) (fst run)
  = VObj (McpConfig.mergeServers (entries (read 4 Sample.store (HRef 0)))
            [McpConfig.mkServer "aria" (VStr "npx") VUndef (VStr "stdio")]
            "servers").
Proof. reflexivity. Qed.

Lemma sample_store_closed : closed Sample.store.
Proof.
  intros l c key x Hl Hin.
  do 3 (destruct l as [|l];
        [injection Hl as <-; cbn in Hin;
         repeat (destruct Hin as [Hin|Hin];
                 [first [discriminate Hin | injection Hin as _ <-; cbn; lia]|]);
         contradiction|]).
  destruct l; discriminate.
Qed.

Lemma merge_and_remove_leave_input_untouched_witness :
  let incoming := [Heap.mkServer "aria" (HStr "npx") HUndef HUndef] in
  read 3 (snd (Heap.mergeServers 0 incoming "servers" Sample.store)) (HRef 0)
  = VObj [("theme", VStr "dark");
          ("servers", VObj [("wcag", VObj [("command", VStr "node")])])]
  /\ read 3 (snd (Heap.removeServers 0 ["wcag"] "servers" Sample.store))
       (HRef 0)
     = VObj [("theme", VStr "dark");
             ("servers", VObj [("wcag", VObj [("command", VStr "node")])])].
Proof.
  intros incoming.
  destruct (merge_and_remove_leave_input_untouched Sample.store 0
              incoming ["wcag"] "servers")
    as [(_ & Hmerge & _) (_ & Hremove & _)].
  assert (Hw : 0 < length Sample.store) by (cbn; lia).
  split.
  - now rewrite (Hmerge sample_store_closed Hw 3).
  - now rewrite (Hremove sample_store_closed Hw 3).
Defined.

(** ** The store reading refines the tree reading *)

Lemma value_induction (P : value -> Prop) :
  P VUndef -> P VNull -> (forall b, P (VBool b)) -> (forall r, P (VNum r)) ->
  (forall s, P (VStr s)) ->
  (forall items, Forall P items -> P (VArr items)) ->
  (forall o, Forall (fun kt => P (snd kt)) o -> P (VObj o)) ->
  forall v, P v.
Proof.
  intros Hu Hn Hb Hr Hs Ha Ho.
  fix go 1. intros [| |b|r|s|items|o].
  - exact Hu.
  - exact Hn.
  - apply Hb.
  - apply Hr.
  - apply Hs.
  - apply Ha. induction items as [|t items IH]; constructor; [apply go | exact IH].
  - apply Ho. induction o as [|[k t] o IH]; constructor; [apply go | exact IH].
Qed.

Lemma shows_object keep h (o : obj) v :
  shows keep h (VObj o) v <->
  exists l ps, v = HRef l /\ keep l = true
               /\ nth_error h l = Some (mkCell false ps)
               /\ alike (shows keep h) o ps.
Proof.
  cbn [shows]. split; intros (l & ps & Hv & Hk & Hc & H); exists l, ps;
    repeat (split; [assumption|]); clear Hc.
  - revert ps H. induction o as [|[k t] o IH]; intros [|[k' x] ps] H;
      try contradiction; [constructor|].
    destruct H as (-> & Ht & H). constructor; [now split | now apply IH].
  - revert ps H. induction o as [|[k t] o IH]; intros ps H; inversion H; subst;
      [exact I|].
    destruct y as [k' x]. cbn [fst snd] in *. destruct H2 as [-> Ht].
    split; [reflexivity|]. split; [exact Ht | now apply IH].
Qed.

Lemma shows_array keep h items v :
  shows keep h (VArr items) v <->
  exists l ps, v = HRef l /\ keep l = true
               /\ nth_error h l = Some (mkCell true ps)
               /\ alike (shows keep h) (indexed_from 0 items) ps.
Proof.
  cbn [shows]. generalize 0 as n.
  intros n. split; intros (l & ps & Hv & Hk & Hc & H); exists l, ps;
    repeat (split; [assumption|]); clear Hc.
  - revert n ps H. induction items as [|t items IH]; intros n [|[k' x] ps] H;
      try contradiction; [constructor|].
    destruct H as (-> & Ht & H). constructor; [now split | now apply IH].
  - revert n ps H. induction items as [|t items IH]; intros n ps H;
      inversion H; subst; [exact I|].
    destruct y as [k' x]. cbn [fst snd] in *. destruct H2 as [-> Ht].
    split; [reflexivity|]. split; [exact Ht | now apply IH].
Qed.

Lemma alike_impl (R R' : value -> hval -> Prop) (o : obj) ps :
  Forall (fun kt => forall x, R (snd kt) x -> R' (snd kt) x) o ->
  alike R o ps -> alike R' o ps.
Proof.
  intros HF H. induction H as [|kt kx o ps [Hk HR] _ IH]; [constructor|].
  inversion HF; subst. constructor; [split; auto | now apply IH].
Qed.

Lemma Forall_indexed (P : value -> Prop) items : forall n,
  Forall P items -> Forall (fun kt => P (snd kt)) (indexed_from n items).
Proof.
  induction items as [|t items IH]; intros n H; [constructor|].
  inversion H; subst. constructor; [assumption | now apply IH].
Qed.

Lemma shows_change keep keep' h h' :
  (forall l c, keep l = true -> nth_error h l = Some c ->
               keep' l = true /\ nth_error h' l = Some c) ->
  forall t v, shows keep h t v -> shows keep' h' t v.
Proof.
  intros Hcell. induction t as [| |b|r|s|items IH|o IH] using value_induction;
    intros v H; try exact H.
  - apply shows_array in H as (l & ps & -> & Hk & Hc & H). apply shows_array.
    destruct (Hcell l _ Hk Hc) as [Hk' Hc']. exists l, ps.
    split; [reflexivity|]. split; [exact Hk'|]. split; [exact Hc'|].
    revert H. apply alike_impl.
    exact (Forall_indexed
             (fun t => forall x, shows keep h t x -> shows keep' h' t x)
             items 0 IH).
  - apply shows_object in H as (l & ps & -> & Hk & Hc & H). apply shows_object.
    destruct (Hcell l _ Hk Hc) as [Hk' Hc']. exists l, ps.
    split; [reflexivity|]. split; [exact Hk'|]. split; [exact Hc'|].
    revert H. now apply alike_impl.
Qed.

(** What a store shows it still shows after the cells it was read from
    were left alone. *)
Lemma shows_stable keep h h' t v :
  preserved keep h h' -> shows keep h t v -> shows keep h' t v.
Proof.
  intros Hp. apply shows_change. intros l c Hk Hc. split; [exact Hk | now apply Hp].
Qed.

Lemma shows_anywhere keep h t v : shows keep h t v -> shows anywhere h t v.
Proof. apply shows_change. intros l c _ Hc. now split. Qed.

Lemma shows_truthy keep h t v :
  shows keep h t v ->
  Js.truthy t = truthy v /\ Js.typeof_object t = typeof_object v.
Proof.
  destruct t; cbn [shows]; intros H;
    try (subst v; now split);
    destruct H as (l & ps & -> & _); now split.
Qed.

Lemma shows_entries keep h t v :
  shows keep h t v -> Js.truthy t && Js.typeof_object t = true ->
  alike (shows keep h) (entries t) (own h v).
Proof.
  destruct t as [| |b|r|s|items|o]; intros H E;
    cbn [Js.truthy Js.typeof_object] in E; rewrite ?andb_false_r in E;
    try discriminate.
  - apply shows_array in H as (l & ps & -> & _ & Hc & H).
    cbn [entries own]. now rewrite Hc.
  - apply shows_object in H as (l & ps & -> & _ & Hc & H).
    cbn [entries own]. now rewrite Hc.
Qed.

Section Alike.
Variable R : value -> hval -> Prop.

Lemma alike_oget (o : obj) ps k :
  alike R o ps ->
  match oget o k, oget ps k with
  | Some t, Some x => R t x
  | None, None => True
  | _, _ => False
  end.
Proof.
  intros H. induction H as [|[k1 t] [k2 x] o ps [Hk HR] _ IH]; [exact I|].
  cbn [fst snd] in *. subst k2. cbn [oget]. now destruct (k1 =? k).
Qed.

Lemma alike_hasOwn (o : obj) ps k : alike R o ps -> hasOwn ps k = hasOwn o k.
Proof.
  intros H. induction H as [|[k1 t] [k2 x] o ps [Hk HR] _ IH]; [reflexivity|].
  cbn [fst snd] in *. subst k2. cbn [hasOwn existsb fst].
  unfold hasOwn in IH. now rewrite IH.
Qed.

Lemma alike_oset (o : obj) ps k t x :
  alike R o ps -> R t x -> alike R (oset o k t) (oset ps k x).
Proof.
  intros H Ht. induction H as [|[k1 t1] [k2 x1] o ps [Hk HR] Hrest IH].
  - constructor; [now split | constructor].
  - cbn [fst snd] in *. subst k2. cbn [oset]. destruct (k1 =? k).
    + constructor; [now split | exact Hrest].
    + constructor; [now split | exact IH].
Qed.

Lemma alike_assign (o : obj) ps k t x :
  alike R o ps -> R t x -> alike R (assign o k t) (assign ps k x).
Proof.
  intros H Ht. unfold assign. rewrite (alike_hasOwn o ps k H).
  destruct ((k =? "__proto__") && negb (hasOwn o k)); [exact H|].
  now apply alike_oset.
Qed.

Lemma alike_odelete (o : obj) ps k :
  alike R o ps -> alike R (odelete o k) (odelete ps k).
Proof.
  intros H. induction H as [|[k1 t1] [k2 x1] o ps [Hk HR] Hrest IH];
    [constructor|].
  cbn [fst snd] in *. subst k2. unfold odelete. cbn [filter fst].
  destruct (negb (k1 =? k)); [constructor; [now split|]|]; exact IH.
Qed.

Lemma alike_length (o : obj) ps : alike R o ps -> length ps = length o.
Proof. intros H. symmetry. exact (Forall2_length H). Qed.

End Alike.

(** *** One round of the loop of [mergeServers] *)

Lemma nth_error_update_same (h : heap) l f c :
  nth_error h l = Some c -> nth_error (update h l f) l = Some (f c).
Proof.
  revert l. induction h as [|c0 h IH]; intros [|l] H; cbn in *; try discriminate.
  - now inversion H.
  - now apply IH.
Qed.

Lemma nth_error_new (h : heap) c : nth_error (h ++ [c])%list (length h) = Some c.
Proof. rewrite nth_error_app2, Nat.sub_diag by lia. reflexivity. Qed.

Lemma nth_error_old (h : heap) c l :
  l < length h -> nth_error (h ++ [c])%list l = nth_error h l.
Proof. intros H. now apply nth_error_app1. Qed.

(** What one round does to the store: it allocates the configuration at
    the end of the store, an empty array after it when the server has no
    [args], and writes the section cell [lc]; every other cell stays. *)
Lemma merge_one_runs (h : heap) lm lc k s doc pc :
  lm <> lc ->
  nth_error h lm = Some (mkCell false doc) -> oget doc k = Some (HRef lc) ->
  nth_error h lc = Some (mkCell false pc) ->
  exists h' given,
    merge_one (HRef lm) k s h = (tt, h')
    /\ length h < length h'
    /\ (forall l, l < length h -> l <> lc -> nth_error h' l = nth_error h l)
    /\ nth_error h' lc
       = Some (mkCell false (assign pc (Heap.name s) (HRef (length h))))
    /\ nth_error h' (length h) = Some (mkCell false (config_props s given))
    /\ (if truthy (Heap.args s) then given = Heap.args s
        else given = HRef (S (length h))
             /\ nth_error h' (S (length h)) = Some (mkCell true [])).
Proof.
  intros Hne Hm Hk Hc.
  assert (Lm : lm < length h) by (apply nth_error_Some; congruence).
  assert (Lc : lc < length h) by (apply nth_error_Some; congruence).
  set (c0 := mkCell false [("command", Heap.command s)]).
  set (h1 := (h ++ [c0])%list).
  set (h2 := if truthy (Heap.args s) then h1 else (h1 ++ [mkCell true []])%list).
  set (given := if truthy (Heap.args s) then Heap.args s else HRef (S (length h))).
  set (h3 := update h2 (length h)
               (fun c => mkCell (is_array c) (oset (props c) "args" given))).
  set (h4 := if truthy (Heap.type s)
             then update h3 (length h)
                    (fun c => mkCell (is_array c)
                                (oset (props c) "type" (Heap.type s)))
             else h3).
  set (h5 := update h4 lc
               (fun c => mkCell (is_array c)
                           (assign (props c) (Heap.name s) (HRef (length h))))).
  assert (L1 : length h1 = S (length h))
    by (unfold h1; rewrite length_app; cbn; lia).
  assert (L2 : length h < length h2)
    by (unfold h2; destruct (truthy (Heap.args s));
        rewrite ?length_app; cbn; lia).
  assert (O2 : forall l, l < length h -> nth_error h2 l = nth_error h l).
  { intros l Hl. unfold h2. destruct (truthy (Heap.args s)).
    - now apply nth_error_old.
    - rewrite nth_error_old by lia. now apply nth_error_old. }
  assert (N2 : nth_error h2 (length h) = Some c0).
  { unfold h2. destruct (truthy (Heap.args s)).
    - apply nth_error_new.
    - rewrite nth_error_old by lia. apply nth_error_new. }
  assert (O3 : forall l, l < length h -> nth_error h3 l = nth_error h l).
  { intros l Hl. unfold h3. rewrite nth_error_update_other by lia. now apply O2. }
  assert (N3 : nth_error h3 (length h)
               = Some (mkCell false [("command", Heap.command s); ("args", given)])).
  { unfold h3. now rewrite (nth_error_update_same _ _ _ _ N2). }
  assert (O4 : forall l, l < length h -> nth_error h4 l = nth_error h l).
  { intros l Hl. unfold h4. destruct (truthy (Heap.type s)); [|now apply O3].
    rewrite nth_error_update_other by lia. now apply O3. }
  assert (N4 : nth_error h4 (length h) = Some (mkCell false (config_props s given))).
  { unfold h4, config_props. destruct (truthy (Heap.type s)); [|exact N3].
    now rewrite (nth_error_update_same _ _ _ _ N3). }
  assert (L4 : length h4 = length h2).
  { unfold h4, h3. destruct (truthy (Heap.type s)); now rewrite ?length_update. }
  exists h5, given. split; [|split; [|split; [|split; [|split]]]].
  - assert (G : oget (own h4 (HRef lm)) k = Some (HRef lc))
      by (cbn [own]; rewrite (O4 lm Lm), Hm; exact Hk).
    revert G. unfold h5, h4, h3, h2, given, h1, c0.
    unfold merge_one, bind, new_object, set_prop, write, get_prop, assign_prop,
      ret, new_array.
    destruct (truthy (Heap.args s)), (truthy (Heap.type s)); cbv beta iota;
      rewrite ?length_app; cbn [length]; rewrite ?Nat.add_1_r;
      intros G; rewrite G; reflexivity.
  - unfold h5. rewrite length_update. lia.
  - intros l Hl Hlc. unfold h5. rewrite nth_error_update_other by congruence.
    now apply O4.
  - unfold h5. rewrite (nth_error_update_same _ _ _ (mkCell false pc)); [reflexivity|].
    now rewrite O4.
  - unfold h5. rewrite nth_error_update_other by lia. exact N4.
  - unfold given. destruct (truthy (Heap.args s)) eqn:Ea; [reflexivity|].
    split; [reflexivity|]. unfold h5. rewrite nth_error_update_other by lia.
    unfold h4. destruct (truthy (Heap.type s));
      rewrite ?nth_error_update_other by lia; unfold h3;
      rewrite nth_error_update_other by lia; unfold h2; rewrite <- L1;
      apply nth_error_new.
Qed.

Lemma shows_inside keep h t v : shows keep h t v -> shows (inside h) h t v.
Proof.
  apply shows_change. intros l c _ Hc. split; [|exact Hc].
  apply Nat.ltb_lt, nth_error_Some. congruence.
Qed.

(** What the store of the call showed, a later store shows beside the two
    new cells. *)
Lemma shows_old h0 h lm lc t v :
  extends h0 h -> length h0 <= lm -> length h0 <= lc ->
  shows (inside h0) h0 t v -> shows (beside lm lc) h t v.
Proof.
  intros [_ Hsame] Hlm Hlc. apply shows_change. intros l c Hin Hc.
  apply Nat.ltb_lt in Hin. split.
  - unfold beside. apply andb_true_iff.
    split; apply negb_true_iff, Nat.eqb_neq; lia.
  - now rewrite Hsame.
Qed.

Lemma alike_shows_change keep keep' h h' (o : obj) ps :
  (forall t v, shows keep h t v -> shows keep' h' t v) ->
  alike (shows keep h) o ps -> alike (shows keep' h') o ps.
Proof.
  intros H. apply alike_impl. apply Forall_forall. intros kt _ x. apply H.
Qed.

Lemma beside_fresh (h : heap) lm lc l :
  lm < length h -> lc < length h -> length h <= l -> beside lm lc l = true.
Proof.
  intros Hm Hc Hl. unfold beside. apply andb_true_iff.
  split; apply negb_true_iff, Nat.eqb_neq; lia.
Qed.

(** One round adds to the section shown what [add_server] adds to the
    section of the tree reading. *)
Lemma merge_one_shows h0 lm lc doc k sect h t s :
  merged_so_far h0 lm lc doc k sect h ->
  shows_server (inside h0) h0 t s ->
  merged_so_far h0 lm lc doc k (McpConfig.add_server sect t)
    (snd (merge_one (HRef lm) k s h)).
Proof.
  intros (Hext & Hlm & Hlc & Hne & Hm & Hk & pc & Hc & Hsect)
         (Hname & Hcmd & Hargs & Htype).
  assert (Lm : lm < length h) by (apply nth_error_Some; congruence).
  assert (Lc : lc < length h) by (apply nth_error_Some; congruence).
  destruct (merge_one_runs h lm lc k s doc pc Hne Hm Hk Hc)
    as (h' & given & -> & Hlen & Hold & Hc' & Hcfg & Hgiven).
  cbn [snd].
  assert (Hext' : extends h0 h').
  { destruct Hext as [Hle Hsame]. split; [lia|].
    intros l Hl. rewrite Hold by lia. now apply Hsame. }
  assert (Hkeep : forall u v, shows (beside lm lc) h u v ->
                              shows (beside lm lc) h' u v).
  { intros u v. apply shows_stable. intros l c Hb Hl.
    unfold beside in Hb. apply andb_true_iff in Hb as [_ Hb].
    apply negb_true_iff, Nat.eqb_neq in Hb.
    rewrite Hold; [exact Hl | | exact Hb].
    apply nth_error_Some. congruence. }
  repeat (split; [assumption|]).
  split; [rewrite Hold by lia; exact Hm|]. split; [exact Hk|].
  eexists. split; [exact Hc'|].
  unfold McpConfig.add_server. rewrite Hname. apply alike_assign.
  { revert Hsect. now apply alike_shows_change. }
  apply shows_object. exists (length h), (config_props s given).
  split; [reflexivity|].
  split; [apply (beside_fresh h); lia|]. split; [exact Hcfg|].
  assert (Hbase : alike (shows (beside lm lc) h')
                    [("command", McpConfig.command t);
                     ("args", McpConfig.or_else (McpConfig.args t) (VArr []))]
                    [("command", Heap.command s); ("args", given)]).
  { constructor; [split; [reflexivity|]; now apply (shows_old h0)|].
    constructor; [|constructor]. split; [reflexivity|]. cbn [snd].
    unfold McpConfig.or_else. rewrite (proj1 (shows_truthy _ _ _ _ Hargs)).
    destruct (truthy (Heap.args s)).
    - subst given. now apply (shows_old h0).
    - destruct Hgiven as [-> Harr]. apply shows_array.
      exists (S (length h)), []. split; [reflexivity|].
      split; [apply (beside_fresh h); lia|]. split; [exact Harr|]. constructor. }
  unfold McpConfig.serverConfig, config_props.
  rewrite (proj1 (shows_truthy _ _ _ _ Htype)).
  destruct (truthy (Heap.type s)); [|exact Hbase].
  apply alike_oset; [exact Hbase | now apply (shows_old h0)].
Qed.

Lemma merge_each_shows h0 lm lc doc k servers incoming :
  Forall2 (shows_server (inside h0) h0) servers incoming ->
  forall sect h,
    merged_so_far h0 lm lc doc k sect h ->
    merged_so_far h0 lm lc doc k (fold_left McpConfig.add_server servers sect)
      (snd (for_each incoming (merge_one (HRef lm) k) h)).
Proof.
  induction 1 as [|t s servers incoming Hts _ IH]; intros sect h Hinv; [exact Hinv|].
  cbn [for_each fold_left]. unfold bind.
  pose proof (merge_one_shows _ _ _ _ _ _ _ _ _ Hinv Hts) as Hstep.
  destruct (merge_one (HRef lm) k s h) as [u h']. now apply IH.
Qed.

(** From the copies on: the document [ps] and the section [own h1 es]
    that were read from the store of the call. *)
Lemma merge_copies_show h0 h1 existing ps es (D sect : obj) servers incoming k :
  extends h0 h1 -> nth_error h0 existing = Some (mkCell false ps) ->
  within h1 es ->
  alike (shows (inside h0) h0) D ps ->
  alike (shows (inside h0) h0) sect (own h1 es) ->
  Forall2 (shows_server (inside h0) h0) servers incoming ->
  forall run,
    run = (merged <- copy_of (HRef existing) ;;
           copied <- copy_of es ;;
           set_prop merged k copied ;;
           for_each incoming (merge_one merged k) ;;
           ret merged)%heap h1 ->
    shows anywhere (snd run)
      (VObj (oset D k (VObj (fold_left McpConfig.add_server servers sect)))) (fst run).
Proof.
  intros Hext Hdoc Hes HD Hsect HS run ->.
  assert (Le : existing < length h0) by (apply nth_error_Some; congruence).
  set (lm := length h1).
  set (h2 := (h1 ++ [mkCell false ps])%list).
  set (lc := S (length h1)).
  set (h3 := (h2 ++ [mkCell false (own h1 es)])%list).
  set (doc := oset ps k (HRef lc)).
  set (h4 := update h3 lm (fun c => mkCell (is_array c) (oset (props c) k (HRef lc)))).
  assert (L2 : length h2 = lc) by (unfold h2, lc; rewrite length_app; cbn; lia).
  assert (E2 : own h2 es = own h1 es).
  { destruct es as [| | | | |l]; try reflexivity.
    apply own_alloc. now apply Hes. }
  assert (Eps : own h1 (HRef existing) = ps).
  { rewrite (own_extends h0 h1 existing Hext Le). cbn [own]. now rewrite Hdoc. }
  assert (Hinv : merged_so_far h0 lm lc doc k sect h4).
  { destruct Hext as [Hle Hsame].
    assert (N3m : nth_error h3 lm = Some (mkCell false ps)).
    { unfold h3. rewrite nth_error_old by lia. apply nth_error_new. }
    split; [|split; [|split; [|split; [|split; [|split]]]]];
      try (unfold lm, lc; lia).
    - split.
      + unfold h4. rewrite length_update. unfold h3.
        rewrite length_app. lia.
      + intros l Hl. unfold h4. rewrite nth_error_update_other by (unfold lm; lia).
        unfold h3. rewrite nth_error_old by lia. unfold h2.
        rewrite nth_error_old by lia. now apply Hsame.
    - unfold h4. now rewrite (nth_error_update_same _ _ _ _ N3m).
    - unfold doc. apply oget_oset_same.
    - exists (own h1 es). split.
      + unfold h4. rewrite nth_error_update_other by (unfold lm, lc; lia).
        unfold h3. rewrite <- L2. apply nth_error_new.
      + revert Hsect. apply alike_shows_change. intros t v.
        apply (shows_old h0); [|unfold lm; lia | unfold lc; lia].
        split.
        * unfold h4. rewrite length_update. unfold h3. rewrite length_app. lia.
        * intros l Hl. unfold h4.
          rewrite nth_error_update_other by (unfold lm; lia).
          unfold h3. rewrite nth_error_old by lia. unfold h2.
          rewrite nth_error_old by lia. now apply Hsame. }
  pose proof (merge_each_shows h0 lm lc doc k servers incoming HS sect h4 Hinv) as Hend.
  unfold bind, copy_of, new_object, set_prop, write, ret.
  rewrite Eps. fold h2. fold lm. rewrite E2, L2. fold h3. fold h4.
  destruct (for_each incoming (merge_one (HRef lm) k) h4) as [u h5].
  cbn [fst snd] in *.
  destruct Hend as (Hext5 & Hlm & Hlc & Hne & Hm & Hk & pc & Hc & Hpc).
  apply shows_object. exists lm, doc.
  split; [reflexivity|]. split; [reflexivity|]. split; [exact Hm|].
  unfold doc. apply alike_oset.
  - revert HD. apply alike_shows_change. intros t v Ht.
    apply shows_anywhere with (keep := beside lm lc).
    now apply (shows_old h0).
  - apply shows_object. exists lc, pc.
    split; [reflexivity|]. split; [reflexivity|]. split; [exact Hc|].
    revert Hpc. apply alike_shows_change. intros t v. apply shows_anywhere.
Qed.

(** X26.  The store reading of [mergeServers] computes the tree reading: when
    the store shows the document and the servers of the tree reading, the
    returned reference shows the merged document of the tree reading. *)
Theorem store_merge_shows_tree_merge (h : heap) (existing : loc) (D : obj)
    servers incoming k :
  shows anywhere h (VObj D) (HRef existing) ->
  Forall2 (shows_server anywhere h) servers incoming ->
  shows anywhere (snd (Heap.mergeServers existing incoming k h))
    (VObj (McpConfig.mergeServers D servers k))
    (fst (Heap.mergeServers existing incoming k h)).
Proof.
  intros HD HS. rewrite mergeServers_eq.
  apply shows_inside, shows_object in HD as (l & ps & Hl & _ & Hdoc & HD).
  injection Hl as <-.
  assert (HS' : Forall2 (shows_server (inside h) h) servers incoming).
  { revert HS. apply Forall2_impl. intros t s (Hn & Hc & Ha & Ht).
    repeat split; [exact Hn | | |]; now apply shows_inside with (keep := anywhere). }
  remember (Heap.mergeServers existing incoming k h) as run eqn:Erun.
  unfold Heap.mergeServers in Erun.
  unfold bind at 1, get_prop at 1 in Erun. cbn [own] in Erun.
  rewrite Hdoc in Erun. cbn [props] in Erun. cbv beta iota in Erun.
  pose proof (alike_oget _ D ps k HD) as Hk.
  unfold McpConfig.section_of, prop.
  destruct (oget D k) as [t|], (oget ps k) as [x|]; try contradiction.
  - destruct (shows_truthy _ _ _ _ Hk) as [Et Eo]. rewrite <- Et, <- Eo in Erun.
    destruct (Js.truthy t && Js.typeof_object t) eqn:E.
    + unfold bind at 1, ret at 1 in Erun. cbv beta iota in Erun.
      apply (merge_copies_show h h existing ps x D (entries t) servers incoming k);
        try assumption.
      * apply extends_refl.
      * intros l' ->. clear Erun Et Eo. destruct t; cbn in Hk; try discriminate;
          destruct Hk as (l0 & ps0 & Hx & _ & Hc0 & _); injection Hx as <-;
          apply nth_error_Some; congruence.
      * now apply shows_entries.
    + unfold bind at 1, new_object at 1 in Erun. cbv beta iota in Erun.
      apply (merge_copies_show h (h ++ [mkCell false []])%list existing ps
               (HRef (length h)) D []
               servers incoming k); try assumption.
      * now apply extends_alloc, extends_refl.
      * intros l' [= <-]. rewrite length_app. cbn. lia.
      * rewrite own_new. constructor.
  - cbn [truthy typeof_object andb] in Erun.
    unfold bind at 1, new_object at 1 in Erun. cbv beta iota in Erun.
    apply (merge_copies_show h (h ++ [mkCell false []])%list existing ps
               (HRef (length h)) D []
             servers incoming k); try assumption.
    + now apply extends_alloc, extends_refl.
    + intros l' [= <-]. rewrite length_app. cbn. lia.
    + rewrite own_new. constructor.
Qed.

(** *** The loop of [removeServers] *)

(** The loop deletes from the cell [lu] what [remove_one] deletes from the
    section of the tree reading, counts the same, and writes nowhere else. *)
Lemma remove_each_shows (R : value -> hval -> Prop) lu names :
  forall (o : obj) pc r h,
    nth_error h lu = Some (mkCell false pc) -> alike R o pc ->
    exists pc' h',
      remove_each (HRef lu) names r h
      = (snd (fold_left McpConfig.remove_one names (o, r)), h')
      /\ nth_error h' lu = Some (mkCell false pc')
      /\ alike R (fst (fold_left McpConfig.remove_one names (o, r))) pc'
      /\ length h' = length h
      /\ (forall l, l <> lu -> nth_error h' l = nth_error h l).
Proof.
  induction names as [|n rest IH]; intros o pc r h Hc Ho.
  - exists pc, h. cbn. repeat split; auto.
  - cbn [remove_each fold_left McpConfig.remove_one].
    unfold bind at 1, has_own. cbn [own]. rewrite Hc. cbn [props].
    rewrite (alike_hasOwn R o pc n Ho). destruct (hasOwn o n).
    + unfold bind at 1, delete_prop, write.
      destruct (IH (odelete o n) (odelete pc n) (S r)
                  (update h lu (fun c => mkCell (is_array c) (odelete (props c) n))))
        as (pc' & h' & Hrun & Hc' & Ho' & Hlen & Hother).
      * now rewrite (nth_error_update_same _ _ _ _ Hc).
      * now apply alike_odelete.
      * exists pc', h'. split; [exact Hrun|]. split; [exact Hc'|].
        split; [exact Ho'|]. split; [now rewrite Hlen, length_update|].
        intros l Hl. rewrite Hother by exact Hl.
        now apply nth_error_update_other.
    + exact (IH o pc r h Hc Ho).
Qed.

(** X27.  The store reading of [removeServers] computes the tree reading: the
    returned reference shows the document the tree reading returns, and
    the count is the same. *)
Theorem store_remove_shows_tree_remove (h : heap) (existing : loc) (D : obj)
    names k :
  shows anywhere h (VObj D) (HRef existing) ->
  shows anywhere (snd (Heap.removeServers existing names k h))
    (VObj (McpConfig.updated (McpConfig.removeServers D names k)))
    (fst (fst (Heap.removeServers existing names k h)))
  /\ snd (fst (Heap.removeServers existing names k h))
     = McpConfig.removed (McpConfig.removeServers D names k).
Proof.
  intros HD0.
  pose proof HD0 as HD.
  apply shows_inside, shows_object in HD as (l & ps & Hl & _ & Hdoc & HD).
  injection Hl as <-.
  assert (Le : existing < length h) by (apply nth_error_Some; congruence).
  remember (Heap.removeServers existing names k h) as run eqn:Erun.
  unfold Heap.removeServers in Erun.
  unfold bind at 1, get_prop at 1 in Erun. cbn [own] in Erun.
  rewrite Hdoc in Erun. cbn [props] in Erun. cbv beta iota in Erun.
  pose proof (alike_oget _ D ps k HD) as Hk.
  unfold McpConfig.removeServers, prop.
  destruct (oget D k) as [t|], (oget ps k) as [x|]; try contradiction;
    [|subst run; cbn; now split].
  destruct (shows_truthy _ _ _ _ Hk) as [Et Eo]. rewrite <- Et, <- Eo in Erun.
  destruct (Js.truthy t && Js.typeof_object t) eqn:E;
    cbn [negb] in *; [|subst run; cbn; now split].
  pose proof (shows_entries _ _ _ _ Hk E) as Hsect.
  set (lu := length h) in *.
  set (h1 := (h ++ [mkCell false (own h x)])%list) in *.
  unfold bind at 1, copy_of at 1, new_object at 1 in Erun.
  fold h1 in Erun. cbv beta iota in Erun. fold lu in Erun.
  destruct (remove_each_shows (shows (inside h) h) lu names (entries t)
              (own h x) 0 h1 (nth_error_new h _) Hsect)
    as (pc & h2 & Hrun & Hc & Hpc & Hlen & Hother).
  unfold bind at 1 in Erun. rewrite Hrun in Erun. cbv beta iota in Erun.
  destruct (fold_left McpConfig.remove_one names (entries t, 0)) as [us n].
  cbn [fst snd] in *.
  assert (Hold : forall u v, shows (inside h) h u v -> shows anywhere h2 u v).
  { intros u v. apply shows_change. intros l c Hin Hl. split; [reflexivity|].
    apply Nat.ltb_lt in Hin. rewrite Hother by (unfold lu; lia).
    unfold h1. now rewrite nth_error_old. }
  destruct (n =? 0)%nat.
  { subst run. cbv beta iota zeta.
    cbn [fst snd McpConfig.updated McpConfig.removed].
    split; [|reflexivity]. apply Hold, shows_object.
    exists existing, ps. split; [reflexivity|].
    split; [now apply Nat.ltb_lt|]. now split. }
  assert (L1 : length h1 = S lu) by (unfold h1, lu; rewrite length_app; cbn; lia).
  assert (Eps : own h2 (HRef existing) = ps).
  { cbn [own]. rewrite Hother by (unfold lu; lia). unfold h1.
    rewrite nth_error_old by exact Le. now rewrite Hdoc. }
  unfold bind at 1, copy_of at 1, new_object at 1 in Erun. rewrite Eps in Erun.
  cbv beta iota in Erun.
  set (lm := length h2) in *.
  set (h3 := (h2 ++ [mkCell false ps])%list) in *.
  assert (Lu : lu < length h2) by lia.
  assert (N3 : nth_error h3 lu = Some (mkCell false pc))
    by (unfold h3; now rewrite nth_error_old).
  unfold bind at 1, count_keys at 1 in Erun. cbn [own] in Erun.
  rewrite N3 in Erun. cbn [props] in Erun.
  cbv beta iota in Erun.
  rewrite (alike_length _ us pc Hpc) in Erun.
  unfold keys. rewrite length_map.
  assert (Hlater : forall u v, shows (inside h) h u v ->
                   forall f, shows anywhere (update h3 lm f) u v).
  { intros u v Hu f. revert Hu. apply shows_change. intros l c Hin Hl.
    split; [reflexivity|]. apply Nat.ltb_lt in Hin.
    rewrite nth_error_update_other by (unfold lm; lia).
    unfold h3. rewrite nth_error_old by lia.
    rewrite Hother by (unfold lu; lia). unfold h1. now rewrite nth_error_old. }
  destruct (length us =? 0)%nat.
  - unfold bind, delete_prop, write, ret in Erun. subst run.
    cbv beta iota zeta. cbn [fst snd McpConfig.updated McpConfig.removed].
    split; [|reflexivity]. apply shows_object. exists lm, (odelete ps k).
    split; [reflexivity|]. split; [reflexivity|]. split.
    + unfold h3, lm.
      now rewrite (nth_error_update_same _ _ _ _ (nth_error_new h2 _)).
    + apply alike_odelete. revert HD. apply alike_shows_change.
      intros u v Hu. now apply Hlater.
  - unfold bind, assign_prop, write, ret in Erun. subst run.
    cbv beta iota zeta. cbn [fst snd McpConfig.updated McpConfig.removed].
    split; [|reflexivity]. apply shows_object. exists lm, (assign ps k (HRef lu)).
    split; [reflexivity|]. split; [reflexivity|]. split.
    + unfold h3, lm.
      now rewrite (nth_error_update_same _ _ _ _ (nth_error_new h2 _)).
    + apply alike_assign.
      * revert HD. apply alike_shows_change. intros u v Hu. now apply Hlater.
      * apply shows_object. exists lu, pc.
        split; [reflexivity|]. split; [reflexivity|]. split.
        -- rewrite nth_error_update_other by (unfold lm; lia). exact N3.
        -- revert Hpc. apply alike_shows_change. intros u v Hu. now apply Hlater.
Qed.

End Store.

(* ================================================================= *)
(** * Further properties of the configuration store *)

Section MergeRemoveLaws.
Import Js McpConfig More.

Lemma oset_comm_present (o : obj) k1 k2 v w :
  k1 <> k2 -> oget o k1 <> None ->
  oset (oset o k1 v) k2 w = oset (oset o k2 w) k1 v.
Proof.
  intros Hne. induction o as [|[k' v'] rest IH]; intros Hin; [now destruct Hin|].
  cbn [oset oget] in *.
  destruct (String.eqb_spec k' k1) as [E1|N1], (String.eqb_spec k' k2) as [E2|N2];
    cbn [oset].
  - congruence.
  - subst k'. rewrite String.eqb_refl.
    now rewrite (proj2 (String.eqb_neq k1 k2) Hne).
  - subst k'. rewrite String.eqb_refl.
    assert (Hne' : k2 <> k1) by congruence.
    now rewrite (proj2 (String.eqb_neq k2 k1) Hne').
  - rewrite (proj2 (String.eqb_neq k' k1) N1), (proj2 (String.eqb_neq k' k2) N2).
    now rewrite IH.
Qed.

Lemma hasOwn_oset_other (o : obj) k k' v :
  k <> k' -> hasOwn (oset o k v) k' = hasOwn o k'.
Proof.
  intros Hne.
  destruct (hasOwn o k') eqn:E.
  - apply hasOwn_true. apply hasOwn_true in E.
    now rewrite oget_oset_other.
  - apply hasOwn_oget. apply hasOwn_oget in E.
    now rewrite oget_oset_other.
Qed.

Lemma hasOwn_assign_other (o : obj) k k' v :
  k <> k' -> hasOwn (assign o k v) k' = hasOwn o k'.
Proof.
  intros Hne. destruct (assign_cases o k v) as [-> | ->]; [reflexivity|].
  now apply hasOwn_oset_other.
Qed.

Lemma hasOwn_assign_kept (o : obj) k k' v :
  hasOwn o k' = true -> hasOwn (assign o k v) k' = true.
Proof.
  intros H. destruct (String.eqb_spec k k') as [->|Hne].
  - rewrite assign_own by exact H. apply hasOwn_oset.
  - now rewrite hasOwn_assign_other.
Qed.

Lemma assign_assign (o : obj) k v w : assign (assign o k v) k w = assign o k w.
Proof.
  unfold assign at 2 3.
  destruct ((k =? "__proto__") && negb (hasOwn o k)) eqn:E.
  - unfold assign. now rewrite E.
  - rewrite assign_own by apply hasOwn_oset. apply oset_oset.
Qed.

Lemma assign_comm_present (o : obj) k1 k2 v w :
  k1 <> k2 -> hasOwn o k1 = true ->
  assign (assign o k1 v) k2 w = assign (assign o k2 w) k1 v.
Proof.
  intros Hne H1.
  rewrite (assign_own o k1 v H1).
  rewrite (assign_own (assign o k2 w) k1 v) by now apply hasOwn_assign_kept.
  unfold assign. rewrite hasOwn_oset_other by exact Hne.
  destruct ((k2 =? "__proto__") && negb (hasOwn o k2)); [reflexivity|].
  apply oset_comm_present; [exact Hne | now apply hasOwn_true].
Qed.

Lemma hasOwn_merged (incoming : list server) : forall (sect : obj) n,
  hasOwn sect n = true -> hasOwn (fold_left add_server incoming sect) n = true.
Proof.
  induction incoming as [|s rest IH]; intros sect n H; cbn [fold_left]; [exact H|].
  apply IH. now apply hasOwn_assign_kept.
Qed.

(** No round of the loop makes [__proto__] an own property. *)
Lemma proto_never_added (incoming : list server) : forall sect : obj,
  hasOwn sect "__proto__" = false ->
  hasOwn (fold_left add_server incoming sect) "__proto__" = false.
Proof.
  induction incoming as [|s rest IH]; intros sect H; cbn [fold_left]; [exact H|].
  apply IH. unfold add_server.
  destruct (String.eqb_spec (name s) "__proto__") as [E|Hne].
  - unfold assign. now rewrite E, H.
  - now rewrite hasOwn_assign_other.
Qed.

(** A name that no server of [incoming] bears keeps its entry. *)
Lemma oget_merged_other (incoming : list server) : forall (sect : obj) n,
  ~ In n (namesOf incoming) ->
  oget (fold_left add_server incoming sect) n = oget sect n.
Proof.
  induction incoming as [|s rest IH]; intros sect n Hn; cbn [fold_left];
    [reflexivity|].
  rewrite IH by (intros H; apply Hn; now right).
  apply oget_assign_other. intros E. apply Hn. now left.
Qed.

(** An entry written before servers that write it again does not count. *)
Lemma overwritten_later (incoming : list server) : forall (sect : obj) n v,
  hasOwn sect n = true -> In n (namesOf incoming) ->
  fold_left add_server incoming (assign sect n v)
  = fold_left add_server incoming sect.
Proof.
  induction incoming as [|s rest IH]; intros sect n v Hown Hin; [destruct Hin|].
  cbn [fold_left]. unfold add_server at 2 4.
  destruct (String.eqb_spec (name s) n) as [E|Hne].
  - rewrite E. now rewrite assign_assign.
  - rewrite assign_comm_present by (auto; congruence).
    apply IH; [now apply hasOwn_assign_kept|].
    destruct Hin as [Hin|Hin]; [congruence | exact Hin].
Qed.

Lemma merge_twice (incoming : list server) : forall sect : obj,
  fold_left add_server incoming (fold_left add_server incoming sect)
  = fold_left add_server incoming sect.
Proof.
  induction incoming as [|s rest IH]; intros sect; [reflexivity|].
  cbn [fold_left].
  set (p := add_server sect s).
  set (q := fold_left add_server rest p).
  assert (Hq : add_server q s = q \/
               (hasOwn q (name s) = true /\ In (name s) (namesOf rest))).
  { unfold add_server, assign.
    destruct ((name s =? "__proto__") && negb (hasOwn q (name s))) eqn:E;
      [now left|].
    assert (Hown : hasOwn q (name s) = true).
    { unfold q. apply hasOwn_merged. unfold p, add_server, assign.
      destruct ((name s =? "__proto__") && negb (hasOwn sect (name s))) eqn:E';
        [|apply hasOwn_oset].
      apply andb_true_iff in E' as [Ep Eo]. apply String.eqb_eq in Ep.
      rewrite Ep in *. apply negb_true_iff in Eo.
      pose proof (proto_never_added rest sect Eo) as Hq. fold q in Hq.
      unfold assign in Hq. fold p in Hq.
      enough (q = fold_left add_server rest sect) as Eq
          by (rewrite Eq, (String.eqb_refl "__proto__") in E;
              rewrite (proto_never_added rest sect Eo) in E; discriminate).
      unfold q, p, add_server, assign. now rewrite Ep, String.eqb_refl, Eo. }
    destruct (in_dec string_dec (name s) (namesOf rest)) as [Hin|Hout];
      [now right|].
    left. apply oset_oget_id. unfold q.
    rewrite oget_merged_other by exact Hout.
    unfold p, add_server, assign.
    destruct ((name s =? "__proto__") && negb (hasOwn sect (name s))) eqn:E'.
    - exfalso. apply andb_true_iff in E' as [Ep Eo]. apply String.eqb_eq in Ep.
      apply negb_true_iff in Eo. rewrite Ep in *.
      assert (Eq : q = fold_left add_server rest sect)
        by (unfold q, p, add_server, assign; now rewrite Ep, String.eqb_refl, Eo).
      rewrite Eq, (proto_never_added rest sect Eo) in Hown. discriminate.
    - apply oget_oset_same. }
  destruct Hq as [-> | [Hown Hin]]; [apply IH|].
  change (add_server q s) with (assign q (name s) (VObj (serverConfig s))).
  rewrite overwritten_later by assumption. apply IH.
Qed.

Lemma section_of_oset (D : obj) k (sect : obj) :
  section_of (oset D k (VObj sect)) k = sect.
Proof. unfold section_of. now rewrite prop_oset_same. Qed.

(** X1.  Merging the same servers a second time changes nothing: the
    document [mergeServers] returns is a fixed point of merging them. *)
Theorem mergeServers_idempotent (D : obj) (incoming : list server) k :
  mergeServers (mergeServers D incoming k) incoming k
  = mergeServers D incoming k.
Proof.
  rewrite !mergeServers_eq, section_of_oset, oset_oset. now rewrite merge_twice.
Qed.

(** X2.  After a merge, the entry under the name of an incoming server is
    the configuration of the last incoming server of that name. *)
Theorem mergeServers_last_wins (D : obj) (before after : list server)
    (s : server) k :
  name s <> "__proto__" -> ~ In (name s) (namesOf after) ->
  get_nested (mergeServers D (before ++ s :: after) k) k (name s)
  = VObj (serverConfig s).
Proof.
  intros Hplain Hlast. rewrite mergeServers_eq. unfold get_nested.
  rewrite oget_oset_same. unfold prop.
  rewrite fold_left_app. cbn [fold_left].
  rewrite oget_merged_other by exact Hlast.
  unfold add_server. rewrite assign_plain by exact Hplain.
  now rewrite oget_oset_same.
Qed.




Lemma filter_unnamed_twice names (o : obj) n :
  In n names -> oget (filter (unnamed names) o) n = None.
Proof.
  intros Hn. induction o as [|[k v] rest IH]; [reflexivity|].
  cbn [filter]. unfold unnamed at 1. cbn [fst].
  destruct (existsb (String.eqb k) names) eqn:E; cbn [negb]; [exact IH|].
  cbn [oget]. destruct (String.eqb_spec k n) as [->|_]; [|exact IH].
  now rewrite in_existsb_eqb in E.
Qed.

Lemma prop_odelete_same (o : obj) k : prop (odelete o k) k = VUndef.
Proof. unfold prop. now rewrite oget_odelete_same. Qed.

(** What [removeServers] returns, by the section it found. *)
Lemma removeServers_cases (D : obj) names k :
  removeServers D names k = mkRemoval D 0
  \/ exists r, r <> 0 /\
       ((filter (unnamed names) (entries (prop D k)) = []
         /\ removeServers D names k = mkRemoval (odelete D k) r)
        \/ (filter (unnamed names) (entries (prop D k)) <> []
            /\ removeServers D names k
               = mkRemoval (oset D k (VObj (filter (unnamed names)
                                              (entries (prop D k))))) r)).
Proof.
  unfold removeServers.
  destruct (truthy (prop D k) && typeof_object (prop D k)) eqn:E;
    cbn [negb]; [|now left].
  destruct (remove_loop names (entries (prop D k)) 0) as (r & -> & _ & _).
  destruct (Nat.eqb_spec r 0) as [_|Hr]; [now left|].
  right. exists r. split; [exact Hr|]. unfold keys. rewrite length_map.
  cbn [entries].
  destruct (filter (unnamed names) (entries (prop D k))) as [|p rest] eqn:Ef.
  - left. now split.
  - right. split; [discriminate|]. cbn [length Nat.eqb].
    rewrite assign_own; [reflexivity|].
    apply hasOwn_true. unfold prop in E.
    destruct (oget D k); [discriminate | discriminate E].
Qed.

(** X4.  Removing the same names a second time removes nothing and hands
    back the document of the first removal. *)
Theorem removeServers_idempotent (D : obj) names k :
  removeServers (updated (removeServers D names k)) names k
  = mkRemoval (updated (removeServers D names k)) 0.
Proof.
  destruct (removeServers_cases D names k)
    as [E | (r & Hr & [[Hf ->] | [Hf ->]])]; cbn [updated].
  - rewrite E. cbn [updated]. exact E.
  - unfold removeServers. now rewrite prop_odelete_same.
  - rewrite removeServers_merged.
    rewrite remove_loop_absent; [reflexivity|].
    intros n Hn. now apply filter_unnamed_twice.
Qed.

Lemma oget_filter_unnamed names (o : obj) n :
  ~ In n names -> oget (filter (unnamed names) o) n = oget o n.
Proof.
  intros Hn. induction o as [|[k v] rest IH]; [reflexivity|].
  cbn [filter oget]. unfold unnamed at 1. cbn [fst].
  destruct (existsb (String.eqb k) names) eqn:E; cbn [negb oget].
  - destruct (String.eqb_spec k n) as [->|_]; [|exact IH].
    exfalso. apply Hn. apply existsb_exists in E as (m & Hm & Em).
    apply String.eqb_eq in Em. now subst m.
  - now rewrite IH.
Qed.

(** X6.  A removal leaves alone what it was not asked to remove: every
    other top-level key of the document, and every entry of the section
    that is not named. *)
Theorem removeServers_keeps_the_rest (D : obj) names k :
  (forall k', k' <> k ->
              oget (updated (removeServers D names k)) k' = oget D k')
  /\ (forall n, ~ In n names ->
                oget (section (updated (removeServers D names k)) k) n
                = oget (section D k) n).
Proof.
  unfold section.
  destruct (removeServers_cases D names k)
    as [-> | (r & Hr & [[Hf ->] | [Hf ->]])]; cbn [updated].
  - now split.
  - split.
    + intros k' Hk. apply oget_odelete_other. congruence.
    + intros n Hn. rewrite prop_odelete_same. cbn [entries oget].
      now rewrite <- (oget_filter_unnamed names _ n Hn), Hf.
  - split.
    + intros k' Hk. apply oget_oset_other. congruence.
    + intros n Hn. rewrite prop_oset_same. cbn [entries].
      now apply oget_filter_unnamed.
Qed.

Lemma distinct_odelete (o : obj) n :
  distinct (keys o) = true -> distinct (keys (odelete o n)) = true.
Proof.
  unfold odelete, keys. induction o as [|[k v] rest IH]; [reflexivity|].
  cbn [map fst distinct filter]. intros H.
  apply andb_true_iff in H as [Hk Hr].
  destruct (negb (k =? n)); [|now apply IH].
  cbn [map fst distinct]. rewrite IH by exact Hr. rewrite andb_true_r.
  apply negb_true_iff. apply negb_true_iff in Hk.
  destruct (existsb (String.eqb k) (map fst (filter _ rest))) eqn:E; [|reflexivity].
  apply existsb_exists in E as (m & Hm & Em).
  apply in_map_iff in Hm as (p & Hp & Hin). apply filter_In in Hin as [Hin _].
  rewrite <- Hk. symmetry. apply existsb_exists. exists m. split; [|exact Em].
  apply in_map_iff. now exists p.
Qed.

Lemma named_cons n names p :
  named (n :: names) p = (fst p =? n) || named names p.
Proof. reflexivity. Qed.

(** The entries [n] or one of [names] names: [n] names at most one. *)
Lemma count_named (o : obj) n names :
  distinct (keys o) = true ->
  length (filter (named (n :: names)) o)
  = (if hasOwn o n then 1 else 0) + length (filter (named names) (odelete o n)).
Proof.
  unfold odelete, hasOwn, keys. induction o as [|[k v] rest IH]; [reflexivity|].
  cbn [map fst distinct]. intros H. apply andb_true_iff in H as [Hk Hr].
  cbn [filter existsb]. rewrite named_cons. cbn [fst].
  destruct (String.eqb_spec k n) as [->|Hne]; cbn [orb negb].
  - cbn [length]. rewrite (IH Hr).
    apply negb_true_iff in Hk.
    assert (E : existsb (fun p => fst p =? n) rest = false).
    { destruct (existsb (fun p => fst p =? n) rest) eqn:E; [|reflexivity].
      apply existsb_exists in E as (p & Hp & Ep). rewrite <- Hk. symmetry.
      apply existsb_exists. exists (fst p). split; [now apply in_map|].
      apply String.eqb_eq in Ep. rewrite Ep. apply String.eqb_refl. }
    now rewrite E.
  - cbn [filter]. destruct (named names (k, v)); cbn [length]; rewrite (IH Hr); lia.
Qed.

Lemma remove_loop_counts names : forall (o : obj) r,
  distinct (keys o) = true ->
  snd (fold_left remove_one names (o, r))
  = r + length (filter (named names) o).
Proof.
  induction names as [|n rest IH]; intros o r Hd; cbn [fold_left remove_one].
  - cbn [snd]. clear Hd.
    replace (filter (named []) o) with (@nil (string * value)).
    + cbn. lia.
    + induction o as [|p o IHo]; [reflexivity | exact IHo].
  - rewrite count_named by exact Hd. destruct (hasOwn o n) eqn:E.
    + rewrite IH by now apply distinct_odelete. lia.
    + rewrite IH by exact Hd.
      apply hasOwn_oget in E. now rewrite (odelete_absent _ _ E).
Qed.

(** X5.  The count [removeServers] returns is the number of entries of the
    section that bear one of the names: a name given twice, or one the
    section does not have, adds nothing to it. *)
Theorem removeServers_counts_entries (D : obj) names k :
  distinct (keys (section D k)) = true ->
  removed (removeServers D names k)
  = length (filter (named names) (section D k)).
Proof.
  unfold section. intros Hd.
  pose proof (remove_loop_counts names (entries (prop D k)) 0 Hd) as Hc.
  unfold removeServers.
  destruct (truthy (prop D k) && typeof_object (prop D k)) eqn:E; cbn [negb].
  - destruct (fold_left remove_one names (entries (prop D k), 0)) as [us r].
    cbn [snd] in Hc. cbn [Nat.add] in Hc. rewrite <- Hc.
    destruct (Nat.eqb_spec r 0) as [->|_]; [reflexivity|].
    now destruct (length (keys us) =? 0)%nat.
  - cbn [removed].
    destruct (prop D k) as [| |b|x|s|items|o]; try discriminate E; reflexivity.
Qed.

End MergeRemoveLaws.

(* ================================================================= *)
(** * Further properties of the TOML reader *)

Section TomlReader.
Import Js Str McpConfig More.

Lemma plain_spec line : plain line = true -> plain_line line.
Proof.
  unfold plain, plain_line. intros H inner s t Em Es. rewrite Em, Es in H.
  apply andb_true_iff in H as [Hs Ht].
  now split; apply negb_true_iff.
Qed.

Lemma recognized_spec line : recognized line = false -> opens_nothing line.
Proof.
  unfold recognized, opens_nothing. intros H inner Em. rewrite Em in H.
  now apply Nat.eqb_neq.
Qed.

(** Outside a table, a line that opens none changes nothing. *)
Lemma parse_line_outside st line :
  recognized line = false -> is_set (currentSection st) = false ->
  parse_line st line = st.
Proof.
  intros Hr Hs. unfold parse_line. unfold recognized in Hr.
  destruct ((trim line =? "") || startsWith (trim line) "#"); [reflexivity|].
  destruct (tableMatch (trim line)) as [inner|].
  - destruct (split "." inner) as [|s [|t [|x rest]]]; try reflexivity.
    discriminate.
  - destruct (kvMatch (trim line)) as [[key value]|]; [|reflexivity].
    now rewrite Hs.
Qed.

Lemma parse_lines_outside lines : forall st,
  forallb (fun l => negb (recognized l)) lines = true ->
  is_set (currentSection st) = false ->
  fold_left parse_line lines st = st.
Proof.
  induction lines as [|l lines IH]; intros st H Hs; [reflexivity|].
  cbn [forallb] in H. apply andb_true_iff in H as [Hl H].
  apply negb_true_iff in Hl. cbn [fold_left].
  rewrite parse_line_outside by assumption. now apply IH.
Qed.


(** X7.  Key-value lines count only inside a table: a file without a
    two-component table header is read as the empty document, whatever
    pairs and one-component headers it holds. *)
Theorem pairs_outside_tables_dropped (content : string) :
  forallb (fun l => negb (recognized l)) (split "010" content) = true ->
  parseSimpleToml content = [].
Proof.
  intros H. unfold parseSimpleToml. now rewrite parse_lines_outside.
Qed.





Section Shapes.
Context {V : Type} (P : V -> bool).




End Shapes.






End TomlReader.

(* ================================================================= *)
(** * What comes back of what was written *)

Section TomlRoundTrip.
Import Js Str McpConfig More.












Lemma keys_read_fields (fields : obj) : keys (read_fields fields) = keys fields.
Proof. unfold keys, read_fields. rewrite map_map. reflexivity. Qed.

Lemma keys_read_tables (tables : obj) : keys (read_tables tables) = keys tables.
Proof. unfold keys, read_tables. rewrite map_map. reflexivity. Qed.


Section OneTableRead.
Variables (d1 t1 : obj) (s t : string).
Hypothesis Hs : oget d1 s = None.
Hypothesis Ht : oget t1 t = None.
Hypothesis Hs_ok : name_ok s = true.
Hypothesis Ht_ok : name_ok t = true.



End OneTableRead.





End TomlRoundTrip.

(* ================================================================= *)
(** * Further properties of the path resolvers *)

Section Resolvers.
Import Js Paths More.










End Resolvers.

(* ================================================================= *)
(** * Where the repositories of MCP servers go *)

Section RepoDirs.
Import Str NodePath Paths More.

Lemma split_over_app sep (x y : string) :
  split sep (x ++ String sep y) = (split sep x ++ split sep y)%list.
Proof.
  induction x as [|c x IH]; cbn [append split].
  - now rewrite Ascii.eqb_refl.
  - rewrite IH. destruct (Ascii.eqb c sep); [reflexivity|].
    pose proof (split_nonempty sep x) as Hne.
    now destruct (split sep x) as [|h t].
Qed.

Lemma join_snoc sep (l : list string) (x : string) :
  l <> [] -> join sep (l ++ [x]) = join sep l ++ sep ++ x.
Proof.
  unfold join. induction l as [|a l IH]; intros Hne; [congruence|].
  destruct l as [|b l]; [reflexivity|].
  change (String.concat sep ((a :: b :: l) ++ [x]))
    with (a ++ sep ++ String.concat sep ((b :: l) ++ [x])).
  rewrite IH by discriminate.
  change (String.concat sep (a :: b :: l))
    with (a ++ sep ++ String.concat sep (b :: l)).
  now rewrite !append_assoc.
Qed.

Lemma join_ends_with sep (l : list string) (x : string) :
  exists head, join sep (l ++ [x]) = head ++ x.
Proof.
  destruct l as [|a l].
  - now exists "".
  - exists (join sep (a :: l) ++ sep).
    rewrite join_snoc by discriminate. now rewrite append_assoc.
Qed.

Lemma split_join sep (l : list string) :
  l <> [] ->
  split sep (join (String sep "") l) = flat_map (split sep) l.
Proof.
  unfold join. induction l as [|a l IH]; intros Hne; [congruence|].
  destruct l as [|b l].
  - cbn. now rewrite app_nil_r.
  - change (String.concat (String sep "") (a :: b :: l))
      with (a ++ String sep (String.concat (String sep "") (b :: l))).
    rewrite split_over_app, IH by discriminate. reflexivity.
Qed.

Lemma segment_parts n :
  segment n = true ->
  n <> "" /\ n <> "." /\ n <> ".." /\ all (is_not "/") n = true.
Proof.
  unfold segment. intros H.
  apply andb_true_iff in H as [H H4]. apply andb_true_iff in H as [H H3].
  apply andb_true_iff in H as [H1 H2].
  repeat split; try assumption; intros ->; discriminate.
Qed.

Lemma push_segment_plain allow acc n :
  segment n = true -> push_segment allow acc n = n :: acc.
Proof.
  intros H. destruct (segment_parts n H) as (H1 & H2 & H3 & _).
  unfold push_segment.
  rewrite (proj2 (String.eqb_neq n "") H1), (proj2 (String.eqb_neq n ".") H2).
  now rewrite (proj2 (String.eqb_neq n "..") H3).
Qed.

Lemma endsWith_no_slash (s : string) :
  all (is_not "/") s = true -> endsWith s "/" = false.
Proof.
  induction s as [|c s IH]; [reflexivity|].
  cbn [all]. intros H. apply andb_true_iff in H as [Hc Hs].
  cbn [endsWith]. rewrite (IH Hs).
  unfold is_not in Hc. apply negb_true_iff in Hc.
  cbn [String.eqb]. now rewrite Hc.
Qed.

Lemma endsWith_segment (x n : string) :
  segment n = true -> endsWith (x ++ n) "/" = false.
Proof.
  intros H. destruct (segment_parts n H) as (H1 & _ & _ & H4).
  induction x as [|c x IH]; [now apply endsWith_no_slash|].
  cbn [append endsWith]. rewrite IH.
  cbn [String.eqb]. destruct (x ++ n) as [|d r] eqn:E.
  - destruct x; [cbn in E; congruence | discriminate].
  - now rewrite andb_false_r || now destruct (Ascii.eqb c "/").
Qed.

Lemma startsWith_app (s y : string) (p : ascii) :
  s <> "" -> startsWith (s ++ y) (String p "") = startsWith s (String p "").
Proof.
  destruct s as [|c s]; [congruence|]. intros _.
  unfold startsWith. cbn [append]. cbn [String.prefix].
  destruct (ascii_dec p c); [|reflexivity].
  transitivity true; [now destruct (s ++ y) | now destruct s].
Qed.

Lemma append_inv_head (x y z : string) : x ++ y = x ++ z -> y = z.
Proof.
  induction x as [|c x IH]; cbn [append]; intros E; [exact E|].
  injection E as E. now apply IH.
Qed.

Lemma app_not_empty (x y : string) : y <> "" -> (x ++ y =? "") = false.
Proof.
  intros H. apply String.eqb_neq. intros E.
  destruct x; [cbn in E; congruence | discriminate].
Qed.

Lemma posix_join_used (parts : list string) :
  filter (fun p => negb (p =? "")) parts <> [] ->
  posix_join parts = normalize (join "/" (filter (fun p => negb (p =? "")) parts)).
Proof.
  unfold posix_join. now destruct (filter (fun p => negb (p =? "")) parts).
Qed.

Lemma filter_used (parts : list string) (b : string) :
  b <> "" ->
  filter (fun p => negb (p =? "")) (parts ++ [b])
  = (filter (fun p => negb (p =? "")) parts ++ [b])%list.
Proof.
  intros H. rewrite filter_app. cbn [filter].
  now rewrite (proj2 (String.eqb_neq b "") H).
Qed.

(** What [normalizeString] makes of a joined path that ends in a plain
    segment, and of the same path with one more plain segment. *)
Lemma normalizeString_segment (u : list string) (b n : string) allow :
  segment b = true -> segment n = true ->
  exists P,
    normalizeString (join "/" (u ++ [b])) allow = P /\ P <> ""
    /\ normalizeString (join "/" (u ++ [b]) ++ "/" ++ n) allow = P ++ "/" ++ n.
Proof.
  intros Hb Hn.
  destruct (segment_parts b Hb) as (Hb1 & _ & _ & Hb4).
  destruct (segment_parts n Hn) as (Hn1 & _ & _ & Hn4).
  assert (Hne : (u ++ [b])%list <> []) by (destruct u; discriminate).
  unfold normalizeString.
  change (join "/" (u ++ [b]) ++ "/" ++ n)
    with (join "/" (u ++ [b]) ++ String "/" n).
  rewrite split_over_app, (split_whole "/" n Hn4), fold_left_app.
  cbn [fold_left]. rewrite push_segment_plain by exact Hn.
  rewrite (split_join "/" (u ++ [b]) Hne).
  rewrite flat_map_app. cbn [flat_map]. rewrite (split_whole "/" b Hb4).
  cbn [app]. rewrite fold_left_app. cbn [fold_left].
  rewrite push_segment_plain by exact Hb.
  set (acc := fold_left (push_segment allow) (flat_map (split "/") u) []).
  cbn [rev]. eexists. split; [reflexivity|]. split.
  - destruct (join_ends_with "/" (rev acc) b) as (h2 & ->).
    intros E. destruct h2; [cbn in E; congruence | discriminate].
  - apply join_snoc. destruct (rev acc); discriminate.
Qed.

(** Joining one more plain segment appends it. *)
Lemma posix_join_segment (parts : list string) (b n : string) :
  segment b = true -> segment n = true ->
  posix_join (parts ++ [b; n]) = posix_join (parts ++ [b]) ++ "/" ++ n.
Proof.
  intros Hb Hn.
  destruct (segment_parts b Hb) as (Hb1 & _ & _ & Hb4).
  destruct (segment_parts n Hn) as (Hn1 & _ & _ & Hn4).
  set (u := filter (fun p => negb (p =? "")) parts).
  assert (Hne : (u ++ [b])%list <> []) by (destruct u; discriminate).
  assert (F1 : filter (fun p => negb (p =? "")) (parts ++ [b]) = (u ++ [b])%list)
    by now apply filter_used.
  assert (F2 : filter (fun p => negb (p =? "")) (parts ++ [b; n])
               = ((u ++ [b]) ++ [n])%list).
  { change (parts ++ [b; n])%list with (parts ++ [b] ++ [n])%list.
    rewrite app_assoc, filter_used by exact Hn1. now rewrite F1. }
  rewrite (posix_join_used (parts ++ [b; n]))
    by (rewrite F2; destruct (u ++ [b])%list; discriminate).
  rewrite (posix_join_used (parts ++ [b])) by now rewrite F1.
  rewrite F1, F2, join_snoc by exact Hne.
  destruct (join_ends_with "/" u b) as (head & EJ).
  assert (HJ : join "/" (u ++ [b]) <> "").
  { rewrite EJ. intros E. destruct head; [cbn in E; congruence | discriminate]. }
  unfold normalize.
  rewrite (proj2 (String.eqb_neq _ "") HJ).
  rewrite (app_not_empty (join "/" (u ++ [b])) ("/" ++ n)) by discriminate.
  rewrite (startsWith_app _ ("/" ++ n) "/" HJ).
  replace (endsWith (join "/" (u ++ [b]) ++ "/" ++ n) "/") with false
    by (symmetry; rewrite <- append_assoc; now apply endsWith_segment).
  replace (endsWith (join "/" (u ++ [b])) "/") with false
    by (symmetry; rewrite EJ; now apply endsWith_segment).
  destruct (normalizeString_segment u b n
              (negb (startsWith (join "/" (u ++ [b])) "/")) Hb Hn)
    as (P & -> & HP & ->).
  rewrite (proj2 (String.eqb_neq P "") HP).
  rewrite (app_not_empty P ("/" ++ n)) by discriminate.
  destruct (startsWith (join "/" (u ++ [b])) "/"); reflexivity.
Qed.

Lemma ends_in_mcp_repos (parts : list string) (mid n : string) :
  segment mid = true ->
  endsWith (posix_join (parts ++ [mid; "mcp-repos"]) ++ "/" ++ n)
    ("/mcp-repos/" ++ n) = true.
Proof.
  intros Hmid.
  rewrite (posix_join_segment parts mid "mcp-repos" Hmid eq_refl).
  rewrite !append_assoc. apply endsWith_app.
Qed.

(** X13.  With Node's POSIX [path.join], a server whose name is a plain
    path segment gets the directory of that name in an [mcp-repos]
    directory, and two such names never share a directory. *)
Theorem repo_directories_do_not_collide
    (e : os_env) (scope root : string) (p : platformInfo) (n1 n2 : string) :
  path_join e = posix_join -> segment n1 = true -> segment n2 = true ->
  endsWith (getMcpRepoDir e scope root p n1) ("/mcp-repos/" ++ n1) = true
  /\ (getMcpRepoDir e scope root p n1 = getMcpRepoDir e scope root p n2 ->
      n1 = n2).
Proof.
  intros Hjoin H1 H2. unfold getMcpRepoDir. rewrite Hjoin.
  assert (Hshape : forall first mid n, segment mid = true -> segment n = true ->
            posix_join [first; mid; "mcp-repos"; n]
            = posix_join [first; mid; "mcp-repos"] ++ "/" ++ n).
  { intros first mid n Hmid Hseg.
    change [first; mid; "mcp-repos"; n]
      with ([first; mid] ++ ["mcp-repos"; n])%list.
    rewrite (posix_join_segment [first; mid] "mcp-repos" n eq_refl Hseg).
    reflexivity. }
  destruct (scope =? "local").
  - rewrite !Hshape by (assumption || reflexivity). split.
    + apply (ends_in_mcp_repos [root] ".a11y-devkit" n1 eq_refl).
    + intros E. apply append_inv_head in E.
      now apply (append_inv_head "/") in E.
  - rewrite !Hshape by (assumption || reflexivity). split.
    + apply (ends_in_mcp_repos [getAppSupportDir e p] "a11y-devkit" n1 eq_refl).
    + intros E. apply append_inv_head in E.
      now apply (append_inv_head "/") in E.
Qed.

End RepoDirs.

(* ================================================================= *)
(** * Further properties of the installers *)

Section InstallersMore.
Import Effects More.
Variable wd : world.

Lemma exec_repo_run command args options (w : state wd) :
  let o := spread_options "inherit" false options in
  exec wd (Repo.run command args options) w
  = (snd (spawn wd w command args o),
     [ESpawn command args o (fst (spawn wd w command args o))],
     if exited_ok (fst (spawn wd w command args o))
     then Returned tt
     else match fst (spawn wd w command args o) with
          | Errored err => Threw err
          | Closed code _ _ =>
              Threw (Error (command ++ " " ++ Str.join " " args
                            ++ " failed with code " ++ code_text code))
          end).
Proof.
  intros o. unfold Repo.run, perform. cbn [bind exec answer_to]. fold o.
  destruct (spawn wd w command args o) as [[[[|n]|] out err|e] w1]; reflexivity.
Qed.

(** X14.  [ensureRepo] looks at the directory and at its [.git], runs
    [git] at most once, and does nothing else: it removes nothing and asks
    nothing.  It returns only when [git] exited with code 0: ["cloned"]
    after a clone into a directory that was not there, ["updated"] after a
    fast-forward pull in a directory that holds a [.git]. *)
Theorem ensureRepo_returns_after_git_succeeded
    (path_join : list string -> string) (url dir : string) (w : state wd) :
  let '(_, log, r) := exec wd (Repo.ensureRepo path_join url dir) w in
  forallb looks_or_runs_git log = true
  /\ length (filter GitMcp.is_spawn log) <= 1
  /\ match r with
     | Returned res =>
         exists out err,
           (res = Repo.mkEnsured "cloned" dir
            /\ log = [EAccess dir false;
                      ESpawn "git" ["clone"; "--depth"; "1"; url; dir]
                        (mkOptions "inherit" false None)
                        (Closed (Some 0) out err)])
           \/ (res = Repo.mkEnsured "updated" dir
               /\ log = [EAccess dir true;
                         EAccess (path_join [dir; ".git"]) true;
                         ESpawn "git" ["-C"; dir; "pull"; "--ff-only"]
                           (mkOptions "inherit" false None)
                           (Closed (Some 0) out err)])
     | Threw _ => True
     end.
Proof.
  unfold Repo.ensureRepo, Repo.pathExists, perform.
  cbn [bind exec answer_to]. destruct (access wd w dir).
  - cbn [bind exec answer_to]. destruct (access wd w (path_join [dir; ".git"])).
    + cbn [negb]. rewrite exec_bind, exec_repo_run.
      change (spread_options "inherit" false no_options)
        with (mkOptions "inherit" false None).
      destruct (spawn wd w "git" ["-C"; dir; "pull"; "--ff-only"]
                  (mkOptions "inherit" false None))
        as [[[[|n]|] out err|e] w1]; cbn; repeat split; auto.
      exists out, err. right. now split.
    + cbn. repeat split; auto.
  - rewrite exec_bind, exec_repo_run.
    change (spread_options "inherit" false no_options)
      with (mkOptions "inherit" false None).
    destruct (spawn wd w "git" ["clone"; "--depth"; "1"; url; dir]
                (mkOptions "inherit" false None))
      as [[[[|n]|] out err|e] w1]; cbn; repeat split; auto.
    exists out, err. left. now split.
Qed.

Lemma exec_run_each dir : forall (commands : list string) (w : state wd),
  let '(_, log, r) := exec wd (Repo.run_each dir commands) w in
  exists children,
    length children <= length commands
    /\ log = map (launch dir) (combine commands children)
    /\ forallb exited_ok (removelast children) = true
    /\ (r = Returned tt <->
        length children = length commands
        /\ forallb exited_ok children = true).
Proof.
  induction commands as [|command rest IH]; intros w.
  - cbn. exists []. repeat split; auto.
  - cbn [Repo.run_each]. rewrite exec_bind, exec_repo_run.
    change (spread_options "inherit" false (mkRunOptions (Some true) (Some dir)))
      with (mkOptions "inherit" true (Some dir)).
    set (parts := Str.split " " command).
    set (o := mkOptions "inherit" true (Some dir)).
    destruct (spawn wd w (hd "" parts) (tl parts) o) as [c w1] eqn:Es.
    cbn [fst snd]. destruct (exited_ok c) eqn:Ec.
    + specialize (IH w1).
      destruct (exec wd (Repo.run_each dir rest) w1) as [[w2 log2] r2].
      destruct IH as (children & Hlen & -> & Hinit & Hiff).
      exists (c :: children). split; [cbn; lia|]. split; [reflexivity|]. split.
      * destruct children as [|c' cs]; [reflexivity|].
        change (removelast (c :: c' :: cs)) with (c :: removelast (c' :: cs)).
        cbn [forallb]. now rewrite Ec.
      * cbn [length forallb]. rewrite Ec. cbn [andb]. rewrite Hiff.
        split; intros [H1 H2]; split; auto; lia.
    + assert (Hthrown : exists e,
                match c with
                | Closed code _ _ =>
                    Threw (Error (hd "" parts ++ " " ++ Str.join " " (tl parts)
                                  ++ " failed with code " ++ code_text code))
                | Errored err => Threw err
                end = @Threw unit e)
        by (destruct c; eexists; reflexivity).
      destruct Hthrown as (e & ->). exists [c].
      split; [cbn; lia|]. split; [now destruct rest|]. split; [reflexivity|].
      cbn [forallb length]. rewrite Ec. split; [discriminate|].
      intros [_ H]. discriminate.
Qed.

(** X15.  [buildMcp] runs the build commands in their order, each split
    at its spaces and run through the shell in the repository directory,
    and stops at the first one that fails: every command started before
    the last one exited with code 0, and the call returns exactly when all
    of them were started and all exited with code 0. *)
Theorem buildMcp_stops_at_first_failure
    (dir : string) (buildCommands : option (list string)) (w : state wd) :
  let '(_, log, r) := exec wd (Repo.buildMcp dir buildCommands) w in
  exists children,
    length children <= length (commands_of buildCommands)
    /\ log = map (launch dir) (combine (commands_of buildCommands) children)
    /\ forallb exited_ok (removelast children) = true
    /\ (r = Returned tt <->
        length children = length (commands_of buildCommands)
        /\ forallb exited_ok children = true).
Proof.
  destruct buildCommands as [[|command rest]|].
  - cbn. exists []. repeat split; auto.
  - exact (exec_run_each dir (command :: rest) w).
  - cbn. exists []. repeat split; auto.
Qed.

Lemma exec_git_run command args options (w : state wd) :
  let o := spread_options "pipe" true options in
  exec wd (GitMcp.run command args options) w
  = (snd (spawn wd w command args o),
     [ESpawn command args o (fst (spawn wd w command args o))],
     settled command args (fst (spawn wd w command args o))).
Proof.
  intros o. unfold GitMcp.run, perform. cbn [bind exec answer_to]. fold o.
  destruct (spawn wd w command args o) as [[[[|n]|] out err|e] w1]; reflexivity.
Qed.

Lemma exec_clone repoUrl targetDir (w : state wd) :
  let o := mkOptions "pipe" true None in
  let args := ["clone"; repoUrl; targetDir] in
  exec wd (GitMcp.cloneGitRepo repoUrl targetDir) w
  = (snd (spawn wd w "git" args o),
     [ESpawn "git" args o (fst (spawn wd w "git" args o))],
     match settled "git" args (fst (spawn wd w "git" args o)) with
     | Returned out =>
         Returned (GitMcp.mkOutcome true (GitMcp.out_stdout out)
                     (GitMcp.out_stderr out))
     | Threw err => Threw (GitMcp.clone_failure repoUrl err)
     end).
Proof.
  intros o args. unfold GitMcp.cloneGitRepo.
  rewrite exec_catch, exec_bind, exec_git_run.
  change (spread_options "pipe" true no_options) with o. fold args.
  destruct (settled "git" args (fst (spawn wd w "git" args o))); cbn;
    now rewrite ?app_nil_r.
Qed.

Lemma exec_build repoDir buildCommand (w : state wd) :
  let o := mkOptions "pipe" true (Some repoDir) in
  exec wd (GitMcp.buildGitRepo repoDir buildCommand) w
  = (snd (spawn wd w buildCommand [] o),
     [ESpawn buildCommand [] o (fst (spawn wd w buildCommand [] o))],
     Returned
       match settled buildCommand [] (fst (spawn wd w buildCommand [] o)) with
       | Returned out =>
           GitMcp.mkOutcome true (GitMcp.out_stdout out) (GitMcp.out_stderr out)
       | Threw err => GitMcp.mkOutcome false "" (message err)
       end).
Proof.
  intros o. unfold GitMcp.buildGitRepo.
  rewrite exec_catch, exec_bind, exec_git_run.
  change (spread_options "pipe" true (mkRunOptions None (Some repoDir))) with o.
  destruct (settled buildCommand [] (fst (spawn wd w buildCommand [] o))); cbn;
    now rewrite ?app_nil_r.
Qed.









(** X17.  [buildGitRepo] never throws.  When the build command fails, it
    reports an empty [stdout], whatever the command printed, and as
    [stderr] the message of the failure, which for a command that exited
    with a code wraps what the command wrote to its standard error. *)
Theorem buildGitRepo_never_throws
    (repoDir buildCommand : string) (w : state wd) :
  let ended := fst (spawn wd w buildCommand []
                      (mkOptions "pipe" true (Some repoDir))) in
  exists o,
    snd (exec wd (GitMcp.buildGitRepo repoDir buildCommand) w) = Returned o
    /\ GitMcp.success o = exited_ok ended
    /\ match ended with
       | Closed (Some 0) out err =>
           GitMcp.stdout o = out /\ GitMcp.stderr o = err
       | Closed code out err =>
           GitMcp.stdout o = ""
           /\ GitMcp.stderr o
              = buildCommand ++ "  failed with code " ++ code_text code
                ++ ": " ++ err
       | Errored e => GitMcp.stdout o = "" /\ GitMcp.stderr o = message e
       end.
Proof.
  intros ended. rewrite exec_build. cbn [snd]. fold ended.
  eexists. split; [reflexivity|].
  destruct ended as [[[|n]|] out err|e]; cbn; repeat split; reflexivity.
Qed.

(** What the check for an existing installation can leave in the log. *)
Lemma exec_check_existing name repoPath (w : state wd) :
  let '(_, log, r) := exec wd (GitMcp.check_existing name repoPath) w in
  (log = [EAccess repoPath false] /\ r = Returned tt)
  \/ (exists warned reply e,
        reply <> Answered true
        /\ log = [EAccess repoPath true; EWarn warned;
                  EConfirm overwrite_question reply]
        /\ r = Threw e)
  \/ (exists warned tail,
        log = ([EAccess repoPath true; EWarn warned;
                EConfirm overwrite_question (Answered true)] ++ tail)%list
        /\ (tail = [EAccess repoPath false]
            \/ exists failure, tail = [EAccess repoPath true;
                                       ERm repoPath failure])).
Proof.
  unfold GitMcp.check_existing, GitMcp.cleanupGitRepo, GitMcp.pathExists, perform.
  cbn [bind exec answer_to]. destruct (access wd w repoPath); [|cbn; now left].
  cbn [bind exec answer_to].
  destruct (confirm wd w "Overwrite existing installation?") as [[[|]|] w1].
  - cbn [bind exec answer_to].
    destruct (access wd w1 repoPath).
    + cbn [bind exec answer_to].
      destruct (rm wd w1 repoPath) as [[e|] w2]; cbn; right; right;
        eexists; eexists; (split; [reflexivity|]); right; eexists; reflexivity.
    + cbn. right; right. eexists; eexists. split; [reflexivity|]. now left.
  - cbn. right; left. eexists; eexists; eexists.
    split; [|split; reflexivity]. discriminate.
  - cbn. right; left. eexists; eexists; eexists.
    split; [|split; reflexivity]. discriminate.
Qed.

(** The log of what follows the check: the clone, then, when the clone
    succeeded, the build and the report on it. *)
Lemma exec_after_check {A : Type} (cfg : GitMcp.mcp_config) repoPath
    (finish : prog A) (w : state wd) :
  (forall w0, exists a, exec wd finish w0 = (w0, [], Returned a)) ->
  let clone := ESpawn "git" ["clone"; GitMcp.repoUrl cfg; repoPath]
                 (mkOptions "pipe" true None)
                 (fst (spawn wd w "git" ["clone"; GitMcp.repoUrl cfg; repoPath]
                         (mkOptions "pipe" true None))) in
  let '(_, log, r) :=
    exec wd (bind (GitMcp.cloneGitRepo (GitMcp.repoUrl cfg) repoPath) (fun _ =>
             bind (GitMcp.buildGitRepo repoPath (GitMcp.buildCommand cfg))
               (fun buildResult =>
             bind (GitMcp.report_build buildResult) (fun _ => finish)))) w in
  (exists e, r = Threw e /\ log = [clone]
             /\ GitMcp.child_failed
                  (fst (spawn wd w "git" ["clone"; GitMcp.repoUrl cfg; repoPath]
                          (mkOptions "pipe" true None))) = true)
  \/ (exists a built tail,
        r = Returned a
        /\ log = (clone :: ESpawn (GitMcp.buildCommand cfg) []
                             (mkOptions "pipe" true (Some repoPath)) built
                   :: tail)%list
        /\ forallb (fun ev => match ev with
                              | EWarn _ | EConsoleError _ => true
                              | _ => false
                              end) tail = true
        /\ GitMcp.child_failed
             (fst (spawn wd w "git" ["clone"; GitMcp.repoUrl cfg; repoPath]
                     (mkOptions "pipe" true None))) = false).
Proof.
  intros Hfinish clone. rewrite exec_bind, exec_clone. fold clone.
  destruct (spawn wd w "git" ["clone"; GitMcp.repoUrl cfg; repoPath]
              (mkOptions "pipe" true None)) as [c w1] eqn:Es.
  cbn [fst snd] in *.
  destruct c as [[[|n]|] out err|e]; cbn [settled GitMcp.child_failed];
    cbv beta iota zeta;
    try (left; eexists; repeat split; reflexivity).
  rewrite exec_bind, exec_build.
  set (built := fst (spawn wd w1 (GitMcp.buildCommand cfg) []
                       (mkOptions "pipe" true (Some repoPath)))).
  set (w2 := snd (spawn wd w1 (GitMcp.buildCommand cfg) []
                    (mkOptions "pipe" true (Some repoPath)))).
  rewrite exec_bind.
  set (o := match settled (GitMcp.buildCommand cfg) [] built with
            | Returned out0 =>
                GitMcp.mkOutcome true (GitMcp.out_stdout out0)
                  (GitMcp.out_stderr out0)
            | Threw err0 => GitMcp.mkOutcome false "" (message err0)
            end).
  assert (Hrep : exists tail,
            exec wd (GitMcp.report_build o) w2 = (w2, tail, Returned tt)
            /\ forallb (fun ev => match ev with
                                  | EWarn _ | EConsoleError _ => true
                                  | _ => false
                                  end) tail = true).
  { unfold GitMcp.report_build, perform.
    destruct (negb (GitMcp.success o)); cbn [bind exec answer_to];
      [|eexists; split; reflexivity].
    destruct (negb (GitMcp.stderr o =? "")); cbn [bind exec answer_to];
      eexists; split; reflexivity. }
  destruct Hrep as (tail & -> & Htail).
  destruct (Hfinish w2) as (a & ->). cbv beta iota zeta.
  right. exists a, built, tail. rewrite app_nil_r. now repeat split.
Qed.

Lemma reports_are_quiet (tail : list event) :
  forallb (fun ev => match ev with
                     | EWarn _ | EConsoleError _ => true
                     | _ => false
                     end) tail = true ->
  forall ev, In ev tail ->
    GitMcp.is_spawn ev = false /\ is_rm ev = false /\ is_confirm ev = false.
Proof.
  intros H ev Hin. rewrite forallb_forall in H. specialize (H ev Hin).
  destruct ev; try discriminate; now repeat split.
Qed.

(** X18.  [installGitMcp] removes nothing but the repository directory,
    and only after the prompt was answered with yes.  When the answer is
    no, or the prompt is cancelled, the call throws and has spawned and
    removed nothing: the existing installation is as it was. *)
Theorem installGitMcp_removes_only_on_consent
    (cfg : GitMcp.mcp_config) (scope root : string) (pinfo : Paths.platformInfo)
    (getMcpRepoDir : string -> string -> Paths.platformInfo -> string -> string)
    (w : state wd) :
  let repoPath := getMcpRepoDir scope root pinfo (GitMcp.name cfg) in
  let '(_, log, r) :=
    exec wd (GitMcp.installGitMcp cfg scope root pinfo getMcpRepoDir) w in
  (forall target failure,
     In (ERm target failure) log ->
     target = repoPath
     /\ In (EConfirm overwrite_question (Answered true)) log)
  /\ (forall question reply,
        In (EConfirm question reply) log -> reply <> Answered true ->
        (exists e, r = Threw e)
        /\ forallb (fun ev => negb (GitMcp.is_spawn ev) && negb (is_rm ev)) log
           = true).
Proof.
  intros repoPath. unfold GitMcp.installGitMcp. fold repoPath.
  rewrite exec_bind.
  pose proof (exec_check_existing (GitMcp.name cfg) repoPath w) as Hcheck.
  destruct (exec wd (GitMcp.check_existing (GitMcp.name cfg) repoPath) w)
    as [[w1 log1] r1].
  assert (Hfinish : forall w0, exists a,
            exec wd (Ret (GitMcp.mkDescriptor (GitMcp.name cfg) (GitMcp.type cfg)
                            (GitMcp.command cfg) (GitMcp.args cfg) repoPath)) w0
            = (w0, [], Returned a)) by (intros w0; eexists; reflexivity).
  pose proof (exec_after_check cfg repoPath _ w1 Hfinish) as Hrest.
  cbv zeta in Hrest.
  destruct Hcheck as [[-> ->] | [(warned & reply & e & Hno & -> & ->)
                                | (warned & tail & -> & Htail)]].
  - (* nothing was there *)
    destruct (exec wd _ w1) as [[w2 log2] r2].
    assert (Hquiet : forall ev, In ev log2 ->
                       is_rm ev = false /\ is_confirm ev = false).
    { intros ev Hin.
      destruct Hrest as [(e & _ & -> & _) | (a & built & tl & _ & -> & Htl & _)].
      - destruct Hin as [<-|[]]. now split.
      - destruct Hin as [<-|[<-|Hin]]; [now split | now split|].
        now destruct (reports_are_quiet tl Htl ev Hin) as (_ & ? & ?). }
    split.
    + intros target failure [Hin|Hin]; [discriminate|].
      now destruct (Hquiet _ Hin) as [? _].
    + intros question reply [Hin|Hin]; [discriminate|].
      now destruct (Hquiet _ Hin) as [_ ?].
  - (* the prompt was not answered with yes *)
    split.
    + intros target failure [Hin|[Hin|[Hin|[]]]]; discriminate.
    + intros q a _ _. split; [now exists e | reflexivity].
  - (* the prompt was answered with yes *)
    assert (Hrm : forall target failure,
              In (ERm target failure) tail -> target = repoPath).
    { intros target failure Hin.
      destruct Htail as [-> | (f & ->)].
      - destruct Hin as [Hin|[]]; discriminate.
      - destruct Hin as [Hin|[Hin|[]]]; [discriminate|]. now injection Hin. }
    assert (Hyes : forall question reply,
              In (EConfirm question reply) tail -> False).
    { intros question reply Hin.
      destruct Htail as [-> | (f & ->)].
      - destruct Hin as [Hin|[]]; discriminate.
      - destruct Hin as [Hin|[Hin|[]]]; discriminate. }
    destruct r1 as [[]|e1].
    + destruct (exec wd _ w1) as [[w2 log2] r2].
      assert (Hquiet : forall ev, In ev log2 ->
                         is_rm ev = false /\ is_confirm ev = false).
      { intros ev Hin.
        destruct Hrest as [(e & _ & -> & _) | (a & built & tl & _ & -> & Htl & _)].
        - destruct Hin as [<-|[]]. now split.
        - destruct Hin as [<-|[<-|Hin]]; [now split | now split|].
          now destruct (reports_are_quiet tl Htl ev Hin) as (_ & ? & ?). }
      split.
      * intros target failure Hin. split; [|right; right; now left].
        apply in_app_or in Hin as [Hin|Hin];
          [|now destruct (Hquiet _ Hin) as [? _]].
        destruct Hin as [Hin|[Hin|[Hin|Hin]]]; try discriminate.
        now apply (Hrm target failure).
      * intros question reply Hin Hno. exfalso.
        apply in_app_or in Hin as [Hin|Hin];
          [|now destruct (Hquiet _ Hin) as [_ ?]].
        destruct Hin as [Hin|[Hin|[Hin|Hin]]]; try discriminate.
        -- injection Hin as _ <-. now apply Hno.
        -- now apply (Hyes question reply).
    + split.
      * intros target failure Hin. split; [|right; right; now left].
        destruct Hin as [Hin|[Hin|[Hin|Hin]]]; try discriminate.
        now apply (Hrm target failure).
      * intros question reply Hin Hno. exfalso.
        destruct Hin as [Hin|[Hin|[Hin|Hin]]]; try discriminate.
        -- injection Hin as _ <-. now apply Hno.
        -- now apply (Hyes question reply).
Qed.

Lemma filter_nothing {A : Type} (f : A -> bool) (l : list A) :
  forallb (fun x => negb (f x)) l = true -> filter f l = [].
Proof.
  induction l as [|x l IH]; [reflexivity|]. cbn [forallb filter].
  intros H. apply andb_true_iff in H as [Hx Hl].
  apply negb_true_iff in Hx. rewrite Hx. now apply IH.
Qed.

(** X19.  When the clone fails, [installGitMcp] throws and spawns nothing
    more: the build command is not run.  Nothing is done either about a
    directory that was removed before the clone. *)
Theorem installGitMcp_stops_at_failed_clone
    (cfg : GitMcp.mcp_config) (scope root : string) (pinfo : Paths.platformInfo)
    (getMcpRepoDir : string -> string -> Paths.platformInfo -> string -> string)
    (w : state wd) :
  let repoPath := getMcpRepoDir scope root pinfo (GitMcp.name cfg) in
  let '(_, log, r) :=
    exec wd (GitMcp.installGitMcp cfg scope root pinfo getMcpRepoDir) w in
  forall c,
    In (ESpawn "git" ["clone"; GitMcp.repoUrl cfg; repoPath]
          (mkOptions "pipe" true None) c) log ->
    GitMcp.child_failed c = true ->
    (exists e, r = Threw e)
    /\ exists before,
         log = (before ++ [ESpawn "git" ["clone"; GitMcp.repoUrl cfg; repoPath]
                             (mkOptions "pipe" true None) c])%list
         /\ filter GitMcp.is_spawn before = [].
Proof.
  intros repoPath. unfold GitMcp.installGitMcp. fold repoPath.
  rewrite exec_bind.
  pose proof (check_existing_spawns_nothing wd (GitMcp.name cfg) repoPath w)
    as Hquiet.
  destruct (exec wd (GitMcp.check_existing (GitMcp.name cfg) repoPath) w)
    as [[w1 log1] r1]. cbn [fst snd] in Hquiet.
  assert (Hfinish : forall w0, exists a,
            exec wd (Ret (GitMcp.mkDescriptor (GitMcp.name cfg) (GitMcp.type cfg)
                            (GitMcp.command cfg) (GitMcp.args cfg) repoPath)) w0
            = (w0, [], Returned a)) by (intros w0; eexists; reflexivity).
  pose proof (exec_after_check cfg repoPath _ w1 Hfinish) as Hrest.
  cbv zeta in Hrest.
  destruct r1 as [[]|e1].
  - destruct (exec wd _ w1) as [[w2 log2] r2].
    intros c Hin Hfail.
    apply in_app_or in Hin as [Hin|Hin];
      [now apply (not_spawned log1) in Hin|].
    destruct Hrest as [(e & -> & -> & Hc0)
                      | (a & built & tl & -> & -> & Htl & Hc0)].
    + destruct Hin as [Hin|[]]. injection Hin as Hc. rewrite Hc.
      split; [now exists e|]. exists log1. split; [reflexivity|].
      now apply filter_nothing.
    + exfalso. destruct Hin as [Hin|[Hin|Hin]].
      * injection Hin as Hc. rewrite Hc in Hc0. congruence.
      * discriminate.
      * now destruct (reports_are_quiet tl Htl _ Hin) as (? & _).
  - intros c Hin _. now apply (not_spawned log1) in Hin.
Qed.

End InstallersMore.

(* ================================================================= *)
(** * The configuration files *)

Section ConfigFilesFacts.
Import Js Str McpConfig.
Import Effects (error, Error, message, result, Returned, Threw).
Import ConfigFiles.
Variable wd : world.
Variable dirname : string -> string.
Variable JSON_parse : string -> result value.
Variable JSON_stringify : value -> string.

Lemma files_exec_bind {A B : Type} (p : prog A) (f : A -> prog B) (w : state wd) :
  exec wd (bind p f) w
  = let '(w1, log1, r) := exec wd p w in
    match r with
    | Returned a =>
        let '(w2, log2, r2) := exec wd (f a) w1 in (w2, (log1 ++ log2)%list, r2)
    | Threw e => (w1, log1, Threw e)
    end.
Proof.
  revert w. induction p as [a|e|X a k IH]; intros w; cbn [bind exec].
  - now destruct (exec wd (f a) w) as [[w2 log2] r2].
  - reflexivity.
  - destruct (answer_to wd a w) as [[x w1] ev].
    rewrite IH. destruct (exec wd (k x) w1) as [[w2 log1] [b|e]].
    + now destruct (exec wd (f b) w2) as [[w3 log2] r2].
    + reflexivity.
Qed.

Lemma files_exec_catch {A : Type} (p : prog A) (h : error -> prog A)
    (w : state wd) :
  exec wd (catch p h) w
  = let '(w1, log1, r) := exec wd p w in
    match r with
    | Returned a => (w1, log1, Returned a)
    | Threw e =>
        let '(w2, log2, r2) := exec wd (h e) w1 in (w2, (log1 ++ log2)%list, r2)
    end.
Proof.
  revert w. induction p as [a|e|X a k IH]; intros w; cbn [catch exec].
  - reflexivity.
  - now destruct (exec wd (h e) w) as [[w2 log2] r2].
  - destruct (answer_to wd a w) as [[x w1] ev].
    rewrite IH. destruct (exec wd (k x) w1) as [[w2 log1] [b|e]].
    + reflexivity.
    + now destruct (exec wd (h e) w2) as [[w3 log2] r2].
Qed.

Ltac run_back_up :=
  unfold back_up, backed_up, perform, settle; cbn [bind exec answer_to];
  match goal with
  | |- context [copyFile ?wd ?w ?src ?dest] =>
      destruct (copyFile wd w src dest) as [[?|] ?]; reflexivity
  end.

(** A load, by what the file system answers. *)
Lemma exec_loadConfig filePath (w : state wd) :
  exec wd (loadConfig JSON_parse filePath) w
  = if access wd w filePath
    then
      match readFile wd w filePath with
      | Returned raw =>
          if trim raw =? ""
          then (w, [EAccess filePath true; ERead filePath (Returned raw)],
                Returned (VObj []))
          else
            match parse_config JSON_parse filePath raw with
            | Returned v =>
                (w, [EAccess filePath true; ERead filePath (Returned raw)],
                 Returned v)
            | Threw _ =>
                backed_up wd w filePath
                  [EAccess filePath true; ERead filePath (Returned raw)]
            end
      | Threw e =>
          backed_up wd w filePath
            [EAccess filePath true; ERead filePath (Threw e)]
      end
    else (w, [EAccess filePath false], Returned (VObj [])).
Proof.
  unfold loadConfig, parse_config, loadJson, loadToml, pathExists, perform.
  destruct (isTomlFile filePath); cbn [bind exec answer_to];
    destruct (access wd w filePath); cbn [negb]; try reflexivity;
    cbn [catch bind exec answer_to];
    destruct (readFile wd w filePath) as [raw|e]; cbn [unwrap bind catch].
  - destruct (trim raw =? ""); reflexivity.
  - run_back_up.
  - destruct (trim raw =? ""); cbn [negb]; [reflexivity|].
    destruct (JSON_parse raw) as [v|e]; cbn [unwrap catch]; [reflexivity|].
    run_back_up.
  - run_back_up.
Qed.




Lemma exec_install configPath servers k (w : state wd) :
  exec wd (installMcpConfig dirname JSON_parse JSON_stringify configPath servers k) w
  = let (made, w1) := mkdir wd w (dirname configPath) in
    match made with
    | Some e => (w1, [EMkdir (dirname configPath) (Some e)], Threw e)
    | None =>
        let '(w2, log, r) := exec wd (loadConfig JSON_parse configPath) w1 in
        match r with
        | Threw e => (w2, EMkdir (dirname configPath) None :: log, Threw e)
        | Returned existing =>
            match existing with
            | VUndef | VNull =>
                (w2, EMkdir (dirname configPath) None :: log,
                 Threw (cannot_read existing k))
            | _ =>
                let data := render JSON_stringify configPath
                              (mergeServers (spread existing) servers k) in
                let (failure, w3) := writeFile wd w2 configPath data in
                (w3,
                 EMkdir (dirname configPath) None
                 :: (log ++ [EWrite configPath data failure])%list,
                 match failure with
                 | Some e => Threw e
                 | None => Returned tt
                 end)
            end
        end
    end.
Proof.
  unfold installMcpConfig, perform. cbn [bind exec answer_to].
  destruct (mkdir wd w (dirname configPath)) as [[e|] w1]; [reflexivity|].
  cbn [settle bind]. rewrite files_exec_bind.
  destruct (exec wd (loadConfig JSON_parse configPath) w1) as [[w2 log] [existing|e]];
    [|reflexivity].
  rewrite files_exec_bind. unfold merge_loaded, save, perform.
  destruct existing; cbn [exec bind answer_to]; try (now rewrite app_nil_r);
    match goal with
    | |- context [writeFile ?a ?b ?c ?d] =>
        destruct (writeFile a b c d) as [[?|] ?]; reflexivity
    end.
Qed.


Lemma exec_remove configPath names k (w : state wd) :
  exec wd (removeMcpConfig JSON_parse JSON_stringify configPath names k) w
  = if access wd w configPath
    then
      let '(w2, log, r) := exec wd (loadConfig JSON_parse configPath) w in
      match r with
      | Threw e => (w2, EAccess configPath true :: log, Threw e)
      | Returned existing =>
          match existing with
          | VUndef | VNull =>
              (w2, EAccess configPath true :: log, Threw (cannot_read existing k))
          | _ =>
              let rm := removeServers (spread existing) names k in
              if (removed rm =? 0)%nat
              then (w2, EAccess configPath true :: log,
                    Returned (mkReport 0 false))
              else
                let data := render JSON_stringify configPath (updated rm) in
                let (failure, w3) := writeFile wd w2 configPath data in
                (w3,
                 EAccess configPath true
                 :: (log ++ [EWrite configPath data failure])%list,
                 match failure with
                 | Some e => Threw e
                 | None => Returned (mkReport (removed rm) true)
                 end)
          end
      end
    else (w, [EAccess configPath false], Returned (mkReport 0 false)).
Proof.
  unfold removeMcpConfig, pathExists, perform. cbn [bind exec answer_to].
  destruct (access wd w configPath); cbn [negb]; [|reflexivity].
  rewrite files_exec_bind.
  destruct (exec wd (loadConfig JSON_parse configPath) w) as [[w2 log] [existing|e]];
    [|reflexivity].
  rewrite files_exec_bind. unfold remove_loaded, save, perform.
  destruct existing; cbn [exec bind answer_to]; try (now rewrite app_nil_r);
    match goal with
    | |- context [Nat.eqb (removed ?rm) 0] =>
        destruct (Nat.eqb (removed rm) 0); cbn [exec bind answer_to];
        [now rewrite app_nil_r|]
    end;
    match goal with
    | |- context [writeFile ?a ?b ?c ?d] =>
        destruct (writeFile a b c d) as [[?|] ?]; cbn; now rewrite ?app_nil_r
    end.
Qed.


(** X23.  A configuration file that holds the JSON text for null is fatal
    to both operations: each throws on its first look into the loaded
    configuration, having written nothing and copied nothing. *)
Theorem null_configuration_is_fatal
    configPath servers names k (w : state wd) :
  (fst (mkdir wd w (dirname configPath)) = None ->
   found_config JSON_parse wd (snd (mkdir wd w (dirname configPath))) configPath
   = VNull ->
   let '(_, log, r) :=
     exec wd (installMcpConfig dirname JSON_parse JSON_stringify configPath
                servers k) w in
   r = Threw (cannot_read VNull k)
   /\ forallb (fun ev => negb (is_write ev) && negb (is_copy ev)) log = true)
  /\ (found_config JSON_parse wd w configPath = VNull ->
      let '(_, log, r) :=
        exec wd (removeMcpConfig JSON_parse JSON_stringify configPath names k) w in
      r = Threw (cannot_read VNull k)
      /\ forallb (fun ev => negb (is_write ev) && negb (is_copy ev)) log = true).
Proof.
  assert (Hquiet : forall w0 : state wd,
            found_config JSON_parse wd w0 configPath = VNull ->
            exists log,
              exec wd (loadConfig JSON_parse configPath) w0
              = (w0, log, Returned VNull)
              /\ forallb (fun ev => negb (is_write ev) && negb (is_copy ev)) log
                 = true).
  { intros w0 Hnull. rewrite exec_loadConfig.
    unfold found_config, held in Hnull.
    destruct (access wd w0 configPath); [|discriminate].
    destruct (readFile wd w0 configPath) as [raw|e]; [|discriminate].
    destruct (trim raw =? ""); [discriminate|].
    destruct (parse_config JSON_parse configPath raw) as [v|e]; [|discriminate].
    subst v. eexists. split; reflexivity. }
  split.
  - rewrite exec_install.
    destruct (mkdir wd w (dirname configPath)) as [[e|] w1]; cbn [fst snd];
      [discriminate|].
    intros _ Hnull. destruct (Hquiet w1 Hnull) as (log & -> & Hlog). now split.
  - rewrite exec_remove. intros Hnull.
    destruct (access wd w configPath) eqn:Ea.
    + destruct (Hquiet w Hnull) as (log & -> & Hlog). now split.
    + unfold found_config in Hnull. rewrite Ea in Hnull. discriminate.
Qed.


End ConfigFilesFacts.

(* ================================================================= *)
(** * Instances *)

Lemma mergeServers_last_wins_witness :
  Js.get_nested
    (McpConfig.mergeServers [] [Cases.wcag_server; Cases.wcag_npx; Cases.aria_server]
       "servers")
    "servers" "wcag"
  = Js.VObj (McpConfig.serverConfig Cases.wcag_npx).
Proof.
  apply (mergeServers_last_wins [] [Cases.wcag_server] [Cases.aria_server]
           Cases.wcag_npx "servers").
  - discriminate.
  - cbn. intros [H|[]]. discriminate.
Defined.

Lemma removeServers_counts_entries_witness :
  McpConfig.removed
    (McpConfig.removeServers Cases.two_servers ["wcag"; "wcag"; "axe"] "servers")
  = 1.
Proof.
  apply (removeServers_counts_entries Cases.two_servers ["wcag"; "wcag"; "axe"]
           "servers").
  reflexivity.
Defined.

Lemma pairs_outside_tables_dropped_witness :
  McpConfig.parseSimpleToml Cases.settings_only = [].
Proof. apply pairs_outside_tables_dropped. vm_compute. reflexivity. Defined.






Lemma repo_directories_do_not_collide_witness :
  Str.endsWith
    (Paths.getMcpRepoDir Sample.mac "local" "/work" (Paths.getPlatform Sample.mac)
       "wcag")
    ("/mcp-repos/" ++ "wcag") = true
  /\ (Paths.getMcpRepoDir Sample.mac "local" "/work"
        (Paths.getPlatform Sample.mac) "wcag"
      = Paths.getMcpRepoDir Sample.mac "local" "/work"
          (Paths.getPlatform Sample.mac) "aria"
      -> "wcag" = "aria").
Proof.
  apply repo_directories_do_not_collide; reflexivity.
Defined.



(** The runs of the operations on a small file system in memory: a file
    that does not parse is kept as [.bak] and written over; a file that
    holds null stops the installation; the last server removed leaves an
    empty configuration. *)
Example install_over_a_file_that_does_not_parse :
  ConfigFiles.exec ConfigFiles.Disk.world
    (ConfigFiles.installMcpConfig ConfigFiles.Disk.dir_of ConfigFiles.Disk.parse
       ConfigFiles.Disk.show "/c/mcp.json" [Cases.wcag_server] "servers")
    [("/c/mcp.json", "{oops")]
  = ([("/c/mcp.json", "{...}" ++ Str.newline); ("/c/mcp.json.bak", "{oops")],
     [ConfigFiles.EMkdir "/c" None; ConfigFiles.EAccess "/c/mcp.json" true;
      ConfigFiles.ERead "/c/mcp.json" (Effects.Returned "{oops");
      ConfigFiles.ECopy "/c/mcp.json" "/c/mcp.json.bak" None;
      ConfigFiles.EWrite "/c/mcp.json" ("{...}" ++ Str.newline) None],
     Effects.Returned tt).
Proof. reflexivity. Qed.

Example install_over_null :
  ConfigFiles.exec ConfigFiles.Disk.world
    (ConfigFiles.installMcpConfig ConfigFiles.Disk.dir_of ConfigFiles.Disk.parse
       ConfigFiles.Disk.show "/c/mcp.json" [Cases.wcag_server] "servers")
    [("/c/mcp.json", "null")]
  = ([("/c/mcp.json", "null")],
     [ConfigFiles.EMkdir "/c" None; ConfigFiles.EAccess "/c/mcp.json" true;
      ConfigFiles.ERead "/c/mcp.json" (Effects.Returned "null")],
     Effects.Threw (ConfigFiles.cannot_read Js.VNull "servers")).
Proof. reflexivity. Qed.

Example remove_the_last_server :
  ConfigFiles.exec ConfigFiles.Disk.world
    (ConfigFiles.removeMcpConfig ConfigFiles.Disk.parse ConfigFiles.Disk.show
       "/c/mcp.json" ["wcag"] "servers")
    [("/c/mcp.json", ConfigFiles.Disk.one_server)]
  = ([("/c/mcp.json", "{}" ++ Str.newline)],
     [ConfigFiles.EAccess "/c/mcp.json" true; ConfigFiles.EAccess "/c/mcp.json" true;
      ConfigFiles.ERead "/c/mcp.json" (Effects.Returned ConfigFiles.Disk.one_server);
      ConfigFiles.EWrite "/c/mcp.json" ("{}" ++ Str.newline) None],
     Effects.Returned (ConfigFiles.mkReport 1 true)).
Proof. reflexivity. Qed.

Lemma sample_store_shows_document :
  Heap.shows Heap.anywhere Sample.store (Js.VObj Cases.stored_document)
    (Heap.HRef 0).
Proof.
  cbn. exists 0, [("theme", Heap.HStr "dark"); ("servers", Heap.HRef 1)].
  repeat split.
  exists 1, [("wcag", Heap.HRef 2)]. repeat split.
  exists 2, [("command", Heap.HStr "node")]. repeat split.
Qed.

Lemma store_merge_shows_tree_merge_witness :
  Heap.shows Heap.anywhere
    (snd (Heap.mergeServers 0 [Cases.aria_in_store] "servers" Sample.store))
    (Js.VObj (McpConfig.mergeServers Cases.stored_document [Cases.aria_server]
                "servers"))
    (fst (Heap.mergeServers 0 [Cases.aria_in_store] "servers" Sample.store)).
Proof.
  apply store_merge_shows_tree_merge.
  - exact sample_store_shows_document.
  - constructor; [|constructor]. repeat split.
Defined.

Lemma store_remove_shows_tree_remove_witness :
  Heap.shows Heap.anywhere
    (snd (Heap.removeServers 0 ["wcag"] "servers" Sample.store))
    (Js.VObj (McpConfig.updated
                (McpConfig.removeServers Cases.stored_document ["wcag"] "servers")))
    (fst (fst (Heap.removeServers 0 ["wcag"] "servers" Sample.store)))
  /\ snd (fst (Heap.removeServers 0 ["wcag"] "servers" Sample.store))
     = McpConfig.removed
         (McpConfig.removeServers Cases.stored_document ["wcag"] "servers").
Proof.
  apply store_remove_shows_tree_remove. exact sample_store_shows_document.
Defined.

